(** * MFEM Maxwell mini-app: step quantizer, driving loop, operator
      dimensions and analytic current sources

    A shallow embedding of
      - [miniapps/electromagnetics/maxwell.cpp]
        ([SnapTimeStep], the time loop of [main], [current_src],
        [voltaic_pile], [current_ring]) and
      - [linalg/matrix.hpp] ([Matrix], [MatrixInverse],
        [AbstractSparseMatrix]),
    with the properties the specification states about them.  The
    arithmetic of [SnapTimeStep] is read twice: over exact rationals
    ([Quantizer]) and with the rounding of binary64 ([Binary64],
    [Rounded]). *)

From Stdlib Require Import ZArith QArith Qround Qpower Qminmax Qabs List Bool Lia String.
From Stdlib Require Import Reals Lra.
From Stdlib Require Lqa.
From Equations Require Import Equations.
Import ListNotations.

(** ** Numeric types of the C++ source *)

Module Numeric.

Local Open Scope Z_scope.

(** The C++ [int] of the source is a 32-bit two's complement integer. *)
Definition INT_MIN : Z := -2147483648.
Definition INT_MAX : Z := 2147483647.

Definition in_int (z : Z) : bool := (INT_MIN <=? z) && (z <=? INT_MAX).

(** A C++ [double].  Finite values are idealised as exact rationals (no
    rounding, no signed zero); the infinities and NaN are kept because
    the source can produce them by dividing by zero.  The operations of
    this module do not round; [Binary64] below has the operations that
    do. *)
Inductive double : Type :=
| Finite (q : Q)
| Inf (negative : bool)
| NaN.

Definition Qneg_bool (q : Q) : bool := Qnum q <? 0.

(** Division of doubles, with the IEEE results for a zero divisor. *)
Definition ddiv (x y : double) : double :=
  match x, y with
  | Finite a, Finite b =>
      if Qeq_bool b 0
      then (if Qeq_bool a 0 then NaN else Inf (Qneg_bool a))
      else Finite (a / b)
  | Finite _, Inf _ => Finite 0
  | Inf s, Finite b => Inf (xorb s (Qneg_bool b))
  | _, _ => NaN
  end.

(** Multiplication of doubles ([0 * inf] is NaN). *)
Definition dmul (x y : double) : double :=
  match x, y with
  | Finite a, Finite b => Finite (a * b)
  | Finite a, Inf s | Inf s, Finite a =>
      if Qeq_bool a 0 then NaN else Inf (xorb s (Qneg_bool a))
  | Inf s, Inf s' => Inf (xorb s s')
  | _, _ => NaN
  end.

(** Comparisons of doubles: every comparison with NaN is false. *)
Definition dle (x y : double) : Prop :=
  match x, y with
  | Finite a, Finite b => (a <= b)%Q
  | Inf true, (Finite _ | Inf _) => True
  | Finite _, Inf false => True
  | Inf false, Inf false => True
  | _, _ => False
  end.

Definition deq (x y : double) : Prop :=
  match x, y with
  | Finite a, Finite b => (a == b)%Q
  | Inf s, Inf s' => s = s'
  | _, _ => False
  end.

(** Conversion [int -> double] (exact: every [int] is a double). *)
Definition of_int (n : Z) : double := Finite (inject_Z n).

(** Conversion [double -> int], written [(int)x] in the source or
    implied by an [int] initialisation: the value is truncated towards
    zero; the behaviour is undefined ([None]) when the truncated value is
    not an [int], and for the infinities and NaN. *)
Definition Qtrunc (q : Q) : Z := Z.quot (Qnum q) (Zpos (Qden q)).

Definition to_int (x : double) : option Z :=
  match x with
  | Finite q => if in_int (Qtrunc q) then Some (Qtrunc q) else None
  | _ => None
  end.

(** [int] multiplication: signed overflow is undefined ([None]). *)
Definition imul (a b : Z) : option Z :=
  if in_int (a * b) then Some (a * b) else None.

(** [pow(b, k)] for an integral exponent [k]: the rational [b^k]
    ([1 / b^(-k)] for a negative [k]). *)
Definition pow (b : Q) (k : Z) : double := Finite (Qpower b k).

(** [ceil(log10(q))] for a positive rational [q]: the least integer [k]
    with [q <= 10^k], found by a linear search between two bounds read
    off the binary sizes of numerator and denominator. *)
Definition le_pow10 (q : Q) (k : Z) : bool := Qle_bool q (Qpower 10 k).

Fixpoint first_from (f : Z -> bool) (fuel : nat) (k : Z) : Z :=
  match fuel with
  | O => k
  | S fuel' => if f k then k else first_from f fuel' (k + 1)
  end.

Definition ceil_log10 (q : Q) : Z :=
  let lo := - (Z.log2 (Zpos (Qden q)) + 1) in
  let hi := Z.log2 (Qnum q) + 1 in
  first_from (le_pow10 q) (Z.to_nat (hi - lo)) lo.

(** [ceil(log10(x))] on doubles: [log10] of zero is minus infinity, of a
    negative number NaN, of plus infinity plus infinity; [ceil] keeps
    these. *)
Definition dceil_log10 (x : double) : double :=
  match x with
  | Finite q =>
      if Qlt_le_dec 0 q then of_int (ceil_log10 q)
      else if Qeq_bool q 0 then Inf true else NaN
  | Inf false => Inf false
  | _ => NaN
  end.

End Numeric.

(** ** The step quantizer: [SnapTimeStep] *)

Module Quantizer.
Import Numeric.

Local Open Scope Z_scope.

Definition bind {A B : Type} (o : option A) (f : A -> option B) : option B :=
  match o with
  | Some a => f a
  | None => None
  end.

Notation "x <- e ;; k" := (bind e (fun x => k))
  (at level 61, e at next level, right associativity).

(** The body of the [for] loop: one candidate [nstepsi] and the running
    minimum. *)
Definition snap_body (dsteps : double) (i : Z) (nsteps : Z) : option Z :=
  a <- to_int (dceil_log10 (ddiv dsteps (pow 5 i))) ;;
  p5 <- to_int (pow 5 i) ;;
  p10 <- to_int (pow 10 a) ;;
  nstepsi <- imul p5 (Z.max 1 p10) ;;
  Some (Z.min nsteps nstepsi).

(** [for (int i=1; i<=5; i++)]: [count] iterations remain, the next one
    at index [i]. *)
Fixpoint snap_for (dsteps : double) (count : nat) (i : Z) (nsteps : Z)
  : option Z :=
  match count with
  | O => Some nsteps
  | S count' =>
      nsteps' <- snap_body dsteps i nsteps ;;
      snap_for dsteps count' (i + 1) nsteps'
  end.

(** [int SnapTimeStep(double tmax, double dtmax, double & dt)]: the
    result pairs the returned step count with the value written to
    [dt]. *)
Definition SnapTimeStep (tmax dtmax : Q) : option (Z * double) :=
  let dsteps := ddiv (Finite tmax) (Finite dtmax) in
  k <- to_int (dceil_log10 dsteps) ;;
  nsteps0 <- to_int (pow 10 k) ;;
  nsteps <- snap_for dsteps 5 1 nsteps0 ;;
  Some (nsteps, ddiv (Finite tmax) (of_int nsteps)).

(** The six step-count candidates the source computes, as integers:
    the power of ten, and for [i = 1..5] the value of [nstepsi]. *)
Definition candidate0 (d : Q) : Z := (10 ^ ceil_log10 d)%Z.

Definition candidate (d : Q) (i : Z) : Z :=
  (5 ^ i * Z.max 1 (10 ^ ceil_log10 (d / Qpower 5 i)))%Z.

Definition nsteps_of (d : Q) : Z :=
  fold_left Z.min (map (candidate d) [1; 2; 3; 4; 5]%Z) (candidate0 d).

(** The ratios for which no conversion to [int] and no [int] product
    leaves the range of [int], and the power-of-ten candidate does not
    truncate to zero. *)
Definition in_range (d : Q) : Prop := (1 # 10 < d /\ d <= 250000000)%Q.

(** For each loop index [i], the largest decimal exponent [amax] for
    which the product [5^i * 10^amax] is still an [int]. *)
Definition exponent_bounds : list (Z * Z) :=
  [(1, 8); (2, 7); (3, 7); (4, 6); (5, 5)]%Z.

(** The candidate set as the specification words it, over the
    rationals: [10^ceil(log10(rawSteps))] and, for [i = 1..5],
    [5^i * max(1, 10^a)] with [a = ceil(log10(rawSteps / 5^i))]. *)
Definition spec_candidates (rawSteps : Q) : list Q :=
  Qpower 10 (ceil_log10 rawSteps)
  :: map (fun i : Z =>
            Qpower 5 i * Qmax 1 (Qpower 10 (ceil_log10 (rawSteps / Qpower 5 i))))%Q
         [1; 2; 3; 4; 5].

(** [c] is the smallest element of [l] that is at least [r]. *)
Definition smallest_geq (r : Q) (l : list Q) (c : Q) : Prop :=
  In c l /\ (r <= c)%Q /\ forall c', In c' l -> (r <= c')%Q -> (c <= c')%Q.

End Quantizer.

(** ** The time evolution part of [main] *)

Module Driver.
Import Numeric Quantizer.

Local Open Scope string_scope.
Local Open Scope Z_scope.

(** What the driver does to the outside world, in order: lines written
    to [cout] and calls into the solver objects. *)
Inductive event : Type :=
| Cout (msg : string)
| CoutInt (label : string) (n : Z)
| CoutDouble (label : string) (x : double)
| StepCall (it : Z) (dt : double)
| SetTime
| GetEnergy
| SyncGridFuncs
| SolverInit
| InitializeGLVis
| RegisterVisItFields
| WriteVisItFields (it : Z)
| DisplayToGLVis
| MPI_Finalize.

Definition too_large : string := "Computed number of time steps is too large.".

Section TimeLoop.

(** The solver objects ([Maxwell], [siaSolver]) are external: [World]
    is their joint state (fields and time [t]) and [Step] stands for
    [siaSolver.Step(B, E, t, dt)]. *)
Variable World : Type.
Variable Step : double -> World -> World.

(** Values fixed before the time loop starts: the iteration cap
    ([-n]), the MPI rank and the two visualisation switches. *)
Variables (max_its myid : Z) (visit visualization : bool).

Record state : Type := { world : World; trace : list event }.

Definition emit (e : event) (st : state) : state :=
  {| world := world st; trace := e :: trace st |}.

Definition emit_if (b : bool) (e : event) (st : state) : state :=
  if b then emit e st else st.

(** The body of the main time evolution loop. *)
Definition loop_body (dt : double) (it : Z) (st : state) : state :=
  let st := emit (StepCall it dt)
                 {| world := Step dt (world st); trace := trace st |} in
  let st := emit SetTime st in
  let st := emit GetEnergy st in
  let st := emit_if (myid =? 0) (Cout "Energy:  ") st in
  let st := emit SyncGridFuncs st in
  let st := emit_if visit (WriteVisItFields it) st in
  let st := emit_if visualization (Cout "Maxwell.DisplayGLVis") st in
  emit_if visualization DisplayToGLVis st.

(** [for (int it = 1; it <= nsteps; it++)], entered at [it]. *)
Equations? time_loop (dt : double) (nsteps it : Z) (st : state) : state
  by wf (Z.to_nat (nsteps + 1 - it)) lt :=
  time_loop dt nsteps it st with Z_le_gt_dec it nsteps := {
    | left _ := time_loop dt nsteps (it + 1) (loop_body dt it st);
    | right _ := st }.
Proof. lia. Qed.

(** [if ( nsteps > max_its ) { cout << ...; nsteps = max_its; }] *)
Definition cap_steps (nsteps : Z) (st : state) : Z * state :=
  if nsteps >? max_its then (max_its, emit (Cout too_large) st)
  else (nsteps, st).

(** [main] from the test of [nsteps] against [max_its] to [return 0]:
    the result is the exit status and the final state.  The loop
    counter [it] is an unbounded integer here; it stays an [int] as long
    as [nsteps] is below [INT_MAX]. *)
Definition drive (nsteps : Z) (dt : double) (st : state) : Z * state :=
  let '(nsteps, st) := cap_steps nsteps st in
  let st := emit (CoutInt "Number of Time Steps:  " nsteps) st in
  let st := emit (CoutDouble "Time Step Size:        " dt) st in
  let st := emit SolverInit st in
  let st := emit_if visualization InitializeGLVis st in
  let st := emit SetTime st in
  let st := emit_if visit RegisterVisItFields st in
  let st := emit_if visit (WriteVisItFields 0) st in
  let st := emit_if visualization DisplayToGLVis st in
  let st := time_loop dt nsteps 1 st in
  (0, emit MPI_Finalize st).

(** [main] from the call of [SnapTimeStep] on. *)
Definition evolve (tmax dtmax : Q) (st : state) : option (Z * state) :=
  match SnapTimeStep tmax dtmax with
  | Some (nsteps, dt) => Some (drive nsteps dt st)
  | None => None
  end.

End TimeLoop.

Arguments world {World} _.
Arguments trace {World} _.

(** Counting events in a trace. *)
Definition is_step_call (e : event) : bool :=
  match e with StepCall _ _ => true | _ => false end.

Definition is_too_large (e : event) : bool :=
  match e with Cout msg => String.eqb msg too_large | _ => false end.

Definition step_calls (tr : list event) : nat :=
  List.length (filter is_step_call tr).

Definition diagnostics (tr : list event) : nat :=
  List.length (filter is_too_large tr).

End Driver.

(** ** Abstract matrices: [linalg/matrix.hpp] *)

Module OperatorAlgebra.

Local Open Scope Z_scope.

(** Modelled from the spec: the base class [Operator] of
    [linalg/operator.hpp], which is not among the sources: "an opaque
    linear map with a fixed output dimension (height) and input
    dimension (width)".  [Operator(h, w)] is [Build_Operator h w] and
    [Operator(s)] the square case. *)
Record Operator : Type := { height : Z; width : Z }.

Definition Operator_square (s : Z) : Operator := {| height := s; width := s |}.

(** Modelled from the spec: the class [Solver] of
    [linalg/operator.hpp], an operator that stands for the inverse of
    another one; its constructor passes both dimensions to [Operator]. *)
Record Solver : Type := { solver_operator : Operator }.

Definition Solver_hw (h w : Z) : Solver :=
  {| solver_operator := {| height := h; width := w |} |}.

Definition Solver_default : Solver :=
  {| solver_operator := Operator_square 0 |}.

(** [class Matrix : public Operator]: the interface every matrix type
    implements.  [matrix_operator] is the [Operator] base object set by
    the constructors [Matrix(s)] and [Matrix(h, w)]; [Elem] is the pure
    virtual element access ([None] outside the shape). *)
Class Matrix (M : Type) : Type := {
  matrix_operator : M -> Operator;
  Elem : M -> Z -> Z -> option Q
}.

(** [class MatrixInverse : public Solver]. *)
Record MatrixInverse : Type := { inverse_solver : Solver }.

(** [MatrixInverse() { }] *)
Definition MatrixInverse_default : MatrixInverse :=
  {| inverse_solver := Solver_default |}.

(** [MatrixInverse(const Matrix &mat) : Solver(mat.height, mat.width) { }] *)
Definition MatrixInverse_of {M : Type} `{Matrix M} (mat : M) : MatrixInverse :=
  {| inverse_solver :=
       Solver_hw (height (matrix_operator mat)) (width (matrix_operator mat)) |}.

Definition inverse_height (inv : MatrixInverse) : Z :=
  height (solver_operator (inverse_solver inv)).

Definition inverse_width (inv : MatrixInverse) : Z :=
  width (solver_operator (inverse_solver inv)).

(** Vectors of the operator algebra. *)
Definition Vector : Type := list Q.

Definition dot (u v : Vector) : Q :=
  fold_right Qplus 0%Q (map (fun '(a, b) => (a * b)%Q) (combine u v)).

(** Two matrix types: dense storage (all [h * w] entries, row by row)
    and sparse storage (the stored entries as row, column, value). *)
Record DenseMatrix : Type := {
  dense_height : nat;
  dense_width : nat;
  dense_rows : nat -> Vector
}.

Record SparseMatrix : Type := {
  sparse_height : nat;
  sparse_width : nat;
  sparse_entries : list (nat * nat * Q)
}.

Definition lookup_entry (entries : list (nat * nat * Q)) (i j : nat) : option Q :=
  match find (fun e => Nat.eqb (fst (fst e)) i && Nat.eqb (snd (fst e)) j) entries with
  | Some e => Some (snd e)
  | None => None
  end.

#[export] Instance DenseMatrix_Matrix : Matrix DenseMatrix := {
  matrix_operator m :=
    {| height := Z.of_nat (dense_height m); width := Z.of_nat (dense_width m) |};
  Elem m i j :=
    if (0 <=? i) && (i <? Z.of_nat (dense_height m)) &&
       (0 <=? j) && (j <? Z.of_nat (dense_width m))
    then nth_error (dense_rows m (Z.to_nat i)) (Z.to_nat j)
    else None
}.

#[export] Instance SparseMatrix_Matrix : Matrix SparseMatrix := {
  matrix_operator m :=
    {| height := Z.of_nat (sparse_height m); width := Z.of_nat (sparse_width m) |};
  Elem m i j :=
    if (0 <=? i) && (i <? Z.of_nat (sparse_height m)) &&
       (0 <=? j) && (j <? Z.of_nat (sparse_width m))
    then lookup_entry (sparse_entries m) (Z.to_nat i) (Z.to_nat j)
    else None
}.

(** The product [A x] of each storage scheme, one entry per row. *)
Definition dense_product (m : DenseMatrix) (x : Vector) : Vector :=
  map (fun i => dot (dense_rows m i) x) (seq 0 (dense_height m)).

Definition sparse_row (m : SparseMatrix) (i : nat) (x : Vector) : Q :=
  fold_right Qplus 0%Q
    (map (fun e => (snd e * nth (snd (fst e)) x 0)%Q)
         (filter (fun e => Nat.eqb (fst (fst e)) i) (sparse_entries m))).

Definition sparse_product (m : SparseMatrix) (x : Vector) : Vector :=
  map (fun i => sparse_row m i x) (seq 0 (sparse_height m)).

(** The failures of the operator algebra. *)
Inductive OpError : Type :=
| DimensionMismatch
| OutOfRange
| StructuralError
| InvalidArgument.

(** An operator variant: a matrix type together with its product,
    which produces one entry per row. *)
Class OperatorVariant (A : Type) `{Matrix A} : Type := {
  product : A -> Vector -> Vector;
  product_length :
    forall (a : A) (x : Vector),
      Z.of_nat (List.length (product a x)) = height (matrix_operator a)
}.

(** Dense and sparse matrices are operator variants. *)
#[export, refine] Instance DenseMatrix_Variant : OperatorVariant DenseMatrix := {
  product := dense_product
}.
Proof.
  intros a x. unfold dense_product. cbn.
  rewrite length_map, length_seq. reflexivity.
Defined.

#[export, refine] Instance SparseMatrix_Variant : OperatorVariant SparseMatrix := {
  product := sparse_product
}.
Proof.
  intros a x. unfold sparse_product. cbn.
  rewrite length_map, length_seq. reflexivity.
Defined.

(** A dense and a sparse 2 x 3 operator. *)
Definition dense23 : DenseMatrix :=
  {| dense_height := 2; dense_width := 3;
     dense_rows := fun i => if Nat.eqb i 0 then [1; 2; 3]%Q else [4; 5; 6]%Q |}.

Definition sparse23 : SparseMatrix :=
  {| sparse_height := 2; sparse_width := 3;
     sparse_entries := [(0, 0, 1%Q); (1, 2, 6%Q)]%nat |}.

(** Modelled from the spec: the concrete [Mult] of the operator
    variants.  The sources only declare it
    ([AbstractSparseMatrix::Mult] is pure virtual), so [apply] follows
    the contract of the specification: "[apply(x) -> y]: [y = A x];
    requires [len(x) == width], [len(y) == height]; fails with
    [DimensionMismatch] otherwise".  [y] is the output vector the caller
    passes in. *)
Definition apply {A : Type} `{OperatorVariant A} (a : A) (x y : Vector)
  : OpError + Vector :=
  if (Z.of_nat (List.length x) =? width (matrix_operator a)) &&
     (Z.of_nat (List.length y) =? height (matrix_operator a))
  then inr (product a x)
  else inl DimensionMismatch.

End OperatorAlgebra.

(** ** The analytic current sources *)

Module Sources.

Local Open Scope R_scope.

(** How an evaluation can leave the model: an index outside a vector
    (undefined behaviour in a release build, an abort in a debug build),
    a failed [MFEM_ASSERT], a division by zero (the double result is an
    infinity or NaN, not a real number), or a read of an entry that was
    never written. *)
Inductive failure : Type :=
| OutOfBounds
| AssertionFailed (msg : string)
| DivisionByZero
| IndeterminateValue.

Definition result (A : Type) : Type := failure + A.

Definition ret {A : Type} (a : A) : result A := inr a.

Definition fail {A : Type} (f : failure) : result A := inl f.

Definition bind {A B : Type} (r : result A) (k : A -> result B) : result B :=
  match r with
  | inl f => inl f
  | inr a => k a
  end.

Notation "x <- e ;; k" := (bind e (fun x => k))
  (at level 61, e at next level, right associativity).
Notation "' p <- e ;; k" := (bind e (fun p => k))
  (at level 61, p pattern, e at next level, right associativity).

(** *** Class [Vector]

    [linalg/vector.hpp] is not among the sources; the operations used
    by the source functions are modelled by their documented meaning, on
    lists of reals (a finite [double] is idealised as a real number). *)
Definition Vector : Type := list R.

Definition Size (v : Vector) : nat := List.length v.

(** [Vector v(n)]: [n] entries.  Their initial values are indeterminate
    in the source; the model takes zeros and reports a read that would
    see an unwritten entry as [IndeterminateValue] where one can
    occur. *)
Definition alloc (n : nat) : Vector := repeat 0 n.

(** [v.SetSize(n)]: keeps the leading entries, new ones as for [alloc]. *)
Definition SetSize (v : Vector) (n : nat) : Vector :=
  firstn n v ++ alloc (n - List.length v)%nat.

(** [v = c] for a double [c]. *)
Definition fill (v : Vector) (c : R) : Vector := map (fun _ => c) v.

(** [v[i]] and [v(i)] as a value. *)
Definition get (v : Vector) (i : nat) : result R :=
  match nth_error v i with
  | Some c => ret c
  | None => fail OutOfBounds
  end.

(** [v[i] = c] and [v(i) = c]. *)
Fixpoint set (v : Vector) (i : nat) (c : R) : result Vector :=
  match v, i with
  | [], _ => fail OutOfBounds
  | _ :: v', O => ret (c :: v')
  | y :: v', S i' => v'' <- set v' i' c ;; ret (y :: v'')
  end.

(** [u * v], the inner product. *)
Definition dot (u v : Vector) : R :=
  fold_right Rplus 0 (map (fun '(a, b) => a * b) (combine u v)).

(** [v.Norml2()]. *)
Definition Norml2 (v : Vector) : R := sqrt (dot v v).

(** [v.Add(a, w)]: [v += a * w]. *)
Definition Add (v : Vector) (a : R) (w : Vector) : Vector :=
  map (fun '(vi, wi) => vi + a * wi) (combine v w).

(** [v *= c]. *)
Definition scale (v : Vector) (c : R) : Vector := map (fun vi => vi * c) v.

(** [v += w]. *)
Definition vadd (v w : Vector) : Vector :=
  map (fun '(vi, wi) => vi + wi) (combine v w).

(** Division of doubles: by zero it leaves the real numbers. *)
Definition rdiv (a b : R) : result R :=
  if Req_dec_T b 0 then fail DivisionByZero else ret (a / b).

(** [v /= c]. *)
Definition vdiv (v : Vector) (c : R) : result Vector :=
  if Req_dec_T c 0 then fail DivisionByZero else ret (map (fun vi => vi / c) v).

Definition Rleb (a b : R) : bool := if Rle_dec a b then true else false.
Definition Rltb (a b : R) : bool := if Rlt_dec a b then true else false.

Section Sources.

(** The macro [MFEM_ASSERT] of [general/error.hpp] is not among the
    sources: it checks its condition in builds with [MFEM_DEBUG] and
    expands to nothing otherwise.  The build kind is a parameter. *)
Variable MFEM_DEBUG : bool.

Definition MFEM_ASSERT (cond : bool) (msg : string) : result unit :=
  if MFEM_DEBUG && negb cond then fail (AssertionFailed msg) else ret tt.

(** The file-scope parameter vectors set from the command line. *)
Variable vp_params_ : Vector.
Variable cr_params_ : Vector.

(** The loop shared by both sources,
    [for (int i=0; i<x.Size(); i++) { xu[i] -= params[i];
       a[i] = params[x.Size()+i] - params[i]; }],
    with [count] iterations left and the next one at index [i]. *)
Fixpoint axis_for (params : Vector) (n count i : nat) (xu a : Vector)
  : result (Vector * Vector) :=
  match count with
  | O => ret (xu, a)
  | S count' =>
      xui <- get xu i ;;
      pi <- get params i ;;
      xu' <- set xu i (xui - pi) ;;
      pni <- get params (n + i) ;;
      pi' <- get params i ;;
      a' <- set a i (pni - pi') ;;
      axis_for params n count' (S i) xu' a'
  end.

(** [void voltaic_pile(const Vector &x, double t, Vector &p)]: the
    argument [p] is the vector the caller passes in, the result the
    vector it holds on return. *)
Definition voltaic_pile (x : Vector) (t : R) (p : Vector) : result Vector :=
  let n := Size x in
  let p := fill (SetSize p n) 0 in
  let a := alloc n in
  let xu := x in
  '(xu, a) <- axis_for vp_params_ n n 0 xu a ;;
  let h := Norml2 a in
  if Req_dec_T h 0 then ret p
  else
    r <- get vp_params_ (2 * n) ;;
    let xa := dot xu a in
    xu <- (if Rltb 0 h
           then c <- rdiv (- xa) (h * h) ;; ret (Add xu c a)
           else ret xu) ;;
    let xp := Norml2 xu in
    p <- (if Rleb 0 xa && Rleb xa (h * h) && Rleb xp r
          then pol <- get vp_params_ (2 * n + 1) ;;
               c <- rdiv pol h ;;
               ret (Add p c a)
          else ret p) ;;
    f <- get vp_params_ (2 * n + 2) ;;
    ret (scale p (sin (2 * PI * f * t))).

(** [void current_ring(const Vector &x, double t, Vector &j)]. *)
Definition current_ring (x : Vector) (t : R) (j : Vector) : result Vector :=
  _ <- MFEM_ASSERT (Nat.eqb (Size x) 3) "current_ring source requires 3D space."%string ;;
  let n := Size x in
  let j := fill (SetSize j n) 0 in
  let a := alloc n in
  let xu := x in
  let ju := alloc n in
  '(xu, a) <- axis_for cr_params_ n n 0 xu a ;;
  let h := Norml2 a in
  if Req_dec_T h 0 then ret j
  else
    ra <- get cr_params_ (2 * n + 0) ;;
    rb <- get cr_params_ (2 * n + 1) ;;
    let '(ra, rb) := if Rltb rb ra then (rb, ra) else (ra, rb) in
    let xa := dot xu a in
    xu <- (if Rltb 0 h
           then c <- rdiv (- xa) (h * h) ;; ret (Add xu c a)
           else ret xu) ;;
    let xp := Norml2 xu in
    j <- (if Rleb 0 xa && Rleb xa (h * h) && Rleb ra xp && Rleb xp rb
          then a1 <- get a 1 ;; xu2 <- get xu 2 ;;
               a2 <- get a 2 ;; xu1 <- get xu 1 ;;
               ju <- set ju 0 (a1 * xu2 - a2 * xu1) ;;
               xu0 <- get xu 0 ;; a0 <- get a 0 ;;
               ju <- set ju 1 (a2 * xu0 - a0 * xu2) ;;
               ju <- set ju 2 (a0 * xu1 - a1 * xu0) ;;
               _ <- (if Nat.leb n 3 then ret tt else fail IndeterminateValue) ;;
               ju <- vdiv ju h ;;
               cur <- get cr_params_ (2 * n + 2) ;;
               c <- rdiv cur (h * (rb - ra)) ;;
               ret (Add j c ju)
          else ret j) ;;
    f <- get cr_params_ (2 * n + 3) ;;
    ret (scale j (sin (2 * PI * f * t))).

(** [void current_src(const Vector &x, double t, Vector &j)].  The two
    sizes are multiplied as natural numbers: the parameter vectors hold
    a handful of entries, far from the range of [int]. *)
Definition current_src (x : Vector) (t : R) (j : Vector) : result Vector :=
  if Nat.eqb (Size vp_params_ * Size cr_params_) 0
  then
    j <- (if Nat.ltb 0 (Size vp_params_) then voltaic_pile x t j else ret j) ;;
    (if Nat.ltb 0 (Size cr_params_) then current_ring x t j else ret j)
  else
    let j_cr := alloc (Size x) in
    j <- voltaic_pile x t j ;;
    j_cr <- current_ring x t j_cr ;;
    ret (vadd j j_cr).

End Sources.

End Sources.

(** ** Shapes used to state further properties *)

Module Rounding.

Local Open Scope Z_scope.

(** The step counts [SnapTimeStep] chooses from: a power of five up to
    [5^5] times a power of ten. *)
Definition round_number (z : Z) : Prop :=
  exists i a, 0 <= i <= 5 /\ 0 <= a /\ z = 5 ^ i * 10 ^ a.

End Rounding.

Module DriverEvents.
Import Numeric Driver.

(** The calls that write the fields to disk for VisIt. *)
Definition is_visit_write (e : event) : bool :=
  match e with WriteVisItFields _ => true | _ => false end.

Definition visit_writes (tr : list event) : nat :=
  List.length (filter is_visit_write tr).

(** The steps taken, oldest first, as the loop index and step size
    passed to [Step] (a trace lists the newest event first). *)
Definition flat_step (e : event) : list (Z * double) :=
  match e with StepCall it dt => [(it, dt)] | _ => [] end.

Definition steps_taken (tr : list event) : list (Z * double) :=
  rev (flat_map flat_step tr).

End DriverEvents.

Module SourceShapes.
Import Sources.

Local Open Scope R_scope.

(** The axis vector both sources compute from the two end points held
    in the first [2 n] parameters: end minus start. *)
Definition axis (params : Vector) (n : nat) : Vector :=
  map (fun k => nth (n + k) params 0 - nth k params 0) (seq 0 n).

(** The sum the loop of the material functions adds to [r2]: the
    squared distance of [x] from the centre held in the first
    parameters, over the indices [i, ..., i + count - 1]. *)
Fixpoint square_sum (params x : Vector) (count i : nat) : R :=
  match count with
  | O => 0
  | S count' =>
      square_sum params x count' (S i)
      + (nth i x 0 - nth i params 0) * (nth i x 0 - nth i params 0)
  end.

Definition distance2 (params x : Vector) : R :=
  square_sum params x (Size x) 0.

End SourceShapes.

(** ** The material and boundary functions *)

Module Coefficients.
Import Sources.

Local Open Scope R_scope.

Section Coefficients.

(** The constants [epsilon0_] and [mu0_] come from
    [maxwell_solver.hpp], which is not among the sources: they are
    parameters. *)
Variables epsilon0_ mu0_ : R.

(** The file-scope parameter vectors and the two scalars set from the
    command line. *)
Variables ds_params_ ms_params_ cs_params_ : Vector.
Variable freq_ : R.
Variable prob_ : Z.

(** The loop of the three material functions,
    [for (int i=0; i<x.Size(); i++)
       { r2 += (x(i)-params(i))*(x(i)-params(i)); }],
    with [count] iterations left and the next one at index [i]. *)
Fixpoint radius2_for (params x : Vector) (count i : nat) (r2 : R) : result R :=
  match count with
  | O => ret r2
  | S count' =>
      xi <- get x i ;;
      pi <- get params i ;;
      xi' <- get x i ;;
      pi' <- get params i ;;
      radius2_for params x count' (S i) (r2 + (xi - pi) * (xi' - pi'))
  end.

(** [double dielectric_sphere(const Vector &x)]. *)
Definition dielectric_sphere (x : Vector) : result R :=
  let n := Size x in
  r2 <- radius2_for ds_params_ x n 0 0 ;;
  radius <- get ds_params_ n ;;
  if Rleb (sqrt r2) radius
  then eps_r <- get ds_params_ (n + 1) ;; ret (eps_r * epsilon0_)
  else ret epsilon0_.

(** [double epsilon(const Vector &x) { return dielectric_sphere(x); }] *)
Definition epsilon (x : Vector) : result R := dielectric_sphere x.

(** [double magnetic_shell(const Vector &x)]: the second comparison
    and its read are evaluated only when the first one holds. *)
Definition magnetic_shell (x : Vector) : result R :=
  let n := Size x in
  r2 <- radius2_for ms_params_ x n 0 0 ;;
  inner <- get ms_params_ n ;;
  if Rleb inner (sqrt r2)
  then outer <- get ms_params_ (n + 1) ;;
       if Rleb (sqrt r2) outer
       then mu_r <- get ms_params_ (n + 2) ;; ret (mu0_ * mu_r)
       else ret mu0_
  else ret mu0_.

(** [double muInv(const Vector & x) { return 1.0/magnetic_shell(x); }] *)
Definition muInv (x : Vector) : result R :=
  m <- magnetic_shell x ;; rdiv 1 m.

(** [double charged_sphere(const Vector &x)]. *)
Definition charged_sphere (x : Vector) : result R :=
  let n := Size x in
  let r2 := 0 in
  let rho := 0 in
  radius <- get cs_params_ n ;;
  rho <- (if Rltb 0 radius
          then match n with
               | 2%nat =>
                   q <- get cs_params_ (n + 1) ;;
                   radius' <- get cs_params_ n ;;
                   rdiv q (PI * radius' ^ 2)
               | 3%nat =>
                   q <- get cs_params_ (n + 1) ;;
                   radius' <- get cs_params_ n ;;
                   rdiv (0.75 * q) (PI * radius' ^ 3)
               | _ => ret 0
               end
          else ret rho) ;;
  r2 <- radius2_for cs_params_ x n 0 r2 ;;
  radius'' <- get cs_params_ n ;;
  if Rleb (sqrt r2) radius'' then ret rho else ret 0.

(** [void EFieldFunc(const Vector &x, Vector &E)] and
    [void BFieldFunc(const Vector &x, Vector &B)]. *)
Definition EFieldFunc (x : Vector) (E : Vector) : Vector :=
  fill (SetSize E 3) 0.

Definition BFieldFunc (x : Vector) (B : Vector) : Vector :=
  fill (SetSize B 3) 0.

(** [void dEdtBCFunc(const Vector &x, double t, Vector &dE)]. *)
Definition dEdtBCFunc (x : Vector) (t : R) (dE : Vector) : result Vector :=
  let dE := fill (SetSize dE 3) 0 in
  match prob_ with
  | 0%Z =>
      let dE := fill dE 0 in
      x0 <- get x 0 ;;
      set dE 2 (2 * PI * freq_ *
                cos (2 * PI * freq_ * (t - x0 * sqrt (epsilon0_ * mu0_))))
  | 1%Z =>
      x0 <- get x 0 ;;
      let arg := 2 * PI * freq_ * (t - x0 * sqrt (epsilon0_ * mu0_)) in
      let dE := fill dE 0 in
      set dE 2 (2 * PI * freq_ * exp (- 0.25 * arg ^ 2) *
                (cos arg + 0.25 * arg * sin arg))
  | _ => ret (fill dE 0)
  end.

End Coefficients.

End Coefficients.

(** ** The coefficient functions [main] hands to the solver *)

Module Setup.
Import Sources Coefficients.

Section Setup.

Variable MFEM_DEBUG : bool.
Variables epsilon0_ mu0_ : R.
Variables ds_params_ ms_params_ vp_params_ cr_params_ : Vector.

(** The arguments of the [MaxwellSolver] constructor in [main]: a
    function, or [NULL] ([None]) when its parameter vector is empty. *)
Definition epsilon_arg : option (Vector -> result R) :=
  if Nat.ltb 0 (Size ds_params_)
  then Some (epsilon epsilon0_ ds_params_) else None.

Definition muInv_arg : option (Vector -> result R) :=
  if Nat.ltb 0 (Size ms_params_)
  then Some (muInv mu0_ ms_params_) else None.

Definition current_src_arg
  : option (Vector -> R -> Vector -> result Vector) :=
  if Nat.ltb 0 (Size vp_params_) || Nat.ltb 0 (Size cr_params_)
  then Some (current_src MFEM_DEBUG vp_params_ cr_params_) else None.

End Setup.

End Setup.

(** ** Binary64 arithmetic

    The functions of [Numeric] read a [double] as the exact rational it
    stands for.  The source computes in IEEE 754 binary64: every quotient
    is rounded to the nearest double, and [log10] and [pow] come from the
    C library.  This layer keeps the representation of [Numeric] (a
    finite double is the rational it denotes) and adds the rounding. *)

Module Binary64.
Import Numeric.

Local Open Scope Z_scope.

(** [floor(log2(q))] for a positive rational [q]. *)
Definition Qlog2 (q : Q) : Z :=
  let l := Z.log2 (Qnum q) - Z.log2 (Zpos (Qden q)) in
  if Qle_bool (Qpower 2 l) q then l else l - 1.

(** The exponent of the unit in the last place of a positive [q]: a
    double has 53 significant bits, and no unit below [2^-1074] (the
    subnormal numbers). *)
Definition ulp_exponent (q : Q) : Z := Z.max (Qlog2 q - 52) (-1074).

(** The integer nearest to [q], the even one of two equally near. *)
Definition nearest_even (q : Q) : Z :=
  let f := Qfloor q in
  match (q - inject_Z f ?= 1 # 2)%Q with
  | Lt => f
  | Eq => if Z.even f then f else f + 1
  | Gt => f + 1
  end.

(** A positive [q] rounded to the nearest multiple of its unit in the
    last place (exponent range unbounded above). *)
Definition round_pos (q : Q) : Q :=
  let e := ulp_exponent q in
  Qred (inject_Z (nearest_even (q / Qpower 2 e)) * Qpower 2 e).

(** Rounding to nearest, ties to even, with overflow to infinity: the
    rounding of every binary64 operation in the default mode. *)
Definition RN (q : Q) : double :=
  match (q ?= 0)%Q with
  | Eq => Finite 0
  | Gt => let r := round_pos q in
          if Qle_bool (Qpower 2 1024) r then Inf false else Finite r
  | Lt => let r := round_pos (- q) in
          if Qle_bool (Qpower 2 1024) r then Inf true else Finite (- r)
  end.

(** The rationals that are doubles: [m * 2^e] with at most 53 bits in
    [m], [e] at least [-1074], below [2^1024] in magnitude. *)
Definition representable (f : Q) : Prop :=
  exists m e : Z,
    (Z.abs m <= 2 ^ 53)%Z /\ (-1074 <= e)%Z /\
    (f == inject_Z m * Qpower 2 e)%Q /\ (Qabs f < Qpower 2 1024)%Q.

(** Division of doubles, [x / y] in the source: the quotient rounded to
    nearest, with the IEEE results for a zero divisor. *)
Definition fdiv (x y : double) : double :=
  match x, y with
  | Finite a, Finite b =>
      if Qeq_bool b 0
      then (if Qeq_bool a 0 then NaN else Inf (Qneg_bool a))
      else RN (a / b)
  | Finite _, Inf _ => Finite 0
  | Inf s, Finite b => Inf (xorb s (Qneg_bool b))
  | _, _ => NaN
  end.

(** [pow(b, k)] of the C library for an integral exponent [k], taken
    as the correctly rounded power.  The source converts every power to
    [int]: only the powers that are integers below [2^31] (exact in any
    library that errs by less than a unit in the last place) and the
    fact that a power below one truncates to zero matter. *)
Definition pow (b : Q) (k : Z) : double := RN (Qpower b k).

(** *** The logarithm of the C library

    [log10] is not among the sources and the C standard fixes no
    accuracy for it.  The source uses it only under [ceil], so the
    library enters as the function [x |-> ceil(log10(x))] on positive
    doubles, a parameter of the quantizer below.  The assumption made
    about it: on every positive double [x] the result [k] satisfies
    [10^(k-1) < x <= 10^k] up to a relative [4e-13], which holds of
    every library whose [log10] errs by a few units in the last
    place. *)
Definition libm_tolerance : Q := 4 # 10000000000000.

Definition accurate (cl : Q -> Z) : Prop :=
  forall x : Q, representable x -> (0 < x)%Q ->
    (Qpower 10 (cl x - 1) * (1 - libm_tolerance) < x /\
     x <= Qpower 10 (cl x) * (1 + libm_tolerance))%Q.

(** One accurate library, for reference: the ceiling of the correctly
    rounded logarithm.  [log10 x] rounds to the integer [j] when [x]
    exceeds [10^j] by less than the factor [10^h], [h] being half the
    distance from [j] to the next double above it ([10^h] is about
    [1 + h * ln 10]); then the ceiling is [j], not [j + 1].  Nothing
    positive rounds to zero, and a double has [|j| <= 324].  The
    theorems hold for every accurate library; this one evaluates the
    quantizer at concrete inputs. *)
Definition ln10_below : Q := 2302585092994 # 1000000000000.

Definition half_gap_above (j : Z) : Q :=
  if (j =? 0) || (1024 <=? Z.abs j) then 0%Q
  else if 0 <? j then Qpower 2 (Z.log2 j - 53)
  else if - j =? 2 ^ Z.log2 (- j) then Qpower 2 (Z.log2 (- j) - 54)
  else Qpower 2 (Z.log2 (- j) - 53).

Definition ceil_log10_rn (x : Q) : Z :=
  let k := ceil_log10 x in
  if Qle_bool x (Qpower 10 (k - 1) * (1 + ln10_below * half_gap_above (k - 1)))
  then k - 1 else k.

End Binary64.

(** ** The step quantizer in binary64 arithmetic

    [SnapTimeStep] once more, line by line as in [Quantizer], with the
    two divisions rounded and the logarithm of the C library. *)

Module Rounded.
Import Numeric Binary64.

Local Open Scope Z_scope.

Local Notation "x <- e ;; k" := (Quantizer.bind e (fun x => k))
  (at level 61, e at next level, right associativity).

Section Libm.

(** [ceil(log10(x))] of the C library, for a positive double [x]. *)
Variable libm_ceil_log10 : Q -> Z.

(** [ceil(log10(x))] on doubles, with the results the C standard fixes
    for zero, negative and infinite arguments. *)
Definition dceil_log10 (x : double) : double :=
  match x with
  | Finite q =>
      if Qlt_le_dec 0 q then of_int (libm_ceil_log10 q)
      else if Qeq_bool q 0 then Inf true else NaN
  | Inf false => Inf false
  | _ => NaN
  end.

(** The body of the [for] loop. *)
Definition snap_body (dsteps : double) (i : Z) (nsteps : Z) : option Z :=
  a <- to_int (dceil_log10 (fdiv dsteps (pow 5 i))) ;;
  p5 <- to_int (pow 5 i) ;;
  p10 <- to_int (pow 10 a) ;;
  nstepsi <- imul p5 (Z.max 1 p10) ;;
  Some (Z.min nsteps nstepsi).

Fixpoint snap_for (dsteps : double) (count : nat) (i : Z) (nsteps : Z)
  : option Z :=
  match count with
  | O => Some nsteps
  | S count' =>
      nsteps' <- snap_body dsteps i nsteps ;;
      snap_for dsteps count' (i + 1) nsteps'
  end.

(** [int SnapTimeStep(double tmax, double dtmax, double & dt)]. *)
Definition SnapTimeStep (tmax dtmax : Q) : option (Z * double) :=
  let dsteps := fdiv (Finite tmax) (Finite dtmax) in
  k <- to_int (dceil_log10 dsteps) ;;
  nsteps0 <- to_int (pow 10 k) ;;
  nsteps <- snap_for dsteps 5 1 nsteps0 ;;
  Some (nsteps, fdiv (Finite tmax) (of_int nsteps)).

(** The six candidates as the source computes them from the rounded
    ratio [d], and their minimum. *)
Definition candidate0 (d : Q) : Z := 10 ^ libm_ceil_log10 d.

Definition candidate (d : Q) (i : Z) : Z :=
  5 ^ i * Z.max 1 (10 ^ libm_ceil_log10 (round_pos (d / Qpower 5 i))).

Definition nsteps_of (d : Q) : Z :=
  fold_left Z.min (map (candidate d) [1; 2; 3; 4; 5]) (candidate0 d).

(** [main] from the call of [SnapTimeStep] on. *)
Variable World : Type.
Variable Step : double -> World -> World.
Variables (max_its myid : Z) (visit visualization : bool).

Definition evolve (tmax dtmax : Q) (st : Driver.state World)
  : option (Z * Driver.state World) :=
  match SnapTimeStep tmax dtmax with
  | Some (nsteps, dt) =>
      Some (Driver.drive World Step max_its myid visit visualization nsteps dt st)
  | None => None
  end.

End Libm.

(** The relative tolerance of the statements below: it covers the
    rounding of the two quotients (a unit roundoff [2^-53] each) and
    the tolerance of the logarithm. *)
Definition tolerance : Q := 1 # 1000000000000.

(** The ratios for which no conversion and no [int] product leaves the
    range of [int] and the power-of-ten candidate is not zero, whatever
    the roundings. *)
Definition in_range (d : Q) : Prop :=
  ((1 + tolerance) / 10 <= d /\ d <= 250000000 * (1 - tolerance))%Q.

End Rounded.

(** ** Properties of the numeric layer *)

Module NumericFacts.
Import Numeric.

Local Open Scope Q_scope.

Lemma first_from_spec (f : Z -> bool) (fuel : nat) (k : Z) :
  f (k + Z.of_nat fuel)%Z = true ->
  f (first_from f fuel k) = true /\
  (k <= first_from f fuel k <= k + Z.of_nat fuel)%Z /\
  (forall j, (k <= j < first_from f fuel k)%Z -> f j = false).
Proof.
  revert k. induction fuel as [|fuel IH]; intros k Hend.
  - simpl in *. rewrite Z.add_0_r in Hend.
    split; [exact Hend | split; [lia | intros j Hj; lia]].
  - cbn [first_from]. destruct (f k) eqn:Hk.
    + split; [exact Hk | split; [lia | intros j Hj; lia]].
    + replace (k + Z.of_nat (S fuel))%Z with (k + 1 + Z.of_nat fuel)%Z in Hend by lia.
      destruct (IH (k + 1)%Z Hend) as (Hr & Hb & Hlt).
      split; [exact Hr | split; [lia |]].
      intros j Hj. destruct (Z.eq_dec j k) as [->|Hne]; [exact Hk |].
      apply Hlt. lia.
Qed.

Lemma ten_gt_1 : 1 < 10.
Proof. reflexivity. Qed.

Lemma pow10_pos (k : Z) : 0 < 10 ^ k.
Proof. apply Qpower_0_lt. reflexivity. Qed.

Lemma pow10_mono (k m : Z) : (k <= m)%Z -> 10 ^ k <= 10 ^ m.
Proof. intros H. apply Qpower_le_compat_l; [exact H | discriminate]. Qed.

Lemma pow10_lt_inv (k m : Z) : 10 ^ k < 10 ^ m -> (k < m)%Z.
Proof. intros H. apply (Qpower_lt_compat_l_inv 10); [exact H | reflexivity]. Qed.

Lemma pow10_inject (k : Z) : (0 <= k)%Z -> 10 ^ k == inject_Z (10 ^ k).
Proof. intros H. symmetry. apply (Zpower_Qpower 10 k H). Qed.

Lemma le_pow10_true (q : Q) (k : Z) : le_pow10 q k = true <-> q <= 10 ^ k.
Proof. unfold le_pow10. apply Qle_bool_iff. Qed.

Lemma le_pow10_false (q : Q) (k : Z) : le_pow10 q k = false <-> 10 ^ k < q.
Proof.
  rewrite <- Bool.not_true_iff_false, le_pow10_true. split.
  - apply Qnot_le_lt.
  - apply Qlt_not_le.
Qed.

(** Below [10^lo] and at most [10^hi], for the two bounds of the search. *)
Lemma below_lo (q : Q) :
  0 < q -> 10 ^ (- (Z.log2 (Zpos (Qden q)) + 1)) < q.
Proof.
  intros Hq. destruct q as [p d]. cbn [Qden].
  assert (Hp : (0 < p)%Z) by (unfold Qlt in Hq; simpl in Hq; lia).
  set (m := (Z.log2 (Zpos d) + 1)%Z).
  assert (Hm : (0 <= m)%Z) by (pose proof (Z.log2_nonneg (Zpos d)); lia).
  assert (Hd : (Zpos d < 10 ^ m)%Z).
  { apply Z.lt_le_trans with (2 ^ m)%Z.
    - unfold m. apply Z.log2_spec. lia.
    - apply Z.pow_le_mono_l. lia. }
  rewrite Qpower_opp, pow10_inject by exact Hm.
  assert (HT : (0 < 10 ^ m)%Z) by lia.
  destruct (10 ^ m)%Z as [|T|T] eqn:ET; try lia.
  unfold Qlt, Qinv, inject_Z. cbn. nia.
Qed.

Lemma above_hi (q : Q) :
  0 < q -> q <= 10 ^ (Z.log2 (Qnum q) + 1).
Proof.
  intros Hq. destruct q as [p d]. cbn [Qnum].
  assert (Hp : (0 < p)%Z) by (unfold Qlt in Hq; simpl in Hq; lia).
  set (m := (Z.log2 p + 1)%Z).
  assert (Hm : (0 <= m)%Z) by (pose proof (Z.log2_nonneg p); lia).
  assert (Hd : (p < 10 ^ m)%Z).
  { apply Z.lt_le_trans with (2 ^ m)%Z.
    - unfold m. apply Z.log2_spec. lia.
    - apply Z.pow_le_mono_l. lia. }
  rewrite pow10_inject by exact Hm.
  unfold Qle, inject_Z. cbn. nia.
Qed.

(** [ceil_log10 q] is the integer [k] with [10^(k-1) < q <= 10^k]. *)
Lemma ceil_log10_spec (q : Q) :
  0 < q -> 10 ^ (ceil_log10 q - 1) < q /\ q <= 10 ^ (ceil_log10 q).
Proof.
  intros Hq. unfold ceil_log10.
  set (lo := (- (Z.log2 (Zpos (Qden q)) + 1))%Z).
  set (hi := (Z.log2 (Qnum q) + 1)%Z).
  assert (Hlohi : (lo <= hi)%Z).
  { unfold lo, hi. pose proof (Z.log2_nonneg (Zpos (Qden q))).
    pose proof (Z.log2_nonneg (Qnum q)). lia. }
  assert (Hend : le_pow10 q (lo + Z.of_nat (Z.to_nat (hi - lo)))%Z = true).
  { replace (lo + Z.of_nat (Z.to_nat (hi - lo)))%Z with hi by lia.
    apply le_pow10_true, above_hi, Hq. }
  destruct (first_from_spec _ _ _ Hend) as (Hr & Hb & Hlt).
  set (r := first_from (le_pow10 q) (Z.to_nat (hi - lo)) lo) in *.
  split; [| apply le_pow10_true, Hr].
  assert (Hlo : le_pow10 q lo = false) by (apply le_pow10_false, below_lo, Hq).
  assert (Hne : r <> lo) by (intros E; rewrite E in Hr; congruence).
  apply le_pow10_false, Hlt. lia.
Qed.

Lemma ceil_log10_unique (q : Q) (k : Z) :
  10 ^ (k - 1) < q -> q <= 10 ^ k -> ceil_log10 q = k.
Proof.
  intros Hlo Hhi.
  assert (Hq : 0 < q) by (eapply Qlt_trans; [apply pow10_pos | exact Hlo]).
  destruct (ceil_log10_spec q Hq) as [Hlo' Hhi'].
  assert (ceil_log10 q - 1 < k)%Z
    by (apply pow10_lt_inv; eapply Qlt_le_trans; eassumption).
  assert (k - 1 < ceil_log10 q)%Z
    by (apply pow10_lt_inv; eapply Qlt_le_trans; eassumption).
  lia.
Qed.

Lemma ceil_log10_le (q : Q) (m : Z) :
  0 < q -> q <= 10 ^ m -> (ceil_log10 q <= m)%Z.
Proof.
  intros Hq Hm. destruct (ceil_log10_spec q Hq) as [Hlo _].
  assert (ceil_log10 q - 1 < m)%Z
    by (apply pow10_lt_inv; eapply Qlt_le_trans; eassumption).
  lia.
Qed.

Lemma ceil_log10_gt (q : Q) (m : Z) :
  10 ^ m < q -> (m < ceil_log10 q)%Z.
Proof.
  intros Hm.
  assert (Hq : 0 < q) by (eapply Qlt_trans; [apply pow10_pos | exact Hm]).
  destruct (ceil_log10_spec q Hq) as [_ Hhi].
  apply pow10_lt_inv. eapply Qlt_le_trans; eassumption.
Qed.

End NumericFacts.

(** ** Properties of the step quantizer *)

Module QuantizerFacts.
Import Numeric Quantizer NumericFacts.

Local Open Scope Q_scope.

Lemma in_int_iff (z : Z) :
  in_int z = true <-> (INT_MIN <= z <= INT_MAX)%Z.
Proof.
  unfold in_int. rewrite andb_true_iff, !Z.leb_le. reflexivity.
Qed.

Lemma Qtrunc_inject (z : Z) : Qtrunc (inject_Z z) = z.
Proof. unfold Qtrunc. simpl. apply Z.quot_1_r. Qed.

Lemma to_int_of_int (z : Z) :
  (INT_MIN <= z <= INT_MAX)%Z -> to_int (of_int z) = Some z.
Proof.
  intros H. unfold to_int, of_int. rewrite Qtrunc_inject.
  apply in_int_iff in H. rewrite H. reflexivity.
Qed.

Lemma ddiv_finite (a b : Q) : 0 < b -> ddiv (Finite a) (Finite b) = Finite (a / b).
Proof.
  intros Hb. unfold ddiv. destruct (Qeq_bool b 0) eqn:E; [| reflexivity].
  apply Qeq_bool_eq in E. rewrite E in Hb. discriminate Hb.
Qed.

Lemma dceil_log10_pos (q : Q) :
  0 < q -> dceil_log10 (Finite q) = of_int (ceil_log10 q).
Proof.
  intros Hq. unfold dceil_log10. destruct (Qlt_le_dec 0 q) as [_|Hle].
  - reflexivity.
  - exfalso. exact (Qlt_not_le _ _ Hq Hle).
Qed.

(** Case analysis on an integer variable known to lie in a short
    interval starting at the literal [lo]. *)
Ltac enum_int a lo n tac :=
  lazymatch n with
  | O => exfalso; lia
  | S ?n' =>
      destruct (Z.eq_dec a lo) as [->|?];
      [ tac
      | let lo' := eval compute in (lo + 1)%Z in enum_int a lo' n' tac ]
  end.

Lemma to_int_pow10 (a : Z) :
  (-5 <= a <= 9)%Z -> to_int (pow 10 a) = Some (10 ^ a)%Z.
Proof.
  intros H. enum_int a (-5)%Z 15%nat ltac:(reflexivity).
Qed.

Lemma pow5_pos (i : Z) : 0 < Qpower 5 i.
Proof. apply Qpower_0_lt. reflexivity. Qed.

Lemma snap_body_in_range (q : Q) (i amax n : Z) :
  In (i, amax) exponent_bounds ->
  Qpower 10 (-6) < q / Qpower 5 i ->
  q / Qpower 5 i <= Qpower 10 amax ->
  snap_body (Finite q) i n = Some (Z.min n (candidate q i)).
Proof.
  intros Hin Hlo Hhi.
  assert (Hpos : 0 < q / Qpower 5 i)
    by (eapply Qlt_trans; [apply pow10_pos | exact Hlo]).
  pose proof (ceil_log10_gt _ _ Hlo) as Ha1.
  pose proof (ceil_log10_le _ _ Hpos Hhi) as Ha2.
  unfold snap_body, candidate, pow.
  rewrite (ddiv_finite q (Qpower 5 i) (pow5_pos i)), dceil_log10_pos by exact Hpos.
  set (a := ceil_log10 (q / Qpower 5 i)) in *. clearbody a.
  assert (Hamax : (amax <= 8)%Z).
  { unfold exponent_bounds in Hin. simpl in Hin.
    repeat (destruct Hin as [Hin|Hin]; [inversion Hin; lia |]). contradiction. }
  rewrite to_int_of_int by (unfold INT_MIN, INT_MAX; lia).
  cbn [bind]. fold (pow 10 a). rewrite to_int_pow10 by lia. cbn [bind].
  unfold exponent_bounds in Hin. simpl in Hin.
  repeat (destruct Hin as [Hin|Hin];
          [ inversion Hin; subst i amax; clear Hin Hlo Hhi Hpos Hamax;
            enum_int a (-5)%Z 14%nat ltac:(first [reflexivity | exfalso; lia]) |]).
  contradiction.
Qed.

Ltac qcmp :=
  first [ reflexivity
        | apply Qle_bool_iff; vm_compute; reflexivity ].

Lemma in_range_pos (d : Q) : in_range d -> 0 < d.
Proof. intros [H _]. eapply Qlt_trans; [| exact H]. reflexivity. Qed.

Lemma in_range_ratio (d : Q) (i amax : Z) :
  in_range d -> In (i, amax) exponent_bounds ->
  Qpower 10 (-6) < d / Qpower 5 i /\ d / Qpower 5 i <= Qpower 10 amax.
Proof.
  intros [Hlo Hhi] Hin. unfold exponent_bounds in Hin. simpl in Hin.
  repeat (destruct Hin as [Hin|Hin];
          [ inversion Hin; subst i amax; clear Hin; split;
            [ apply Qlt_shift_div_l; [reflexivity |];
              eapply Qlt_trans; [| exact Hlo]; reflexivity
            | apply Qle_shift_div_r; [reflexivity |];
              eapply Qle_trans; [exact Hhi |]; qcmp ] |]).
  contradiction.
Qed.

Lemma ceil_log10_in_range (d : Q) :
  in_range d -> (0 <= ceil_log10 d <= 9)%Z.
Proof.
  intros [Hlo Hhi].
  assert (Hpos : 0 < d) by (apply in_range_pos; split; assumption).
  assert (-1 < ceil_log10 d)%Z by (apply ceil_log10_gt; exact Hlo).
  assert (ceil_log10 d <= 9)%Z.
  { apply ceil_log10_le; [exact Hpos |].
    eapply Qle_trans; [exact Hhi |]. qcmp. }
  lia.
Qed.

(** Inside the range the source returns the least of its six candidates
    and writes [tmax / nsteps] to [dt]. *)
Lemma SnapTimeStep_in_range (tmax dtmax : Q) :
  0 < dtmax -> in_range (tmax / dtmax) ->
  SnapTimeStep tmax dtmax =
  Some (nsteps_of (tmax / dtmax),
        ddiv (Finite tmax) (of_int (nsteps_of (tmax / dtmax)))).
Proof.
  intros Hdt Hr. unfold SnapTimeStep.
  rewrite (ddiv_finite tmax dtmax Hdt).
  set (d := tmax / dtmax) in *.
  pose proof (in_range_pos d Hr) as Hd.
  pose proof (ceil_log10_in_range d Hr) as Hk.
  rewrite (dceil_log10_pos d Hd).
  rewrite to_int_of_int by (unfold INT_MIN, INT_MAX; lia).
  cbn [bind]. rewrite to_int_pow10 by lia. cbn [bind snap_for].
  change (1 + 1)%Z with 2%Z. change (2 + 1)%Z with 3%Z.
  change (3 + 1)%Z with 4%Z. change (4 + 1)%Z with 5%Z.
  assert (Hb : forall i amax n, In (i, amax) exponent_bounds ->
                 snap_body (Finite d) i n = Some (Z.min n (candidate d i))).
  { intros i amax n Hin.
    destruct (in_range_ratio d i amax Hr Hin) as [Hlo Hhi].
    exact (snap_body_in_range d i amax n Hin Hlo Hhi). }
  rewrite (Hb 1%Z 8%Z) by (simpl; tauto). cbn [bind].
  rewrite (Hb 2%Z 7%Z) by (simpl; tauto). cbn [bind].
  rewrite (Hb 3%Z 7%Z) by (simpl; tauto). cbn [bind].
  rewrite (Hb 4%Z 6%Z) by (simpl; tauto). cbn [bind].
  rewrite (Hb 5%Z 5%Z) by (simpl; tauto). cbn [bind].
  reflexivity.
Qed.

(** Every candidate is at least the raw ratio. *)
Lemma pow10_le_max (a : Z) : Qpower 10 a <= inject_Z (Z.max 1 (10 ^ a)).
Proof.
  destruct (Z_lt_le_dec a 0) as [Hneg|Hnn].
  - apply Qle_trans with (inject_Z 1).
    + change (inject_Z 1) with (Qpower 10 0). apply pow10_mono. lia.
    + rewrite <- Zle_Qle. lia.
  - rewrite pow10_inject by exact Hnn. rewrite <- Zle_Qle. lia.
Qed.

Lemma pow5_inject (i : Z) : (0 <= i)%Z -> Qpower 5 i == inject_Z (5 ^ i).
Proof. intros H. symmetry. apply (Zpower_Qpower 5 i H). Qed.

Lemma candidate_ge (d : Q) (i : Z) :
  0 < d -> (0 <= i)%Z -> d <= inject_Z (candidate d i).
Proof.
  intros Hd Hi. unfold candidate.
  assert (Hq : 0 < d / Qpower 5 i).
  { apply Qlt_shift_div_l; [apply pow5_pos |]. rewrite Qmult_0_l. exact Hd. }
  destruct (ceil_log10_spec _ Hq) as [_ Hle].
  set (a := ceil_log10 (d / Qpower 5 i)) in *.
  rewrite inject_Z_mult, <- pow5_inject by exact Hi.
  apply Qle_trans with (Qpower 5 i * (d / Qpower 5 i)).
  - rewrite Qmult_div_r; [apply Qle_refl |].
    intros E. pose proof (pow5_pos i) as P. rewrite E in P. discriminate P.
  - apply Qmult_le_l; [apply pow5_pos |].
    eapply Qle_trans; [exact Hle | apply pow10_le_max].
Qed.

Lemma candidate0_ge (d : Q) : in_range d -> d <= inject_Z (candidate0 d).
Proof.
  intros Hr. unfold candidate0.
  pose proof (ceil_log10_in_range d Hr) as Hk.
  destruct (ceil_log10_spec d (in_range_pos d Hr)) as [_ Hle].
  rewrite <- pow10_inject by lia. exact Hle.
Qed.

(** The least candidate is one of the six and below each of them. *)
Lemma nsteps_of_cases (d : Q) :
  let n := nsteps_of d in
  (n = candidate0 d \/ n = candidate d 1 \/ n = candidate d 2 \/
   n = candidate d 3 \/ n = candidate d 4 \/ n = candidate d 5) /\
  (n <= candidate0 d /\ n <= candidate d 1 /\ n <= candidate d 2 /\
   n <= candidate d 3 /\ n <= candidate d 4 /\ n <= candidate d 5)%Z.
Proof.
  unfold nsteps_of. cbn [map fold_left]. lia.
Qed.

Lemma nsteps_of_ge (d : Q) : in_range d -> d <= inject_Z (nsteps_of d).
Proof.
  intros Hr. pose proof (in_range_pos d Hr) as Hd.
  destruct (nsteps_of_cases d) as [Hc _]. cbv zeta in Hc.
  destruct Hc as [E|[E|[E|[E|[E|E]]]]]; rewrite E;
    first [ apply candidate0_ge; exact Hr
          | apply candidate_ge; [exact Hd | lia] ].
Qed.

Lemma nsteps_of_pos (d : Q) : in_range d -> (1 <= nsteps_of d)%Z.
Proof.
  intros Hr. pose proof (nsteps_of_ge d Hr) as Hge.
  pose proof (in_range_pos d Hr) as Hd.
  assert (H0 : inject_Z 0 < inject_Z (nsteps_of d))
    by (eapply Qlt_le_trans; [exact Hd | exact Hge]).
  rewrite <- Zlt_Qlt in H0. lia.
Qed.

(** The rational candidates of the specification are the integer
    candidates of the source. *)
Lemma Qmax_pow10 (a : Z) :
  Qmax 1 (Qpower 10 a) == inject_Z (Z.max 1 (10 ^ a)).
Proof.
  destruct (Z_lt_le_dec a 0) as [Hneg|Hnn].
  - rewrite Q.max_l.
    + rewrite Z.pow_neg_r by exact Hneg. reflexivity.
    + change 1 with (Qpower 10 0). apply pow10_mono. lia.
  - assert (H1 : 1 <= Qpower 10 a)
      by (change 1 with (Qpower 10 0); apply pow10_mono; exact Hnn).
    rewrite Q.max_r by exact H1.
    rewrite pow10_inject by exact Hnn.
    assert (0 < 10 ^ a)%Z by (apply Z.pow_pos_nonneg; lia).
    rewrite Z.max_r by lia. reflexivity.
Qed.

Lemma spec_candidate_eq (d : Q) (i : Z) :
  (0 <= i)%Z ->
  Qpower 5 i * Qmax 1 (Qpower 10 (ceil_log10 (d / Qpower 5 i)))
  == inject_Z (candidate d i).
Proof.
  intros Hi. unfold candidate.
  rewrite inject_Z_mult, <- pow5_inject by exact Hi.
  rewrite Qmax_pow10. reflexivity.
Qed.

Lemma spec_candidates_eq (d : Q) :
  in_range d ->
  Forall2 (fun s z => s == inject_Z z)
          (spec_candidates d)
          (candidate0 d :: map (candidate d) [1; 2; 3; 4; 5]%Z).
Proof.
  intros Hr. pose proof (ceil_log10_in_range d Hr) as Hk.
  unfold spec_candidates. cbn [map].
  constructor; [apply pow10_inject; lia |].
  repeat (constructor; [apply spec_candidate_eq; lia |]).
  constructor.
Qed.

Lemma fold_min_spec (zs : list Z) (z0 : Z) :
  In (fold_left Z.min zs z0) (z0 :: zs) /\
  forall z, In z (z0 :: zs) -> (fold_left Z.min zs z0 <= z)%Z.
Proof.
  revert z0. induction zs as [|z1 zs IH]; intros z0.
  - simpl. split; [left; reflexivity |]. intros z [<-|[]]. lia.
  - cbn [fold_left]. destruct (IH (Z.min z0 z1)) as [Hin Hle]. split.
    + destruct Hin as [E|Hin].
      * destruct (Z.min_spec z0 z1) as [[_ E']|[_ E']]; rewrite <- E, E'.
        -- left; reflexivity.
        -- right; left; reflexivity.
      * right; right; exact Hin.
    + intros z [<-|[<-|Hz]].
      * specialize (Hle (Z.min z0 z1) (or_introl eq_refl)). lia.
      * specialize (Hle (Z.min z0 z1) (or_introl eq_refl)). lia.
      * apply Hle. right; exact Hz.
Qed.

Lemma Forall2_In_r {A B : Type} (R : A -> B -> Prop) (l : list A) (l' : list B) :
  Forall2 R l l' -> forall b, In b l' -> exists a, In a l /\ R a b.
Proof.
  induction 1 as [|a b l l' Hab _ IH]; intros b0 Hb0.
  - destruct Hb0.
  - destruct Hb0 as [<-|Hb0].
    + exists a. split; [left; reflexivity | exact Hab].
    + destruct (IH b0 Hb0) as (a0 & Ha0 & HR).
      exists a0. split; [right; exact Ha0 | exact HR].
Qed.

Lemma Forall2_In_l {A B : Type} (R : A -> B -> Prop) (l : list A) (l' : list B) :
  Forall2 R l l' -> forall a, In a l -> exists b, In b l' /\ R a b.
Proof.
  induction 1 as [|a b l l' Hab _ IH]; intros a0 Ha0.
  - destruct Ha0.
  - destruct Ha0 as [<-|Ha0].
    + exists b. split; [left; reflexivity | exact Hab].
    + destruct (IH a0 Ha0) as (b0 & Hb0 & HR).
      exists b0. split; [right; exact Hb0 | exact HR].
Qed.

(** Inside the range, the least integer candidate is the smallest
    element of the specification's candidate set that is at least the
    raw ratio. *)
Lemma nsteps_of_smallest (d : Q) :
  in_range d ->
  exists c, smallest_geq d (spec_candidates d) c /\ c == inject_Z (nsteps_of d).
Proof.
  intros Hr. pose proof (spec_candidates_eq d Hr) as HF.
  destruct (fold_min_spec (map (candidate d) [1; 2; 3; 4; 5]%Z) (candidate0 d))
    as [Hin Hmin].
  fold (nsteps_of d) in Hin, Hmin.
  destruct (Forall2_In_r _ _ _ HF _ Hin) as (c & Hc & Ec).
  exists c. split; [| exact Ec]. split; [exact Hc |]. split.
  - rewrite Ec. apply nsteps_of_ge. exact Hr.
  - intros c' Hc' _.
    destruct (Forall2_In_l _ _ _ HF _ Hc') as (z & Hz & Ez).
    rewrite Ec, Ez, <- Zle_Qle. apply Hmin. exact Hz.
Qed.

Lemma smallest_geq_threshold (r r' : Q) (l : list Q) (c : Q) :
  smallest_geq r l c -> r <= r' -> r' <= c -> smallest_geq r' l c.
Proof.
  intros (Hin & Hge & Hmin) Hrr Hrc. split; [exact Hin |]. split; [exact Hrc |].
  intros c' Hc' Hr'. apply Hmin; [exact Hc' |].
  eapply Qle_trans; eassumption.
Qed.

(** The step size written to [dt], inside the range. *)
Lemma dt_in_range (tmax : Q) (n : Z) :
  (1 <= n)%Z -> ddiv (Finite tmax) (of_int n) = Finite (tmax / inject_Z n).
Proof.
  intros Hn. unfold of_int. apply ddiv_finite.
  change 0 with (inject_Z 0). rewrite <- Zlt_Qlt. lia.
Qed.

(** *** The claims about the quantizer

    The claims about single inputs are settled here, on exact
    rationals: at their inputs no quotient and no logarithm is near a
    rounding boundary.  The claims about every input are settled in
    [RoundedFacts], with the rounding of binary64. *)

(** C4: the claim (a step count of at least one, no division by zero,
    a positive real step size) is violated by the source at [tmax = 1],
    [dtmax = 50]: the power-of-ten candidate [pow(10, -1)] truncates to
    the [int] [0], the returned step count is [0] and [dt] is
    [1.0 / 0], plus infinity. *)
Theorem SnapTimeStep_zero_step_count :
  SnapTimeStep 1 50 = Some (0%Z, Inf false) /\
  to_int (pow 10 (ceil_log10 (1 / 50))) = Some 0%Z /\
  snap_body (Finite (1 / 50)) 1 0 = Some 0%Z.
Proof. vm_compute. repeat split. Qed.


End QuantizerFacts.

(** ** Properties of the time loop *)

Module DriverFacts.
Import Numeric Driver.

Local Open Scope Z_scope.

Section TimeLoopFacts.

Variable World : Type.
Variable Step : double -> World -> World.
Variables (max_its myid : Z) (visit visualization : bool).

Local Abbreviation loop_body := (loop_body World Step myid visit visualization).
Local Abbreviation time_loop := (time_loop World Step myid visit visualization).
Local Abbreviation drive := (drive World Step max_its myid visit visualization).

Lemma loop_body_step_calls (dt : double) (it : Z) (st : state World) :
  step_calls (trace (loop_body dt it st)) = S (step_calls (trace st)).
Proof.
  unfold Driver.loop_body.
  destruct (myid =? 0), visit, visualization; reflexivity.
Qed.

Lemma loop_body_diagnostics (dt : double) (it : Z) (st : state World) :
  diagnostics (trace (loop_body dt it st)) = diagnostics (trace st).
Proof.
  unfold Driver.loop_body.
  destruct (myid =? 0), visit, visualization; reflexivity.
Qed.

(** The loop entered at [it] calls [Step] once for each index from [it]
    up to [nsteps], and never emits the diagnostic. *)
Lemma time_loop_step_calls (dt : double) (nsteps it : Z) (st : state World) :
  step_calls (trace (time_loop dt nsteps it st))
  = (Z.to_nat (nsteps + 1 - it) + step_calls (trace st))%nat.
Proof.
  funelim (time_loop dt nsteps it st).
  - match goal with IH : step_calls _ = _ |- _ => rewrite IH end.
    rewrite loop_body_step_calls. lia.
  - lia.
Qed.

Lemma time_loop_diagnostics (dt : double) (nsteps it : Z) (st : state World) :
  diagnostics (trace (time_loop dt nsteps it st)) = diagnostics (trace st).
Proof.
  funelim (time_loop dt nsteps it st).
  - match goal with IH : diagnostics _ = _ |- _ => rewrite IH end.
    apply loop_body_diagnostics.
  - reflexivity.
Qed.

(** The state in which the time loop is entered has the step calls of
    the initial state, and one more diagnostic exactly when the cap
    applied. *)
Lemma drive_unfold (nsteps : Z) (dt : double) (st0 : state World) :
  exists n st,
    drive nsteps dt st0 = (0, emit World MPI_Finalize (time_loop dt n 1 st)) /\
    n = (if nsteps >? max_its then max_its else nsteps) /\
    step_calls (trace st) = step_calls (trace st0) /\
    diagnostics (trace st)
    = ((if nsteps >? max_its then 1 else 0) + diagnostics (trace st0))%nat /\
    In (CoutInt "Number of Time Steps:  " n) (trace st).
Proof.
  unfold Driver.drive, cap_steps.
  destruct (nsteps >? max_its); eexists; eexists;
    (split; [reflexivity |]); (split; [reflexivity |]);
    destruct visit, visualization; cbn; repeat split; tauto.
Qed.

(** C6: the driver calls the integrator's [Step] exactly
    [min(nsteps, max_its)] times (no call when that minimum is not
    positive) and returns the exit status [0]; when [nsteps] exceeds
    [max_its] it prints the diagnostic once, continues with [nsteps]
    replaced by [max_its], and takes fewer steps than the requested
    duration needs; otherwise it prints no diagnostic and takes
    [nsteps] steps. *)
Theorem drive_step_calls (nsteps : Z) (dt : double) (st0 : state World) :
  let r := drive nsteps dt st0 in
  let calls := (step_calls (trace (snd r)) - step_calls (trace st0))%nat in
  let shown := (diagnostics (trace (snd r)) - diagnostics (trace st0))%nat in
  calls = Z.to_nat (Z.min nsteps max_its) /\
  fst r = 0 /\
  (max_its < nsteps ->
   shown = 1%nat /\ calls = Z.to_nat max_its /\
   In (CoutInt "Number of Time Steps:  " max_its) (trace (snd r)) /\
   (0 < nsteps -> Z.of_nat calls < nsteps)) /\
  (nsteps <= max_its -> shown = 0%nat /\ calls = Z.to_nat nsteps).
Proof.
  intros r calls shown.
  destruct (drive_unfold nsteps dt st0) as (n & st & Er & En & Hc & Hd & Hp).
  assert (Hcalls : calls = Z.to_nat n).
  { unfold calls, r. rewrite Er. cbn [snd]. unfold emit. cbn [trace].
    unfold step_calls at 1. cbn [filter is_step_call].
    fold (step_calls (trace (time_loop dt n 1 st))).
    rewrite time_loop_step_calls, Hc. lia. }
  assert (Hshown : shown = if nsteps >? max_its then 1%nat else 0%nat).
  { unfold shown, r. rewrite Er. cbn [snd]. unfold emit. cbn [trace].
    unfold diagnostics at 1. cbn [filter is_too_large].
    fold (diagnostics (trace (time_loop dt n 1 st))).
    rewrite time_loop_diagnostics, Hd. destruct (nsteps >? max_its); lia. }
  assert (Hprint : In (CoutInt "Number of Time Steps:  " n) (trace (snd r))).
  { unfold r. rewrite Er. cbn [snd]. unfold emit. cbn [trace]. right.
    clear - Hp. revert Hp. generalize 1 at 1. intros it.
    funelim (time_loop dt n it st); intros Hp.
    - match goal with IH : _ -> In _ _ |- _ => apply IH end.
      unfold Driver.loop_body.
      destruct (myid =? 0), visit, visualization; cbn; tauto.
    - exact Hp. }
  rewrite Hcalls, Hshown. unfold r at 1. rewrite Er. cbn [fst].
  destruct (Z.gtb_spec nsteps max_its) as [Hgt|Hle]; subst n.
  - split; [f_equal; lia |]. split; [reflexivity |]. split; [| intros; lia].
    intros _. repeat split; try lia. exact Hprint.
  - split; [f_equal; lia |]. split; [reflexivity |]. split; [intros; lia |].
    intros _. split; reflexivity.
Qed.

End TimeLoopFacts.

(** An instance: the default cap of 100 steps against the 10000 steps
    of the 40 ns example, with a step counter as the solver state. *)
Lemma drive_step_calls_witness :
  let st0 := {| world := 0%nat; trace := [] |} in
  let r := drive nat (fun _ => S) 100 0 true true 10000 (Finite (4 # 1000)) st0 in
  let calls := (step_calls (trace (snd r)) - step_calls (trace st0))%nat in
  let shown := (diagnostics (trace (snd r)) - diagnostics (trace st0))%nat in
  calls = Z.to_nat (Z.min 10000 100) /\
  fst r = 0 /\
  (100 < 10000 ->
   shown = 1%nat /\ calls = Z.to_nat 100 /\
   In (CoutInt "Number of Time Steps:  " 100) (trace (snd r)) /\
   (0 < 10000 -> Z.of_nat calls < 10000)) /\
  (10000 <= 100 -> shown = 0%nat /\ calls = Z.to_nat 10000).
Proof.
  exact (drive_step_calls nat (fun _ => S) 100 0 true true
           10000 (Finite (4 # 1000)) {| world := 0%nat; trace := [] |}).
Defined.

End DriverFacts.

(** ** Properties of the abstract matrices *)

Module OperatorAlgebraFacts.
Import OperatorAlgebra.

Local Open Scope Z_scope.

(** On success the vectors had the operator's dimensions and the
    result has one entry per row: nothing is truncated or padded. *)
Lemma apply_success {A : Type} `{OperatorVariant A} (a : A) (x y y' : Vector) :
  apply a x y = inr y' ->
  Z.of_nat (List.length x) = width (matrix_operator a) /\
  Z.of_nat (List.length y) = height (matrix_operator a) /\
  y' = product a x /\
  List.length y' = List.length y.
Proof.
  unfold apply.
  destruct (Z.eqb_spec (Z.of_nat (List.length x)) (width (matrix_operator a))) as [Ex|Nx];
    [| discriminate].
  destruct (Z.eqb_spec (Z.of_nat (List.length y)) (height (matrix_operator a))) as [Ey|Ny];
    [| discriminate].
  cbn. intros E. inversion E; subst y'.
  repeat split; try assumption.
  pose proof (product_length a x) as L. lia.
Qed.

(** C7: for every operator variant, [apply] with an input vector whose
    length differs from the operator's width, or an output vector whose
    length differs from its height, fails with [DimensionMismatch]; it
    produces no vector, so it neither truncates nor pads. *)
Theorem apply_dimension_mismatch {A : Type} `{OperatorVariant A}
  (a : A) (x y : Vector) :
  Z.of_nat (List.length x) <> width (matrix_operator a) \/
  Z.of_nat (List.length y) <> height (matrix_operator a) ->
  apply a x y = inl DimensionMismatch /\
  forall y', apply a x y <> inr y'.
Proof.
  intros Hmis.
  assert (E : apply a x y = inl DimensionMismatch).
  { unfold apply.
    destruct (Z.eqb_spec (Z.of_nat (List.length x)) (width (matrix_operator a))) as [Ex|Nx];
      [| reflexivity].
    destruct (Z.eqb_spec (Z.of_nat (List.length y)) (height (matrix_operator a))) as [Ey|Ny];
      [| reflexivity].
    destruct Hmis; contradiction. }
  split; [exact E |]. intros y' E'. rewrite E in E'. discriminate E'.
Qed.

Lemma apply_dimension_mismatch_witness :
  (apply dense23 [1; 1]%Q [0; 0]%Q = inl DimensionMismatch /\
   forall y', apply dense23 [1; 1]%Q [0; 0]%Q <> inr y') /\
  (apply sparse23 [1; 1; 1]%Q [0; 0; 0]%Q = inl DimensionMismatch /\
   forall y', apply sparse23 [1; 1; 1]%Q [0; 0; 0]%Q <> inr y').
Proof.
  split.
  - apply (apply_dimension_mismatch dense23 [1; 1]%Q [0; 0]%Q).
    left. simpl. lia.
  - apply (apply_dimension_mismatch sparse23 [1; 1; 1]%Q [0; 0; 0]%Q).
    right. simpl. lia.
Defined.

(** C8: a [MatrixInverse] constructed from a matrix has the height and
    the width of that matrix, and nothing else of the matrix enters it:
    it is determined by the two dimensions, so two sources with equal
    dimensions (of whatever matrix type and entries) give the same
    inverse record. *)
Theorem MatrixInverse_dimensions {M : Type} `{Matrix M} (mat : M) :
  inverse_height (MatrixInverse_of mat) = height (matrix_operator mat) /\
  inverse_width (MatrixInverse_of mat) = width (matrix_operator mat) /\
  MatrixInverse_of mat
  = {| inverse_solver :=
         Solver_hw (height (matrix_operator mat)) (width (matrix_operator mat)) |} /\
  forall (M' : Type) (inst : Matrix M') (mat' : M'),
    height (matrix_operator mat') = height (matrix_operator mat) ->
    width (matrix_operator mat') = width (matrix_operator mat) ->
    MatrixInverse_of mat' = MatrixInverse_of mat.
Proof.
  repeat split.
  intros M' inst mat' Hh Hw. unfold MatrixInverse_of. rewrite Hh, Hw. reflexivity.
Qed.

End OperatorAlgebraFacts.

(** ** Properties of the current sources *)

Module SourcesFacts.
Import Sources.

Local Open Scope R_scope.

Lemma fill_repeat (v : Vector) (c : R) : fill v c = repeat c (List.length v).
Proof.
  induction v as [|y v IH]; [reflexivity |].
  cbn. f_equal. exact IH.
Qed.

Lemma SetSize_length (v : Vector) (n : nat) : List.length (SetSize v n) = n.
Proof.
  unfold SetSize, alloc. rewrite length_app, length_firstn, repeat_length. lia.
Qed.

(** Resizing and zeroing forgets the vector passed in. *)
Lemma fill_SetSize (v : Vector) (n : nat) : fill (SetSize v n) 0 = repeat 0 n.
Proof. rewrite fill_repeat, SetSize_length. reflexivity. Qed.

Lemma get_nth (v : Vector) (i : nat) :
  (i < List.length v)%nat -> get v i = ret (nth i v 0).
Proof.
  intros Hi. unfold get. rewrite (nth_error_nth' v 0 Hi). reflexivity.
Qed.

Lemma set_spec (v : Vector) (i : nat) (c : R) :
  (i < List.length v)%nat ->
  exists v', set v i c = ret v' /\
             List.length v' = List.length v /\
             nth i v' 0 = c /\
             forall k, k <> i -> nth k v' 0 = nth k v 0.
Proof.
  revert i. induction v as [|y v IH]; intros i Hi; [simpl in Hi; lia |].
  destruct i as [|i].
  - exists (c :: v). repeat split. intros [|k] Hk; [congruence | reflexivity].
  - destruct (IH i) as (v' & E & Hlen & Hnth & Hother); [simpl in Hi; lia |].
    exists (y :: v'). cbn [set]. rewrite E. cbn.
    repeat split; [lia | exact Hnth |].
    intros [|k] Hk; [reflexivity | apply Hother; congruence].
Qed.

Lemma set_length (v : Vector) (i : nat) (c : R) (v' : Vector) :
  set v i c = ret v' -> List.length v' = List.length v.
Proof.
  revert i v'. induction v as [|y v IH]; intros i v' E; [discriminate E |].
  destruct i as [|i]; cbn [set] in E.
  - inversion E. reflexivity.
  - destruct (set v i c) as [f|v''] eqn:E'; [discriminate E |].
    inversion E. cbn. f_equal. exact (IH _ _ E').
Qed.

(** The axis loop: it succeeds when [params] holds both end points,
    writes every entry of [a] at or after [i], and keeps the lengths. *)
Lemma axis_for_spec (params : Vector) (n : nat) :
  (n + n <= List.length params)%nat ->
  forall (count i : nat) (xu a : Vector),
    (i + count = n)%nat -> List.length xu = n -> List.length a = n ->
    exists xu' a',
      axis_for params n count i xu a = ret (xu', a') /\
      List.length xu' = n /\ List.length a' = n /\
      (forall k, (k < i)%nat -> nth k a' 0 = nth k a 0) /\
      (forall k, (i <= k < n)%nat ->
                 nth k a' 0 = nth (n + k) params 0 - nth k params 0).
Proof.
  intros Hp. induction count as [|count IH]; intros i xu a Hi Hxu Ha.
  - exists xu, a. cbn. repeat split; auto. intros k Hk. lia.
  - cbn [axis_for].
    rewrite (get_nth xu i) by lia. cbn [bind ret].
    rewrite (get_nth params i) by lia. cbn [bind ret].
    destruct (set_spec xu i (nth i xu 0 - nth i params 0)) as (xu1 & E1 & L1 & _); [lia |].
    rewrite E1. cbn [bind ret].
    rewrite (get_nth params (n + i)) by lia. cbn [bind ret].
    destruct (set_spec a i (nth (n + i) params 0 - nth i params 0))
      as (a1 & E2 & L2 & N2 & O2); [lia |].
    rewrite E2. cbn [bind ret].
    destruct (IH (S i) xu1 a1) as (xu' & a' & E & Lx & La & Hlow & Hhigh); try lia.
    exists xu', a'. split; [exact E |]. repeat split; auto.
    + intros k Hk. rewrite Hlow by lia. apply O2. lia.
    + intros k Hk. destruct (Nat.eq_dec k i) as [->|Hne].
      * rewrite Hlow by lia. exact N2.
      * apply Hhigh. lia.
Qed.

Lemma axis_for_length (params : Vector) (n : nat) :
  forall (count i : nat) (xu a xu' a' : Vector),
    axis_for params n count i xu a = ret (xu', a') ->
    List.length xu' = List.length xu /\ List.length a' = List.length a.
Proof.
  induction count as [|count IH]; intros i xu a xu' a' E.
  - inversion E. split; reflexivity.
  - cbn [axis_for] in E.
    destruct (get xu i) as [?|xui]; [discriminate E |]. cbn [bind] in E.
    destruct (get params i) as [?|pi]; [discriminate E |]. cbn [bind] in E.
    destruct (set xu i (xui - pi)) as [?|xu1] eqn:E1; [discriminate E |].
    cbn [bind] in E.
    destruct (get params (n + i)) as [?|pni]; [discriminate E |]. cbn [bind] in E.
    destruct (set a i (pni - pi)) as [?|a1] eqn:E2; [discriminate E |].
    cbn [bind] in E.
    destruct (IH _ _ _ _ _ E) as [Lx La].
    rewrite Lx, La, (set_length _ _ _ _ E1), (set_length _ _ _ _ E2).
    split; reflexivity.
Qed.

Lemma dot_zeros (n : nat) : dot (repeat 0 n) (repeat 0 n) = 0.
Proof.
  unfold dot. induction n as [|n IH]; [reflexivity |].
  cbn. rewrite IH. lra.
Qed.

Lemma Norml2_zeros (n : nat) : Norml2 (repeat 0 n) = 0.
Proof. unfold Norml2. rewrite dot_zeros. apply sqrt_0. Qed.

(** With coinciding end points the axis vector is zero. *)
Lemma axis_for_degenerate (params x : Vector) :
  let n := Size x in
  (n + n <= Size params)%nat ->
  (forall i, (i < n)%nat -> nth (n + i) params 0 = nth i params 0) ->
  exists xu, axis_for params n n 0 x (alloc n) = ret (xu, repeat 0 n).
Proof.
  intros n Hp Hc.
  destruct (axis_for_spec params n Hp n 0%nat x (alloc n))
    as (xu & a & E & _ & La & _ & Ha); try reflexivity.
  { unfold alloc. apply repeat_length. }
  exists xu. rewrite E. do 2 f_equal.
  apply (nth_ext _ _ 0 0); [rewrite repeat_length; exact La |].
  intros k Hk. rewrite La in Hk. rewrite nth_repeat, Ha by lia.
  rewrite Hc by lia. lra.
Qed.

Lemma bind_inr {A B : Type} (r : result A) (k : A -> result B) (b : B) :
  bind r k = inr b -> exists a, r = inr a /\ k a = inr b.
Proof.
  destruct r as [f|a]; cbn; intros E; [discriminate E |].
  exists a. split; [reflexivity | exact E].
Qed.

Lemma Add_length (v : Vector) (a : R) (w : Vector) :
  List.length (Add v a w) = Nat.min (List.length v) (List.length w).
Proof. unfold Add. rewrite length_map, length_combine. reflexivity. Qed.

Lemma scale_length (v : Vector) (c : R) : List.length (scale v c) = List.length v.
Proof. unfold scale. apply length_map. Qed.

Lemma vdiv_length (v : Vector) (c : R) (v' : Vector) :
  vdiv v c = ret v' -> List.length v' = List.length v.
Proof.
  unfold vdiv. destruct (Req_dec_T c 0); intros E; [discriminate E |].
  inversion E. apply length_map.
Qed.

Lemma vadd_length (v w : Vector) :
  List.length (vadd v w) = Nat.min (List.length v) (List.length w).
Proof. unfold vadd. rewrite length_map, length_combine. reflexivity. Qed.

Lemma vadd_nth (v w : Vector) (k : nat) :
  (k < List.length v)%nat -> (k < List.length w)%nat ->
  nth k (vadd v w) 0 = nth k v 0 + nth k w 0.
Proof.
  revert w k. induction v as [|a v IH]; intros [|b w] k Hv Hw;
    simpl in Hv, Hw; try lia.
  destruct k as [|k]; [reflexivity |].
  cbn. apply IH; lia.
Qed.

Tactic Notation "unbind" hyp(E) "as" ident(x) ident(H) :=
  apply bind_inr in E; destruct E as (x & H & E).

Section SourcesFacts.

Variable MFEM_DEBUG : bool.
Variables vp_params_ cr_params_ : Vector.

Local Abbreviation voltaic_pile := (voltaic_pile vp_params_).
Local Abbreviation current_ring := (current_ring MFEM_DEBUG cr_params_).
Local Abbreviation current_src := (current_src MFEM_DEBUG vp_params_ cr_params_).

(** Both sources overwrite their output argument. *)
Lemma voltaic_pile_output (x : Vector) (t : R) (p p' : Vector) :
  voltaic_pile x t p = voltaic_pile x t p'.
Proof. unfold Sources.voltaic_pile. rewrite !fill_SetSize. reflexivity. Qed.

Lemma current_ring_output (x : Vector) (t : R) (j j' : Vector) :
  current_ring x t j = current_ring x t j'.
Proof. unfold Sources.current_ring. rewrite !fill_SetSize. reflexivity. Qed.

(** A source that succeeds returns a vector as long as the point. *)
Lemma voltaic_pile_length (x : Vector) (t : R) (p q : Vector) :
  voltaic_pile x t p = ret q -> Size q = Size x.
Proof.
  unfold Sources.voltaic_pile, Size. rewrite fill_SetSize. intros E.
  apply bind_inr in E. destruct E as ([xu a] & Eax & E).
  destruct (axis_for_length _ _ _ _ _ _ _ _ Eax) as [_ La].
  unfold alloc in La. rewrite repeat_length in La.
  destruct (Req_dec_T (Norml2 a) 0) as [_|_].
  - inversion E. apply repeat_length.
  - unbind E as r Hr. unbind E as xu' Hxu. unbind E as p' Hp. unbind E as f Hf.
    inversion E. rewrite scale_length.
    destruct (Rleb 0 (dot xu a) && Rleb (dot xu a) (Norml2 a * Norml2 a)
              && Rleb (Norml2 xu') r).
    + unbind Hp as pol Hpol. unbind Hp as c Hc. inversion Hp.
      rewrite Add_length, repeat_length, La. apply Nat.min_id.
    + inversion Hp. apply repeat_length.
Qed.

Lemma current_ring_length (x : Vector) (t : R) (j q : Vector) :
  current_ring x t j = ret q -> Size q = Size x.
Proof.
  unfold Sources.current_ring, Size. rewrite fill_SetSize. intros E.
  unbind E as u Hu. clear Hu u. cbv zeta in E.
  apply bind_inr in E. destruct E as ([xu a] & Eax & E).
  destruct (axis_for_length _ _ _ _ _ _ _ _ Eax) as [_ La].
  unfold alloc in La. rewrite repeat_length in La.
  destruct (Req_dec_T (Norml2 a) 0) as [_|_].
  - inversion E. apply repeat_length.
  - unbind E as ra Hra. unbind E as rb Hrb.
    destruct (if Rltb rb ra then (rb, ra) else (ra, rb)) as [ra' rb'].
    unbind E as xu' Hxu. unbind E as j' Hj. unbind E as f Hf.
    inversion E. rewrite scale_length.
    match type of Hj with (if ?c then _ else _) = _ => destruct c end.
    + unbind Hj as a1 H1. unbind Hj as xu2 H2. unbind Hj as a2 H3. unbind Hj as xu1 H4.
      unbind Hj as ju0 H5. unbind Hj as xu0 H6. unbind Hj as a0 H7.
      unbind Hj as ju1 H8. unbind Hj as ju2 H9. unbind Hj as u H10. unbind Hj as ju3 H11.
      unbind Hj as cur H12. unbind Hj as c H13. inversion Hj.
      rewrite Add_length, repeat_length.
      rewrite (vdiv_length _ _ _ H11), (set_length _ _ _ _ H9),
        (set_length _ _ _ _ H8), (set_length _ _ _ _ H5).
      unfold alloc. rewrite repeat_length. apply Nat.min_id.
    + inversion Hj. apply repeat_length.
Qed.

Lemma bind_ret_r {A : Type} (r : result A) : bind r (fun a => ret a) = r.
Proof. destruct r; reflexivity. Qed.

Lemma Size_nonempty (v : Vector) : v <> [] -> Size v <> 0%nat.
Proof. intros H E. apply H. apply length_zero_iff_nil. exact E. Qed.

(** C9: [current_src] is the sum of the two contributions (entry by
    entry, on vectors as long as the point) when both parameter vectors
    are non-empty, whatever the output vector held before; it is the one
    configured contribution when exactly one parameter vector is
    non-empty; and it returns the output vector as it was passed in when
    both are empty. *)
Theorem current_src_cases (x : Vector) (t : R) (j : Vector) :
  (vp_params_ <> [] -> cr_params_ <> [] ->
   (forall j1 j2,
      current_src x t j
      = (p <- voltaic_pile x t j1 ;;
         c <- current_ring x t j2 ;;
         ret (vadd p c))) /\
   (forall p c,
      voltaic_pile x t j = ret p -> current_ring x t j = ret c ->
      current_src x t j = ret (vadd p c) /\
      Size (vadd p c) = Size x /\
      forall k, (k < Size x)%nat -> nth k (vadd p c) 0 = nth k p 0 + nth k c 0)) /\
  (vp_params_ <> [] -> cr_params_ = [] ->
   current_src x t j = voltaic_pile x t j) /\
  (vp_params_ = [] -> cr_params_ <> [] ->
   current_src x t j = current_ring x t j) /\
  (vp_params_ = [] -> cr_params_ = [] ->
   current_src x t j = ret j).
Proof.
  assert (Hboth : vp_params_ <> [] -> cr_params_ <> [] ->
                  forall j1 j2,
                    current_src x t j
                    = (p <- voltaic_pile x t j1 ;;
                       c <- current_ring x t j2 ;;
                       ret (vadd p c))).
  { intros Hvp Hcr j1 j2. unfold Sources.current_src.
    apply Size_nonempty in Hvp. apply Size_nonempty in Hcr.
    destruct (Nat.eqb_spec (Size vp_params_ * Size cr_params_) 0) as [E|_];
      [apply Nat.eq_mul_0 in E; tauto |].
    rewrite (voltaic_pile_output x t j j1).
    destruct (voltaic_pile x t j1) as [f|p]; [reflexivity |]. cbn [bind].
    rewrite (current_ring_output x t (alloc (Size x)) j2). reflexivity. }
  split; [| split; [| split]].
  - intros Hvp Hcr. split; [exact (Hboth Hvp Hcr) |].
    intros p c Ep Ec. rewrite (Hboth Hvp Hcr j j), Ep, Ec. cbn [bind].
    split; [reflexivity |].
    pose proof (voltaic_pile_length _ _ _ _ Ep) as Lp.
    pose proof (current_ring_length _ _ _ _ Ec) as Lc.
    unfold Size in *. split.
    + rewrite vadd_length, Lp, Lc. apply Nat.min_id.
    + intros k Hk. apply vadd_nth; lia.
  - intros Hvp Hcr. unfold Sources.current_src.
    apply Size_nonempty in Hvp. rewrite Hcr.
    change (Size []) with 0%nat. rewrite Nat.mul_0_r.
    change (Nat.eqb 0 0) with true. change (Nat.ltb 0 0) with false. cbv iota.
    destruct (Nat.ltb_spec 0 (Size vp_params_)) as [_|H0]; [| lia].
    apply bind_ret_r.
  - intros Hvp Hcr. unfold Sources.current_src.
    apply Size_nonempty in Hcr. rewrite Hvp.
    change (Size []) with 0%nat.
    change (0 * Size cr_params_)%nat with 0%nat.
    change (Nat.eqb 0 0) with true. change (Nat.ltb 0 0) with false. cbv iota.
    cbn [bind ret].
    destruct (Nat.ltb_spec 0 (Size cr_params_)) as [_|H0]; [reflexivity | lia].
  - intros Hvp Hcr. unfold Sources.current_src. rewrite Hvp, Hcr. reflexivity.
Qed.

(** C10 (amended): when the two configured axis end points coincide,
    the axis vector is zero, [h == 0.0] holds, and [voltaic_pile]
    returns the zero vector of the length of [x] from its early return;
    [current_ring] does the same when [x] has three coordinates or the
    build has no [MFEM_DEBUG]: nothing after the return is evaluated,
    neither the parameters behind the end points are read nor a
    division performed.  In a build with [MFEM_DEBUG] and for an [x]
    that does not have three coordinates, [current_ring] stops at its
    assertion before it sets the output. *)
Theorem sources_zero_on_degenerate_axis (x : Vector) (t : R) (p j : Vector) :
  let n := Size x in
  ((n + n <= Size vp_params_)%nat ->
   (forall i, (i < n)%nat -> nth (n + i) vp_params_ 0 = nth i vp_params_ 0) ->
   voltaic_pile x t p = ret (repeat 0 n)) /\
  ((n + n <= Size cr_params_)%nat ->
   (forall i, (i < n)%nat -> nth (n + i) cr_params_ 0 = nth i cr_params_ 0) ->
   MFEM_DEBUG = false \/ n = 3%nat ->
   current_ring x t j = ret (repeat 0 n)) /\
  (MFEM_DEBUG = true -> n <> 3%nat ->
   current_ring x t j
   = fail (AssertionFailed "current_ring source requires 3D space.")).
Proof.
  intros n. split; [| split].
  - intros Hvl Hvc.
    unfold Sources.voltaic_pile. rewrite fill_SetSize. fold n.
    destruct (axis_for_degenerate vp_params_ x Hvl Hvc) as (xu & E).
    fold n in E. rewrite E. cbn [bind ret]. cbv beta iota.
    rewrite Norml2_zeros.
    destruct (Req_dec_T 0 0) as [_|Hne]; [reflexivity | contradiction].
  - intros Hcl Hcc Hassert.
    unfold Sources.current_ring. rewrite fill_SetSize. fold n.
    assert (Ha : MFEM_ASSERT MFEM_DEBUG (Nat.eqb n 3)
                   "current_ring source requires 3D space." = ret tt).
    { unfold MFEM_ASSERT. destruct Hassert as [->| ->]; [reflexivity |].
      cbn. rewrite andb_false_r. reflexivity. }
    rewrite Ha. cbn [bind ret].
    destruct (axis_for_degenerate cr_params_ x Hcl Hcc) as (xu & E).
    fold n in E. rewrite E. cbn [bind ret]. cbv beta iota.
    rewrite Norml2_zeros.
    destruct (Req_dec_T 0 0) as [_|Hne]; [reflexivity | contradiction].
  - intros Hdbg Hn3. unfold Sources.current_ring, MFEM_ASSERT. fold n.
    rewrite Hdbg. apply Nat.eqb_neq in Hn3. rewrite Hn3. reflexivity.
Qed.

End SourcesFacts.

Lemma current_src_cases_witness :
  let x := [5; 6; 7] in
  let vp := [1; 2; 3; 1; 2; 3] in
  let cr := [0; 0; 1; 0; 0; 1] in
  (forall j1 j2,
     current_src true vp cr x 2 [9]
     = (p <- voltaic_pile vp x 2 j1 ;;
        c <- current_ring true cr x 2 j2 ;;
        ret (vadd p c))) /\
  current_src true vp [] x 2 [9] = voltaic_pile vp x 2 [9] /\
  current_src true [] cr x 2 [9] = current_ring true cr x 2 [9] /\
  current_src true [] [] x 2 [9] = ret [9].
Proof.
  intros x vp cr. split; [| split; [| split]].
  - apply (current_src_cases true vp cr x 2 [9]); discriminate.
  - apply (current_src_cases true vp [] x 2 [9]); [discriminate | reflexivity].
  - apply (current_src_cases true [] cr x 2 [9]); [reflexivity | discriminate].
  - apply (current_src_cases true [] [] x 2 [9]); reflexivity.
Defined.

Lemma sources_zero_on_degenerate_axis_witness :
  voltaic_pile [1; 2; 3; 1; 2; 3] [5; 6; 7] 2 [9] = ret (repeat 0 3) /\
  current_ring true [0; 0; 1; 0; 0; 1] [5; 6; 7] 2 [9] = ret (repeat 0 3) /\
  current_ring false [0; 0; 0; 0] [5; 6] 2 [9] = ret (repeat 0 2) /\
  current_ring true [0; 0; 0; 0] [5; 6] 2 [9]
  = fail (AssertionFailed "current_ring source requires 3D space.").
Proof.
  split; [| split; [| split]].
  - apply (sources_zero_on_degenerate_axis true
             [1; 2; 3; 1; 2; 3] [0; 0; 1; 0; 0; 1] [5; 6; 7] 2 [9] [9]).
    + simpl. lia.
    + intros [|[|[|i]]] Hi; [reflexivity | reflexivity | reflexivity |].
      simpl in Hi. lia.
  - apply (sources_zero_on_degenerate_axis true
             [1; 2; 3; 1; 2; 3] [0; 0; 1; 0; 0; 1] [5; 6; 7] 2 [9] [9]).
    + simpl. lia.
    + intros [|[|[|i]]] Hi; [reflexivity | reflexivity | reflexivity |].
      simpl in Hi. lia.
    + right. reflexivity.
  - apply (sources_zero_on_degenerate_axis false [] [0; 0; 0; 0] [5; 6] 2 [9] [9]).
    + simpl. lia.
    + intros [|[|i]] Hi; [reflexivity | reflexivity |].
      simpl in Hi. lia.
    + left. reflexivity.
  - apply (sources_zero_on_degenerate_axis true [] [0; 0; 0; 0] [5; 6] 2 [9] [9]).
    + reflexivity.
    + simpl. lia.
Defined.

(** C10, as stated, fails: in a build with [MFEM_DEBUG] the assertion
    of [current_ring] stops a point with two coordinates before the
    output is zeroed, also when the two end points coincide. *)
Lemma sources_zero_on_degenerate_axis_fails :
  ~ (forall (MFEM_DEBUG : bool) (cr_params_ x : Vector) (t : R) (j : Vector),
       let n := Size x in
       (n + n <= Size cr_params_)%nat ->
       (forall i, (i < n)%nat -> nth (n + i) cr_params_ 0 = nth i cr_params_ 0) ->
       current_ring MFEM_DEBUG cr_params_ x t j = ret (repeat 0 n)) /\
  current_ring true [0; 0; 0; 0] [5; 6] 2 [9]
  = fail (AssertionFailed "current_ring source requires 3D space.").
Proof.
  split; [| reflexivity].
  intros H.
  assert (E : current_ring true [0; 0; 0; 0] [5; 6] 2 [9] = ret (repeat 0 2)).
  { apply (H true [0; 0; 0; 0] [5; 6] 2 [9]).
    - simpl. lia.
    - intros [|[|i]] Hi; [reflexivity | reflexivity |]. simpl in Hi. lia. }
  discriminate E.
Qed.

End SourcesFacts.

(** ** Further properties of the step quantizer *)

Module QuantizerMore.
Import Numeric Quantizer NumericFacts QuantizerFacts Rounding.

Local Open Scope Q_scope.

Lemma candidate0_round (d : Q) : in_range d -> round_number (candidate0 d).
Proof.
  intros Hr. pose proof (ceil_log10_in_range d Hr) as Hk.
  exists 0%Z, (ceil_log10 d). unfold candidate0.
  split; [lia |]. split; [lia |]. rewrite Z.pow_0_r. lia.
Qed.

Lemma candidate_round (d : Q) (i : Z) :
  (1 <= i <= 5)%Z -> round_number (candidate d i).
Proof.
  intros Hi. unfold candidate.
  set (a := ceil_log10 (d / Qpower 5 i)).
  destruct (Z_lt_le_dec a 0) as [Hneg|Hnn].
  - exists i, 0%Z. rewrite (Z.pow_neg_r 10 a Hneg).
    split; [lia |]. split; [lia |]. reflexivity.
  - exists i, a. assert (0 < 10 ^ a)%Z by (apply Z.pow_pos_nonneg; lia).
    rewrite Z.max_r by lia. split; [lia |]. split; [lia | reflexivity].
Qed.

Lemma nsteps_of_round (d : Q) : in_range d -> round_number (nsteps_of d).
Proof.
  intros Hr. destruct (nsteps_of_cases d) as [Hc _]. cbv zeta in Hc.
  destruct Hc as [E|[E|[E|[E|[E|E]]]]]; rewrite E;
    first [ apply candidate0_round; exact Hr | apply candidate_round; lia ].
Qed.

(** A candidate is below every number of its own family that is at
    least the ratio. *)
Lemma candidate0_least (d : Q) (a : Z) :
  in_range d -> (0 <= a)%Z -> d <= inject_Z (10 ^ a) ->
  (candidate0 d <= 10 ^ a)%Z.
Proof.
  intros Hr Ha Hd. unfold candidate0.
  apply Z.pow_le_mono_r; [lia |].
  apply ceil_log10_le; [apply in_range_pos; exact Hr |].
  rewrite pow10_inject by exact Ha. exact Hd.
Qed.

Lemma candidate_least (d : Q) (i a : Z) :
  0 < d -> (0 <= i)%Z -> (0 <= a)%Z -> d <= inject_Z (5 ^ i * 10 ^ a) ->
  (candidate d i <= 5 ^ i * 10 ^ a)%Z.
Proof.
  intros Hd Hi Ha Hle. unfold candidate.
  assert (H5 : (0 < 5 ^ i)%Z) by (apply Z.pow_pos_nonneg; lia).
  assert (H10 : (0 < 10 ^ a)%Z) by (apply Z.pow_pos_nonneg; lia).
  apply Z.mul_le_mono_nonneg_l; [lia |].
  assert (Hq : 0 < d / Qpower 5 i).
  { apply Qlt_shift_div_l; [apply pow5_pos |]. rewrite Qmult_0_l. exact Hd. }
  assert (Hai : (ceil_log10 (d / Qpower 5 i) <= a)%Z).
  { apply ceil_log10_le; [exact Hq |].
    apply Qle_shift_div_r; [apply pow5_pos |].
    rewrite pow10_inject, pow5_inject by assumption.
    rewrite <- inject_Z_mult, Z.mul_comm. exact Hle. }
  set (ai := ceil_log10 (d / Qpower 5 i)) in *.
  destruct (Z_lt_le_dec ai 0) as [Hneg|Hnn].
  - rewrite (Z.pow_neg_r 10 ai Hneg). lia.
  - assert (10 ^ ai <= 10 ^ a)%Z by (apply Z.pow_le_mono_r; lia). lia.
Qed.

Lemma nsteps_of_least (d : Q) (z : Z) :
  in_range d -> round_number z -> d <= inject_Z z -> (nsteps_of d <= z)%Z.
Proof.
  intros Hr (i & a & Hi & Ha & ->) Hle.
  pose proof (in_range_pos d Hr) as Hd.
  destruct (nsteps_of_cases d) as [_ (H0 & H1 & H2 & H3 & H4 & H5)].
  cbv zeta in *.
  assert (Hcases : (i = 0 \/ i = 1 \/ i = 2 \/ i = 3 \/ i = 4 \/ i = 5)%Z) by lia.
  destruct Hcases as [-> | [-> | [-> | [-> | [-> | ->]]]]].
  - rewrite Z.pow_0_r, Z.mul_1_l in *.
    pose proof (candidate0_least d a Hr Ha Hle). lia.
  - pose proof (candidate_least d 1 a Hd ltac:(lia) Ha Hle). lia.
  - pose proof (candidate_least d 2 a Hd ltac:(lia) Ha Hle). lia.
  - pose proof (candidate_least d 3 a Hd ltac:(lia) Ha Hle). lia.
  - pose proof (candidate_least d 4 a Hd ltac:(lia) Ha Hle). lia.
  - pose proof (candidate_least d 5 a Hd ltac:(lia) Ha Hle). lia.
Qed.

Lemma nsteps_of_lt_10 (d : Q) : in_range d -> inject_Z (nsteps_of d) < 10 * d.
Proof.
  intros Hr. pose proof (ceil_log10_in_range d Hr) as Hk.
  destruct (ceil_log10_spec d (in_range_pos d Hr)) as [Hlo _].
  destruct (nsteps_of_cases d) as [_ (H0 & _)]. cbv zeta in H0.
  apply Qle_lt_trans with (inject_Z (candidate0 d)); [rewrite <- Zle_Qle; exact H0 |].
  unfold candidate0. rewrite <- pow10_inject by lia.
  replace (ceil_log10 d) with (1 + (ceil_log10 d - 1))%Z at 1 by lia.
  rewrite Qpower_plus by discriminate.
  change (Qpower 10 1) with 10. apply Qmult_lt_l; [reflexivity | exact Hlo].
Qed.

Lemma nsteps_of_lt_5 (d : Q) : in_range d -> 1 < d -> inject_Z (nsteps_of d) < 5 * d.
Proof.
  intros Hr H1. pose proof (ceil_log10_in_range d Hr) as Hk.
  pose proof (in_range_pos d Hr) as Hd.
  destruct (ceil_log10_spec d Hd) as [Hlo _].
  assert (Hk1 : (0 < ceil_log10 d)%Z) by (apply ceil_log10_gt; exact H1).
  set (k := ceil_log10 d) in *.
  assert (Hp : Qpower 10 (k - 1) == inject_Z (10 ^ (k - 1))) by (apply pow10_inject; lia).
  destruct (Qlt_le_dec (inject_Z (5 ^ 1 * 10 ^ (k - 1))) d) as [Hbig|Hsmall].
  - destruct (nsteps_of_cases d) as [_ (H0 & _)]. cbv zeta in H0.
    apply Qle_lt_trans with (inject_Z (candidate0 d)); [rewrite <- Zle_Qle; exact H0 |].
    unfold candidate0. fold k.
    replace (10 ^ k)%Z with (2 * (5 ^ 1 * 10 ^ (k - 1)))%Z.
    + rewrite inject_Z_mult.
      apply Qlt_trans with (inject_Z 2 * d).
      * apply Qmult_lt_l; [reflexivity | exact Hbig].
      * apply Qmult_lt_r; [exact Hd | reflexivity].
    + replace k with (1 + (k - 1))%Z at 2 by lia.
      rewrite Z.pow_add_r by lia. lia.
  - assert (Hle : (nsteps_of d <= 5 ^ 1 * 10 ^ (k - 1))%Z).
    { apply nsteps_of_least; [exact Hr | | exact Hsmall].
      exists 1%Z, (k - 1)%Z. split; [lia |]. split; [lia | reflexivity]. }
    apply Qle_lt_trans with (inject_Z (5 ^ 1 * 10 ^ (k - 1))); [rewrite <- Zle_Qle; exact Hle |].
    rewrite inject_Z_mult, <- Hp. change (inject_Z (5 ^ 1)) with 5.
    apply Qmult_lt_l; [reflexivity | exact Hlo].
Qed.

(** From a bound on the step count to a bound on the step size. *)
Lemma step_size_above (tmax dtmax c : Q) (n : Z) :
  0 < dtmax -> (1 <= n)%Z -> inject_Z n < c * (tmax / dtmax) ->
  dtmax < c * (tmax / inject_Z n).
Proof.
  intros Hdt Hn Hlt.
  assert (Hn0 : 0 < inject_Z n) by (change 0 with (inject_Z 0); rewrite <- Zlt_Qlt; lia).
  assert (Hdt0 : ~ dtmax == 0) by (intros E; rewrite E in Hdt; discriminate Hdt).
  assert (Hnn : ~ inject_Z n == 0) by (intros E; rewrite E in Hn0; discriminate Hn0).
  setoid_replace (c * (tmax / inject_Z n)) with ((c * tmax) / inject_Z n) by (field; exact Hnn).
  apply Qlt_shift_div_l; [exact Hn0 |].
  apply Qlt_le_trans with (dtmax * (c * (tmax / dtmax))).
  - apply Qmult_lt_l; assumption.
  - setoid_replace (dtmax * (c * (tmax / dtmax))) with (c * tmax) by (field; exact Hdt0).
    apply Qle_refl.
Qed.

(** *** Further properties of [SnapTimeStep] *)





(** Below one the power of ten truncates to the [int] zero. *)
Lemma to_int_pow10_neg (k : Z) : (k < 0)%Z -> to_int (pow 10 k) = Some 0%Z.
Proof.
  intros Hk. unfold pow, to_int.
  assert (Hpos : 0 < Qpower 10 k) by apply pow10_pos.
  assert (Hlt : Qpower 10 k < 1).
  { apply Qle_lt_trans with (Qpower 10 (-1)); [apply pow10_mono; lia | reflexivity]. }
  assert (E : Qtrunc (Qpower 10 k) = 0%Z).
  { unfold Qtrunc. destruct (Qpower 10 k) as [p q].
    unfold Qlt in Hpos, Hlt. simpl in Hpos, Hlt. cbn [Qnum Qden].
    apply Z.quot_small. lia. }
  rewrite E. reflexivity.
Qed.

Lemma snap_body_small (q : Q) (i n : Z) :
  (1 <= i <= 5)%Z ->
  Qpower 10 (-310) < q / Qpower 5 i -> q / Qpower 5 i <= 1 # 10 ->
  snap_body (Finite q) i n = Some (Z.min n (5 ^ i)).
Proof.
  intros Hi Hlo Hhi.
  assert (Hpos : 0 < q / Qpower 5 i)
    by (eapply Qlt_trans; [apply pow10_pos | exact Hlo]).
  pose proof (ceil_log10_gt _ _ Hlo) as Ha1.
  assert (Ha2 : (ceil_log10 (q / Qpower 5 i) <= -1)%Z)
    by (apply ceil_log10_le; [exact Hpos | exact Hhi]).
  unfold snap_body, pow.
  rewrite (ddiv_finite q (Qpower 5 i) (pow5_pos i)), dceil_log10_pos by exact Hpos.
  set (a := ceil_log10 (q / Qpower 5 i)) in *. clearbody a.
  rewrite to_int_of_int by (unfold INT_MIN, INT_MAX; lia).
  cbn [bind]. fold (pow 10 a). rewrite to_int_pow10_neg by lia. cbn [bind].
  assert (Hc : (i = 1 \/ i = 2 \/ i = 3 \/ i = 4 \/ i = 5)%Z) by lia.
  destruct Hc as [-> | [-> | [-> | [-> | ->]]]]; reflexivity.
Qed.



(** X6: when [dtmax] is zero, or the ratio [tmax / dtmax] is zero or
    negative, [ceil(log10(dsteps))] is an infinity or NaN and its
    conversion to [int] is undefined: no step count is defined. *)
Theorem SnapTimeStep_undefined (tmax dtmax : Q) :
  dtmax == 0 \/ tmax / dtmax <= 0 ->
  SnapTimeStep tmax dtmax = None.
Proof.
  intros H. unfold SnapTimeStep, ddiv.
  destruct (Qeq_bool dtmax 0) eqn:E.
  - destruct (Qeq_bool tmax 0); [reflexivity |].
    destruct (Qneg_bool tmax); reflexivity.
  - assert (Hle : tmax / dtmax <= 0).
    { destruct H as [H|H]; [| exact H].
      apply Qeq_bool_neq in E. contradiction. }
    unfold dceil_log10.
    destruct (Qlt_le_dec 0 (tmax / dtmax)) as [Hlt|_].
    + exfalso. exact (Qlt_not_le _ _ Hlt Hle).
    + destruct (Qeq_bool (tmax / dtmax) 0); reflexivity.
Qed.

Lemma SnapTimeStep_undefined_witness :
  SnapTimeStep 40 0 = None /\ SnapTimeStep 0 1 = None /\ SnapTimeStep (-40) 1 = None.
Proof.
  split; [| split].
  - apply (SnapTimeStep_undefined 40 0). left. reflexivity.
  - apply (SnapTimeStep_undefined 0 1). right. apply Qle_bool_iff. reflexivity.
  - apply (SnapTimeStep_undefined (-40) 1). right. apply Qle_bool_iff. reflexivity.
Defined.

End QuantizerMore.

(** ** Further properties of the time loop *)

Module DriverMore.
Import Numeric Quantizer Driver DriverEvents NumericFacts QuantizerFacts DriverFacts.

Local Open Scope Z_scope.

Section TimeLoopMore.

Variable World : Type.
Variable Step : double -> World -> World.
Variables (max_its myid : Z) (visit visualization : bool).

Local Abbreviation loop_body := (loop_body World Step myid visit visualization).
Local Abbreviation time_loop := (time_loop World Step myid visit visualization).
Local Abbreviation drive := (drive World Step max_its myid visit visualization).

Lemma loop_body_effect (dt : double) (it : Z) (st : state World) :
  world (loop_body dt it st) = Step dt (world st) /\
  flat_map flat_step (trace (loop_body dt it st))
  = (it, dt) :: flat_map flat_step (trace st) /\
  visit_writes (trace (loop_body dt it st))
  = ((if visit then 1 else 0) + visit_writes (trace st))%nat.
Proof.
  unfold Driver.loop_body.
  destruct (myid =? 0), visit, visualization; repeat split.
Qed.

Lemma time_loop_effect (dt : double) (nsteps it : Z) (st : state World) :
  let k := Z.to_nat (nsteps + 1 - it) in
  world (time_loop dt nsteps it st) = Nat.iter k (Step dt) (world st) /\
  flat_map flat_step (trace (time_loop dt nsteps it st))
  = rev (map (fun j => (it + Z.of_nat j, dt)) (seq 0 k))
    ++ flat_map flat_step (trace st) /\
  visit_writes (trace (time_loop dt nsteps it st))
  = ((if visit then k else 0) + visit_writes (trace st))%nat.
Proof.
  funelim (time_loop dt nsteps it st).
  - cbv zeta in *.
    match goal with IH : _ /\ _ /\ _ |- _ => destruct IH as (IHw & IHs & IHv) end.
    destruct (loop_body_effect dt it st) as (Bw & Bs & Bv).
    replace (Z.to_nat (nsteps + 1 - it)) with (S (Z.to_nat (nsteps + 1 - (it + 1)))) by lia.
    set (k := Z.to_nat (nsteps + 1 - (it + 1))) in *.
    split; [| split].
    + rewrite IHw, Bw. rewrite Nat.iter_succ_r. reflexivity.
    + rewrite IHs, Bs. cbn [seq map rev].
      rewrite <- seq_shift, map_map, <- app_assoc. cbn [app].
      rewrite Z.add_0_r. do 2 f_equal.
      apply map_ext. intros j. f_equal. lia.
    + rewrite IHv, Bv. destruct visit; lia.
  - cbv zeta. replace (Z.to_nat (nsteps + 1 - it)) with 0%nat by lia.
    cbn. destruct visit; repeat split.
Qed.

Lemma drive_effect (nsteps : Z) (dt : double) (st0 : state World) :
  exists st,
    drive nsteps dt st0
    = (0, emit World MPI_Finalize (time_loop dt (Z.min nsteps max_its) 1 st)) /\
    world st = world st0 /\
    flat_map flat_step (trace st) = flat_map flat_step (trace st0) /\
    visit_writes (trace st)
    = ((if visit then 1 else 0) + visit_writes (trace st0))%nat.
Proof.
  unfold Driver.drive, cap_steps.
  destruct (Z.gtb_spec nsteps max_its) as [Hgt|Hle].
  - rewrite Z.min_r by lia. eexists. split; [reflexivity |].
    destruct visit, visualization; repeat split.
  - rewrite Z.min_l by lia. eexists. split; [reflexivity |].
    destruct visit, visualization; repeat split.
Qed.

Lemma drive_calls (nsteps : Z) (dt : double) (st0 : state World) :
  step_calls (trace (snd (drive nsteps dt st0)))
  = (Z.to_nat (Z.min nsteps max_its) + step_calls (trace st0))%nat.
Proof.
  destruct (drive_unfold World Step max_its myid visit visualization nsteps dt st0)
    as (n & st & Er & En & Hc & _).
  rewrite Er. cbn [snd]. unfold emit. cbn [trace].
  unfold step_calls at 1. cbn [filter is_step_call].
  fold (step_calls (trace (time_loop dt n 1 st))).
  rewrite time_loop_step_calls, Hc. subst n.
  destruct (Z.gtb_spec nsteps max_its); f_equal; f_equal; lia.
Qed.

(** X7: the state the driver leaves is the initial one advanced by
    [Step] with the one step size [dt], once per iteration:
    [min(nsteps, max_its)] times, not at all when that is not
    positive. *)
Theorem drive_final_world (nsteps : Z) (dt : double) (st0 : state World) :
  world (snd (drive nsteps dt st0))
  = Nat.iter (Z.to_nat (Z.min nsteps max_its)) (Step dt) (world st0).
Proof.
  destruct (drive_effect nsteps dt st0) as (st & Er & Ew & _).
  rewrite Er. cbn [snd]. unfold emit. cbn [world].
  destruct (time_loop_effect dt (Z.min nsteps max_its) 1 st) as (Hw & _).
  cbv zeta in Hw. rewrite Hw, Ew. f_equal. lia.
Qed.

(** X8: the driver passes to [Step] the loop indices [1, 2, ...,
    min(nsteps, max_its)] in this order, each with the same step size
    [dt]. *)
Theorem drive_steps_taken (nsteps : Z) (dt : double) (st0 : state World) :
  steps_taken (trace (snd (drive nsteps dt st0)))
  = steps_taken (trace st0)
    ++ map (fun j => (Z.of_nat j, dt))
           (seq 1 (Z.to_nat (Z.min nsteps max_its))).
Proof.
  destruct (drive_effect nsteps dt st0) as (st & Er & _ & Es & _).
  rewrite Er. cbn [snd]. unfold emit, steps_taken. cbn [trace flat_map flat_step app].
  destruct (time_loop_effect dt (Z.min nsteps max_its) 1 st) as (_ & Hs & _).
  cbv zeta in Hs. rewrite Hs, Es, rev_app_distr, rev_involutive.
  f_equal. replace (Z.to_nat (Z.min nsteps max_its + 1 - 1))
    with (Z.to_nat (Z.min nsteps max_its)) by lia.
  rewrite <- seq_shift, map_map. apply map_ext. intros j. f_equal. lia.
Qed.

(** X10: with VisIt output enabled the fields are written once before
    the loop and once after every step; with it disabled they are never
    written. *)
Theorem drive_visit_writes (nsteps : Z) (dt : double) (st0 : state World) :
  visit_writes (trace (snd (drive nsteps dt st0)))
  = ((if visit then S (Z.to_nat (Z.min nsteps max_its)) else 0)
     + visit_writes (trace st0))%nat.
Proof.
  destruct (drive_effect nsteps dt st0) as (st & Er & _ & _ & Ev).
  rewrite Er. cbn [snd]. unfold emit. cbn [trace].
  unfold visit_writes at 1. cbn [filter is_visit_write].
  fold (visit_writes (trace (time_loop dt (Z.min nsteps max_its) 1 st))).
  destruct (time_loop_effect dt (Z.min nsteps max_its) 1 st) as (_ & _ & Hv).
  cbv zeta in Hv. rewrite Hv, Ev.
  replace (Z.to_nat (Z.min nsteps max_its + 1 - 1))
    with (Z.to_nat (Z.min nsteps max_its)) by lia.
  destruct visit; lia.
Qed.

End TimeLoopMore.

End DriverMore.

(** ** Further properties of the current sources *)

Module SourcesMore.
Import Sources SourcesFacts SourceShapes Setup.

Local Open Scope R_scope.

Lemma Rleb_true (a b : R) : Rleb a b = true <-> a <= b.
Proof. unfold Rleb. destruct (Rle_dec a b); split; intros; auto; discriminate. Qed.

Lemma Rleb_false (a b : R) : Rleb a b = false <-> b < a.
Proof.
  unfold Rleb. destruct (Rle_dec a b); split; intros; try discriminate; auto; lra.
Qed.

Lemma Rltb_true (a b : R) : Rltb a b = true <-> a < b.
Proof. unfold Rltb. destruct (Rlt_dec a b); split; intros; auto; discriminate. Qed.

Lemma Rltb_false (a b : R) : Rltb a b = false <-> b <= a.
Proof.
  unfold Rltb. destruct (Rlt_dec a b); split; intros; try discriminate; auto; lra.
Qed.

Lemma nth_map_seq (f : nat -> R) (n k : nat) :
  (k < n)%nat -> nth k (map f (seq 0 n)) 0 = f k.
Proof.
  intros Hk. rewrite (nth_indep _ 0 (f 0%nat)) by (rewrite length_map, length_seq; exact Hk).
  rewrite map_nth, seq_nth by exact Hk. reflexivity.
Qed.

Lemma axis_length (params : Vector) (n : nat) : List.length (axis params n) = n.
Proof. unfold axis. rewrite length_map, length_seq. reflexivity. Qed.

(** With both end points present the loop computes the axis vector. *)
Lemma axis_for_axis (params x : Vector) :
  let n := Size x in
  (n + n <= Size params)%nat ->
  exists xu,
    axis_for params n n 0 x (alloc n) = ret (xu, axis params n) /\
    List.length xu = n.
Proof.
  intros n Hp.
  destruct (axis_for_spec params n Hp n 0%nat x (alloc n))
    as (xu & a & E & Lx & La & _ & Ha); try reflexivity.
  { unfold alloc. apply repeat_length. }
  exists xu. split; [| exact Lx]. rewrite E. do 2 f_equal.
  apply (nth_ext _ _ 0 0); [rewrite axis_length; exact La |].
  intros k Hk. rewrite La in Hk. unfold axis.
  rewrite nth_map_seq by exact Hk. apply Ha. lia.
Qed.

Lemma Add_zeros (a : Vector) (c : R) (n : nat) :
  List.length a = n -> Add (repeat 0 n) c a = map (fun ak => c * ak) a.
Proof.
  revert n. induction a as [|y a IH]; intros n Hn.
  - destruct n; reflexivity.
  - destruct n as [|n]; [discriminate Hn |].
    injection Hn as Hn. unfold Add in *. cbn. f_equal; [lra |].
    apply IH. exact Hn.
Qed.

Lemma scale_zeros (n : nat) (c : R) : scale (repeat 0 n) c = repeat 0 n.
Proof.
  unfold scale. induction n as [|n IH]; [reflexivity |].
  cbn. f_equal; [lra | exact IH].
Qed.

Lemma map_zero (a : Vector) (f : R -> R) :
  (forall y, f y = 0) -> map f a = repeat 0 (List.length a).
Proof.
  intros Hf. induction a as [|y a IH]; [reflexivity |].
  cbn. f_equal; [apply Hf | exact IH].
Qed.

(** The axis loop reads the first [2 n] parameters only. *)
Lemma axis_for_ext (params params' : Vector) (n : nat) :
  (forall i, (i < n + n)%nat -> nth_error params i = nth_error params' i) ->
  forall (count i : nat) (xu a : Vector),
    (i + count <= n)%nat ->
    axis_for params n count i xu a = axis_for params' n count i xu a.
Proof.
  intros Hext. induction count as [|count IH]; intros i xu a Hi; [reflexivity |].
  cbn [axis_for].
  assert (G1 : get params i = get params' i)
    by (unfold get; rewrite (Hext i) by lia; reflexivity).
  assert (G2 : get params (n + i) = get params' (n + i))
    by (unfold get; rewrite (Hext (n + i)%nat) by lia; reflexivity).
  rewrite G1, G2.
  destruct (get xu i) as [f|xui]; [reflexivity |]. cbn [bind].
  destruct (get params' i) as [f|pi]; [reflexivity |]. cbn [bind].
  destruct (set xu i (xui - pi)) as [f|xu1]; [reflexivity |]. cbn [bind].
  destruct (get params' (n + i)) as [f|pni]; [reflexivity |]. cbn [bind].
  destruct (set a i (pni - pi)) as [f|a1]; [reflexivity |]. cbn [bind].
  apply IH. lia.
Qed.

(** With fewer than [2 n] parameters the axis loop reads past the end
    of the parameter vector. *)
Lemma axis_for_short (params : Vector) (n : nat) :
  (List.length params < n + n)%nat ->
  forall (count i : nat) (xu a : Vector),
    (i + count = n)%nat -> (0 < count)%nat ->
    List.length xu = n -> List.length a = n ->
    axis_for params n count i xu a = fail OutOfBounds.
Proof.
  intros Hp. induction count as [|count IH]; intros i xu a Hi Hc Hxu Ha; [lia |].
  cbn [axis_for].
  rewrite (get_nth xu i) by lia. cbn [bind ret].
  assert (Gi : get params i = fail OutOfBounds \/ exists pi, get params i = ret pi).
  { unfold get. destruct (nth_error params i); [right; eexists; reflexivity | left; reflexivity]. }
  destruct Gi as [Gi|(pi & Gi)]; rewrite Gi; [reflexivity |]. cbn [bind ret].
  destruct (set_spec xu i (nth i xu 0 - pi)) as (xu1 & E1 & L1 & _); [lia |].
  rewrite E1. cbn [bind ret].
  assert (Gn : get params (n + i) = fail OutOfBounds
               \/ exists pni, nth_error params (n + i) = Some pni
                              /\ get params (n + i) = ret pni).
  { unfold get. destruct (nth_error params (n + i));
      [right; eexists; split; reflexivity | left; reflexivity]. }
  destruct Gn as [Gn|(pni & Eni & Gn)]; rewrite Gn; [reflexivity |].
  cbn [bind ret].
  destruct (set_spec a i (pni - pi)) as (a1 & E2 & L2 & _); [lia |].
  rewrite E2. cbn [bind ret].
  destruct count as [|count].
  - exfalso. assert (n + i < List.length params)%nat
      by (apply nth_error_Some; rewrite Eni; discriminate). lia.
  - apply IH; lia.
Qed.

Lemma get_app (pre l : Vector) (m k : nat) :
  List.length pre = m -> get (pre ++ l) (m + k) = get l k.
Proof.
  intros <-. unfold get. rewrite nth_error_app2 by lia.
  replace (List.length pre + k - List.length pre)%nat with k by lia. reflexivity.
Qed.

Lemma current_ring_3d (dbg : bool) (x0 x1 x2 c0 c1 c2 c3 c4 c5 c6 c7 c8 c9 : R)
  (rest : Vector) (t : R) (j : Vector) :
  let cr := c0 :: c1 :: c2 :: c3 :: c4 :: c5 :: c6 :: c7 :: c8 :: c9 :: rest in
  c6 <> c7 ->
  exists q0 q1 q2,
    Sources.current_ring dbg cr [x0; x1; x2] t j = ret [q0; q1; q2] /\
    q0 * (c3 - c0) + q1 * (c4 - c1) + q2 * (c5 - c2) = 0 /\
    (t = 0 -> q0 = 0 /\ q1 = 0 /\ q2 = 0).
Proof.
  intros cr Hr. unfold Sources.current_ring, MFEM_ASSERT.
  rewrite fill_SetSize.
  change (Nat.eqb (Size [x0; x1; x2]) 3) with true.
  rewrite andb_false_r. cbn [bind ret].
  unfold cr. cbn.
  set (h := Norml2 [c3 - c0; c4 - c1; c5 - c2]).
  set (xa := (x0 - c0) * (c3 - c0) +
             ((x1 - c1) * (c4 - c1) + ((x2 - c2) * (c5 - c2) + 0))).
  assert (Leaf0 : exists q0 q1 q2 : R,
             ret (scale [0; 0; 0] (sin (2 * PI * c9 * t))) = ret [q0; q1; q2] :> result Vector /\
             q0 * (c3 - c0) + q1 * (c4 - c1) + q2 * (c5 - c2) = 0 /\
             (t = 0 -> q0 = 0 /\ q1 = 0 /\ q2 = 0)).
  { do 3 eexists. split; [reflexivity |]. split; [lra |]. intros _. lra. }
  destruct (Req_dec_T h 0) as [Hz|Hh].
  { exists 0, 0, 0. split; [reflexivity |]. split; [lra |]. intros _. lra. }
  assert (Hhh : h * h <> 0) by (intros E0; apply Rmult_integral in E0; tauto).
  assert (Exu : exists w0 w1 w2,
            (if Rltb 0 h
             then c <- rdiv (- xa) (h * h) ;;
                  ret ([x0 - c0 + c * (c3 - c0); x1 - c1 + c * (c4 - c1);
                        x2 - c2 + c * (c5 - c2)] : Vector)
             else ret ([x0 - c0; x1 - c1; x2 - c2] : Vector))
            = ret ([w0; w1; w2] : Vector)).
  { unfold rdiv. destruct (Rltb 0 h).
    - destruct (Req_dec_T (h * h) 0) as [E0|_]; [contradiction |].
      do 3 eexists. reflexivity.
    - do 3 eexists. reflexivity. }
  destruct Exu as (w0 & w1 & w2 & Exu).
  assert (Hd : forall ra rb, ra <> rb -> h * (rb - ra) <> 0).
  { intros ra rb Hne E0. apply Rmult_integral in E0.
    destruct E0 as [E0|E0]; [contradiction | apply Hne; lra]. }
  assert (Leaf : forall ra rb, ra <> rb ->
            exists q0 q1 q2 : R,
              (j0 <- (if Rleb 0 xa && Rleb xa (h * h) &&
                         Rleb ra (Norml2 [w0; w1; w2]) && Rleb (Norml2 [w0; w1; w2]) rb
                      then
                        ju <- vdiv [(c4 - c1) * w2 - (c5 - c2) * w1;
                                    (c5 - c2) * w0 - (c3 - c0) * w2;
                                    (c3 - c0) * w1 - (c4 - c1) * w0] h ;;
                        c <- rdiv c8 (h * (rb - ra)) ;;
                        ret (Add [0; 0; 0] c ju)
                      else ret [0; 0; 0]) ;;
               ret (scale j0 (sin (2 * PI * c9 * t)))) = ret [q0; q1; q2] /\
              q0 * (c3 - c0) + q1 * (c4 - c1) + q2 * (c5 - c2) = 0 /\
              (t = 0 -> q0 = 0 /\ q1 = 0 /\ q2 = 0)).
  { intros ra rb Hne.
    destruct (Rleb 0 xa && Rleb xa (h * h) &&
              Rleb ra (Norml2 [w0; w1; w2]) && Rleb (Norml2 [w0; w1; w2]) rb).
    - unfold vdiv, rdiv.
      destruct (Req_dec_T h 0) as [E0|_]; [contradiction |].
      destruct (Req_dec_T (h * (rb - ra)) 0) as [E0|_];
        [exfalso; exact (Hd ra rb Hne E0) |].
      cbn. do 3 eexists. split; [reflexivity |]. split.
      + field. split; [exact Hh | intros E0; apply Hne; lra].
      + intros ->. rewrite Rmult_0_r, sin_0. lra.
    - cbn [bind ret]. exact Leaf0. }
  destruct (Rltb c7 c6); cbv beta iota;
    (match goal with
     | |- context [bind ?e _] =>
         match e with
         | (if Rltb 0 h then _ else _) => change e with (ret ([w0; w1; w2] : Vector)) || (replace e with (ret ([w0; w1; w2] : Vector)) by (symmetry; exact Exu))
         end
     end); cbn [bind ret get nth_error].
  - apply (Leaf c7 c6). intros E0. apply Hr. symmetry. exact E0.
  - apply (Leaf c6 c7). exact Hr.
Qed.

Lemma dot_self_nonneg (a : Vector) : 0 <= dot a a.
Proof.
  unfold dot. induction a as [|y a IH]; [cbn; lra |].
  cbn. pose proof (Rle_0_sqr y) as Hy. unfold Rsqr in Hy. lra.
Qed.

Lemma dot_map_scale (a : Vector) (c : R) :
  dot (map (fun ak => c * ak) a) (map (fun ak => c * ak) a) = c * c * dot a a.
Proof.
  unfold dot. induction a as [|y a IH]; [cbn; lra |].
  cbn. rewrite IH. ring.
Qed.

Lemma Norml2_map_scale (a : Vector) (c : R) :
  Norml2 (map (fun ak => c * ak) a) = Rabs c * Norml2 a.
Proof.
  unfold Norml2. rewrite dot_map_scale.
  rewrite sqrt_mult; [| apply Rle_0_sqr | apply dot_self_nonneg].
  fold (Rsqr c). rewrite sqrt_Rsqr_abs. reflexivity.
Qed.

Lemma Norml2_nonneg (a : Vector) : 0 <= Norml2 a.
Proof. unfold Norml2. apply sqrt_pos. Qed.



Section SourcesMore.

Variable MFEM_DEBUG : bool.
Variables vp_params_ cr_params_ : Vector.

Local Abbreviation voltaic_pile := (voltaic_pile vp_params_).
Local Abbreviation current_ring := (current_ring MFEM_DEBUG cr_params_).
Local Abbreviation current_src := (current_src MFEM_DEBUG vp_params_ cr_params_).

(** The result of [voltaic_pile] when all of its parameters are
    present. *)
Lemma voltaic_pile_shape (x : Vector) :
  let n := Size x in
  let a := axis vp_params_ n in
  (2 * n + 3 <= Size vp_params_)%nat ->
  exists s,
    (s = 0 \/ (Norml2 a <> 0 /\ s = nth (2 * n + 1) vp_params_ 0 / Norml2 a)) /\
    forall t p,
      voltaic_pile x t p
      = ret (map (fun ak => s * ak * sin (2 * PI * nth (2 * n + 2) vp_params_ 0 * t)) a).
Proof.
  intros n a Hlen.
  destruct (axis_for_axis vp_params_ x) as (xu & E & Lx); [fold n; lia |].
  fold n in E, Lx. fold a in E.
  assert (La : List.length a = n) by apply axis_length.
  assert (Zero : forall t,
            repeat 0 n
            = map (fun ak => 0 * ak * sin (2 * PI * nth (2 * n + 2) vp_params_ 0 * t)) a).
  { intros t. rewrite (map_zero a) by (intros; lra). rewrite La. reflexivity. }
  destruct (Req_dec_T (Norml2 a) 0) as [Hh|Hh].
  - exists 0. split; [left; reflexivity |]. intros t p.
    unfold Sources.voltaic_pile. rewrite fill_SetSize. fold n.
    rewrite E. cbn [bind ret]. cbv beta iota.
    destruct (Req_dec_T (Norml2 a) 0) as [_|Hne]; [| contradiction].
    rewrite <- Zero. reflexivity.
  - set (xa := dot xu a).
    set (h := Norml2 a) in *.
    assert (Hhh : h * h <> 0) by (intros E0; apply Rmult_integral in E0; tauto).
    set (xu1 := if Rltb 0 h then Add xu (- xa / (h * h)) a else xu).
    set (inside := Rleb 0 xa && Rleb xa (h * h)
                   && Rleb (Norml2 xu1) (nth (2 * n) vp_params_ 0)).
    exists (if inside then nth (2 * n + 1) vp_params_ 0 / h else 0).
    split.
    { destruct inside; [right; split; [exact Hh | reflexivity] | left; reflexivity]. }
    intros t p.
    unfold Sources.voltaic_pile. rewrite fill_SetSize. fold n.
    rewrite E. cbn [bind ret]. cbv beta iota. fold h.
    destruct (Req_dec_T h 0) as [Hz|_]; [contradiction |].
    rewrite (get_nth vp_params_ (2 * n)) by (unfold Size in Hlen; lia).
    cbn [bind ret]. fold xa.
    assert (Exu : (if Rltb 0 h
                   then c <- rdiv (- xa) (h * h) ;; ret (Add xu c a)
                   else ret xu) = ret xu1).
    { unfold xu1, rdiv. destruct (Rltb 0 h); [| reflexivity].
      destruct (Req_dec_T (h * h) 0) as [Hz|_]; [contradiction | reflexivity]. }
    rewrite Exu. cbn [bind ret]. fold inside.
    rewrite (get_nth vp_params_ (2 * n + 2)) by (unfold Size in Hlen; lia).
    destruct inside.
    + rewrite (get_nth vp_params_ (2 * n + 1)) by (unfold Size in Hlen; lia).
      cbn [bind ret]. unfold rdiv.
      destruct (Req_dec_T h 0) as [Hz|_]; [contradiction |].
      cbn [bind ret]. rewrite (Add_zeros a _ n La).
      unfold scale. rewrite map_map. reflexivity.
    + cbn [bind ret]. rewrite scale_zeros. rewrite <- Zero. reflexivity.
Qed.

(** X12: with its [2 n + 3] parameters present [voltaic_pile] reads
    inside the parameter vector, divides by nothing that is zero, and
    returns a fixed spatial profile times [sin(2 pi f t)]: a multiple
    [s] of the axis vector, where [s] is zero or the polarization
    magnitude divided by the axis length; what the output vector held
    before does not matter. *)
Theorem voltaic_pile_profile (x : Vector) :
  let n := Size x in
  let a := axis vp_params_ n in
  (2 * n + 3 <= Size vp_params_)%nat ->
  exists s,
    (s = 0 \/ (Norml2 a <> 0 /\ s = nth (2 * n + 1) vp_params_ 0 / Norml2 a)) /\
    forall t p,
      voltaic_pile x t p
      = ret (map (fun ak => s * ak * sin (2 * PI * nth (2 * n + 2) vp_params_ 0 * t)) a).
Proof.
  intros n a Hlen.
  destruct (voltaic_pile_shape x Hlen) as (s & Hs & Hv).
  exists s. split; [exact Hs | exact Hv].
Qed.

(** X13: the vector [voltaic_pile] returns is zero or has the length
    [|P sin(2 pi f t)|], with [P] the configured polarization
    magnitude: the axis length cancels. *)
Theorem voltaic_pile_magnitude (x : Vector) (t : R) (p : Vector) :
  let n := Size x in
  (2 * n + 3 <= Size vp_params_)%nat ->
  exists q,
    voltaic_pile x t p = ret q /\
    Size q = n /\
    (Norml2 q = 0 \/
     Norml2 q = Rabs (nth (2 * n + 1) vp_params_ 0
                      * sin (2 * PI * nth (2 * n + 2) vp_params_ 0 * t))).
Proof.
  intros n Hlen.
  destruct (voltaic_pile_shape x Hlen) as (s & Hs & Hv). fold n in Hs, Hv.
  set (w := sin (2 * PI * nth (2 * n + 2) vp_params_ 0 * t)).
  set (a := axis vp_params_ n) in *.
  exists (map (fun ak => s * ak * sin (2 * PI * nth (2 * n + 2) vp_params_ 0 * t)) a).
  split; [apply Hv |]. split.
  { unfold Size. rewrite length_map. apply axis_length. }
  fold w.
  assert (Em : map (fun ak => s * ak * w) a = map (fun ak => (s * w) * ak) a)
    by (apply map_ext; intros; ring).
  rewrite Em, Norml2_map_scale.
  destruct Hs as [->|[Hh ->]].
  - left. rewrite Rmult_0_l, Rabs_R0. ring.
  - right. pose proof (Norml2_nonneg a) as Hn.
    set (h := Norml2 a) in *.
    assert (Hpos : 0 < h) by lra.
    replace (nth (2 * n + 1) vp_params_ 0 / h * w)
      with (nth (2 * n + 1) vp_params_ 0 * w * / h) by (field; exact Hh).
    rewrite Rabs_mult, (Rabs_inv h), (Rabs_right h) by lra.
    field. exact Hh.
Qed.

(** X14: at [t = 0] every source is zero: [voltaic_pile] with its
    parameters present, [current_ring] at a point of three coordinates
    with its ten parameters and two distinct radii, and [current_src]
    combining both. *)
Theorem sources_vanish_at_zero (x : Vector) (j : Vector) :
  let n := Size x in
  ((2 * n + 3 <= Size vp_params_)%nat ->
   voltaic_pile x 0 j = ret (repeat 0 n)) /\
  (n = 3%nat -> (10 <= Size cr_params_)%nat ->
   nth 6 cr_params_ 0 <> nth 7 cr_params_ 0 ->
   current_ring x 0 j = ret (repeat 0 n)) /\
  (n = 3%nat -> (9 <= Size vp_params_)%nat -> (10 <= Size cr_params_)%nat ->
   nth 6 cr_params_ 0 <> nth 7 cr_params_ 0 ->
   current_src x 0 j = ret (repeat 0 n)).
Proof.
  intros n.
  assert (Hvp : (2 * n + 3 <= Size vp_params_)%nat ->
                forall p, voltaic_pile x 0 p = ret (repeat 0 n)).
  { intros Hlen p.
    destruct (voltaic_pile_shape x Hlen) as (s & _ & Hv). fold n in Hv.
    rewrite Hv, Rmult_0_r, sin_0.
    rewrite (map_zero (axis vp_params_ n)) by (intros; ring).
    rewrite axis_length. reflexivity. }
  assert (Hcr : n = 3%nat -> (10 <= Size cr_params_)%nat ->
                nth 6 cr_params_ 0 <> nth 7 cr_params_ 0 ->
                forall j', current_ring x 0 j' = ret (repeat 0 n)).
  { intros Hn Hlen Hr j'. unfold n in *. clear Hvp.
    destruct x as [|x0 [|x1 [|x2 [|x3 x']]]]; try discriminate Hn.
    destruct cr_params_ as [|c0 [|c1 [|c2 [|c3 [|c4 [|c5 [|c6 [|c7 [|c8 [|c9 rest]]]]]]]]]];
      cbn in Hlen; try lia.
    cbn in Hr.
    destruct (current_ring_3d MFEM_DEBUG x0 x1 x2 c0 c1 c2 c3 c4 c5 c6 c7 c8 c9
                rest 0 j' Hr) as (q0 & q1 & q2 & E & _ & Hz).
    rewrite E. destruct (Hz eq_refl) as (-> & -> & ->). reflexivity. }
  split; [intros Hlen; apply Hvp; exact Hlen |].
  split; [intros Hn Hlen Hr; apply Hcr; assumption |].
  intros Hn Hv Hc Hr. unfold Sources.current_src.
  destruct (Nat.eqb_spec (Size vp_params_ * Size cr_params_) 0) as [E|_];
    [apply Nat.eq_mul_0 in E; lia |].
  rewrite Hvp by lia. cbn [bind ret]. rewrite Hcr by assumption. cbn [bind ret].
  fold n. rewrite Hn. unfold vadd. cbn. repeat f_equal; lra.
Qed.

(** X16: at a point of three coordinates, with its ten parameters
    present and two distinct radii, [current_ring] succeeds and the
    current it returns is perpendicular to the axis of the ring. *)
Theorem current_ring_perpendicular (x : Vector) (t : R) (j : Vector) :
  Size x = 3%nat -> (10 <= Size cr_params_)%nat ->
  nth 6 cr_params_ 0 <> nth 7 cr_params_ 0 ->
  exists q,
    current_ring x t j = ret q /\
    Size q = 3%nat /\
    dot q (axis cr_params_ 3) = 0.
Proof.
  intros Hn Hlen Hr.
  destruct x as [|x0 [|x1 [|x2 [|x3 x']]]]; try discriminate Hn.
  destruct cr_params_ as [|c0 [|c1 [|c2 [|c3 [|c4 [|c5 [|c6 [|c7 [|c8 [|c9 rest]]]]]]]]]];
    cbn in Hlen; try lia.
  cbn in Hr.
  destruct (current_ring_3d MFEM_DEBUG x0 x1 x2 c0 c1 c2 c3 c4 c5 c6 c7 c8 c9
              rest t j Hr) as (q0 & q1 & q2 & E & Hperp & _).
  exists [q0; q1; q2]. split; [exact E |]. split; [reflexivity |].
  unfold dot, axis. cbn. lra.
Qed.

(** X15: [current_ring] orders its two radii itself: exchanging the
    inner and the outer radius in the parameter vector changes
    nothing. *)
Theorem current_ring_radii_swap (pre post : Vector) (ra rb : R)
  (x : Vector) (t : R) (j : Vector) :
  Size pre = (2 * Size x)%nat ->
  Sources.current_ring MFEM_DEBUG (pre ++ ra :: rb :: post) x t j
  = Sources.current_ring MFEM_DEBUG (pre ++ rb :: ra :: post) x t j.
Proof.
  intros Hpre. unfold Sources.current_ring.
  destruct (MFEM_ASSERT MFEM_DEBUG (Nat.eqb (Size x) 3)
              "current_ring source requires 3D space.") as [f|u];
    [reflexivity |]. cbn [bind].
  rewrite (axis_for_ext (pre ++ ra :: rb :: post) (pre ++ rb :: ra :: post) (Size x)).
  2: { intros i Hi. unfold Size in Hpre, Hi. rewrite !nth_error_app1 by lia. reflexivity. }
  2: lia.
  destruct (axis_for (pre ++ rb :: ra :: post) (Size x) (Size x) 0 x (alloc (Size x)))
    as [f|[xu a]]; [reflexivity |]. cbn [bind].
  destruct (Req_dec_T (Norml2 a) 0) as [_|_]; [reflexivity |].
  rewrite !(get_app pre _ (2 * Size x)) by exact Hpre.
  cbn [get nth_error bind ret].
  assert (Epair : (if Rltb rb ra then (rb, ra) else (ra, rb))
                  = (if Rltb ra rb then (ra, rb) else (rb, ra))).
  { unfold Rltb. destruct (Rlt_dec rb ra), (Rlt_dec ra rb); try reflexivity; try lra.
    f_equal; lra. }
  rewrite Epair. reflexivity.
Qed.

(** X17: with a parameter vector that holds fewer than the [2 n]
    coordinates of the two end points, neither source returns a value,
    whatever the point (of at least one coordinate) and the time:
    [voltaic_pile] reads past the end of the vector, and so does
    [current_ring], unless the build has [MFEM_DEBUG] and the point does
    not have three coordinates, where it stops at its assertion
    first. *)
Theorem sources_short_parameters (x : Vector) (t : R) (p j : Vector) :
  let n := Size x in
  (0 < n)%nat ->
  ((Size vp_params_ < 2 * n)%nat -> voltaic_pile x t p = fail OutOfBounds) /\
  ((Size cr_params_ < 2 * n)%nat ->
   (MFEM_DEBUG = false \/ n = 3%nat -> current_ring x t j = fail OutOfBounds) /\
   (MFEM_DEBUG = true -> n <> 3%nat ->
    current_ring x t j
    = fail (AssertionFailed "current_ring source requires 3D space."))).
Proof.
  intros n Hn. split.
  - intros Hlen. unfold Sources.voltaic_pile. rewrite fill_SetSize. fold n.
    rewrite (axis_for_short vp_params_ n); try reflexivity;
      try (unfold Size in *; lia).
    unfold alloc. apply repeat_length.
  - intros Hlen. split.
    + intros Hassert. unfold Sources.current_ring. rewrite fill_SetSize. fold n.
      assert (Ha : MFEM_ASSERT MFEM_DEBUG (Nat.eqb n 3)
                     "current_ring source requires 3D space." = ret tt).
      { unfold MFEM_ASSERT. destruct Hassert as [->| ->]; [reflexivity |].
        cbn. rewrite andb_false_r. reflexivity. }
      rewrite Ha. cbn [bind ret].
      rewrite (axis_for_short cr_params_ n); try reflexivity;
        try (unfold Size in *; lia).
      unfold alloc. apply repeat_length.
    + intros Hdbg Hn3. unfold Sources.current_ring, MFEM_ASSERT. fold n.
      rewrite Hdbg. apply Nat.eqb_neq in Hn3. rewrite Hn3. reflexivity.
Qed.

(** X11: [main] hands [current_src] to the solver only when a
    parameter vector is not empty, and then [current_src] sets its
    output whatever the vector held before: the branch that leaves [j]
    untouched is never reached. *)
Theorem installed_current_src_sets_output
  (f : Vector -> R -> Vector -> result Vector) :
  current_src_arg MFEM_DEBUG vp_params_ cr_params_ = Some f ->
  forall x t j j', f x t j = f x t j'.
Proof.
  unfold current_src_arg. intros Hf x t j j'.
  destruct (Nat.ltb_spec 0 (Size vp_params_)) as [Hv|Hv];
    destruct (Nat.ltb_spec 0 (Size cr_params_)) as [Hc|Hc];
    cbn [orb] in Hf; try discriminate Hf;
    injection Hf as <-; unfold Sources.current_src.
  - destruct (Nat.eqb_spec (Size vp_params_ * Size cr_params_) 0) as [E|_];
      [apply Nat.eq_mul_0 in E; lia |].
    rewrite (voltaic_pile_output vp_params_ x t j j'). reflexivity.
  - replace (Size cr_params_) with 0%nat by lia. rewrite Nat.mul_0_r.
    change (Nat.eqb 0 0) with true. change (Nat.ltb 0 0) with false. cbv iota.
    destruct (Nat.ltb_spec 0 (Size vp_params_)) as [_|H0]; [| lia].
    rewrite (voltaic_pile_output vp_params_ x t j j'). reflexivity.
  - replace (Size vp_params_) with 0%nat by lia.
    change (0 * Size cr_params_)%nat with 0%nat.
    change (Nat.eqb 0 0) with true. change (Nat.ltb 0 0) with false. cbv iota.
    cbn [bind ret].
    destruct (Nat.ltb_spec 0 (Size cr_params_)) as [_|H0]; [| lia].
    apply current_ring_output.
Qed.

End SourcesMore.
Lemma voltaic_pile_profile_witness :
  let x := [0; 0; 1] in
  let vp := [0; 0; 0; 0; 0; 2; 1; 3; 5] in
  exists s,
    (s = 0 \/ (Norml2 (axis vp 3) <> 0 /\ s = nth 7 vp 0 / Norml2 (axis vp 3))) /\
    forall t p,
      voltaic_pile vp x t p
      = ret (map (fun ak => s * ak * sin (2 * PI * nth 8 vp 0 * t)) (axis vp 3)).
Proof.
  intros x vp. apply (voltaic_pile_profile vp x). simpl. lia.
Defined.

Lemma voltaic_pile_magnitude_witness :
  let x := [0; 0; 1] in
  let vp := [0; 0; 0; 0; 0; 2; 1; 3; 5] in
  exists q,
    voltaic_pile vp x 7 [] = ret q /\
    Size q = 3%nat /\
    (Norml2 q = 0 \/ Norml2 q = Rabs (nth 7 vp 0 * sin (2 * PI * nth 8 vp 0 * 7))).
Proof.
  intros x vp. apply (voltaic_pile_magnitude vp x 7 []). simpl. lia.
Defined.

Lemma sources_vanish_at_zero_witness :
  let x := [0; 0; 1] in
  let vp := [0; 0; 0; 0; 0; 2; 1; 3; 5] in
  let cr := [0; 0; 0; 0; 0; 2; 1; 2; 4; 5] in
  voltaic_pile vp x 0 [9] = ret (repeat 0 3) /\
  current_ring true cr x 0 [9] = ret (repeat 0 3) /\
  current_src true vp cr x 0 [9] = ret (repeat 0 3).
Proof.
  intros x vp cr.
  pose proof (sources_vanish_at_zero true vp cr x [9]) as (H1 & H2 & H3).
  assert (Hr : nth 6 cr 0 <> nth 7 cr 0) by (simpl; lra).
  split; [apply H1; simpl; lia |].
  split; [apply H2; [reflexivity | simpl; lia | exact Hr] |].
  apply H3; [reflexivity | simpl; lia | simpl; lia | exact Hr].
Defined.

Lemma current_ring_perpendicular_witness :
  let x := [1; 0; 1] in
  let cr := [0; 0; 0; 0; 0; 2; 1; 2; 4; 5] in
  exists q,
    current_ring true cr x 7 [] = ret q /\
    Size q = 3%nat /\
    dot q (axis cr 3) = 0.
Proof.
  intros x cr. apply (current_ring_perpendicular true cr x 7 []).
  - reflexivity.
  - simpl. lia.
  - simpl. lra.
Defined.

Lemma current_ring_radii_swap_witness :
  current_ring true ([0; 0; 0; 0; 0; 2] ++ 1 :: 2 :: [4; 5]) [1; 0; 1] 7 []
  = current_ring true ([0; 0; 0; 0; 0; 2] ++ 2 :: 1 :: [4; 5]) [1; 0; 1] 7 [].
Proof.
  apply (current_ring_radii_swap true [0; 0; 0; 0; 0; 2] [4; 5] 1 2 [1; 0; 1] 7 []).
  reflexivity.
Defined.

Lemma sources_short_parameters_witness :
  voltaic_pile [0; 0; 0] [1; 2; 3] 7 [] = fail OutOfBounds /\
  current_ring true [0; 0; 0; 0; 0] [1; 2; 3] 7 [] = fail OutOfBounds /\
  current_ring true [0; 0; 0] [1; 2] 7 []
  = fail (AssertionFailed "current_ring source requires 3D space.").
Proof.
  assert (H3 : Nat.lt 0 (Size [1; 2; 3])) by (simpl; lia).
  assert (H2 : Nat.lt 0 (Size [1; 2])) by (simpl; lia).
  pose proof (sources_short_parameters true [0; 0; 0] [0; 0; 0; 0; 0]
                [1; 2; 3] 7 [] [] H3) as (Hv & Hc).
  pose proof (sources_short_parameters true [] [0; 0; 0]
                [1; 2] 7 [] [] H2) as (_ & Hc').
  split; [| split].
  - apply Hv. simpl. lia.
  - apply Hc; [simpl; lia | right; reflexivity].
  - apply Hc'; [simpl; lia | reflexivity | simpl; lia].
Defined.

Lemma installed_current_src_sets_output_witness :
  current_src true [0; 0; 0; 0; 0; 2; 1; 3; 5] [] [0; 0; 1] 7 [9]
  = current_src true [0; 0; 0; 0; 0; 2; 1; 3; 5] [] [0; 0; 1] 7 [].
Proof.
  apply (installed_current_src_sets_output true [0; 0; 0; 0; 0; 2; 1; 3; 5] []
           (current_src true [0; 0; 0; 0; 0; 2; 1; 3; 5] [])).
  reflexivity.
Defined.

End SourcesMore.

(** ** Properties of the material and boundary functions *)

Module CoefficientsFacts.
Import Sources SourcesFacts SourceShapes Coefficients SourcesMore.

Local Open Scope R_scope.

(** The loop adds the squared distance to [r2]. *)
Lemma radius2_for_spec (params x : Vector) :
  forall (count i : nat) (r2 : R),
    (i + count <= List.length x)%nat -> (i + count <= List.length params)%nat ->
    radius2_for params x count i r2 = ret (r2 + square_sum params x count i).
Proof.
  induction count as [|count IH]; intros i r2 Hx Hp.
  - cbn. unfold ret. f_equal. lra.
  - cbn [radius2_for square_sum].
    rewrite (get_nth x i) by lia. rewrite (get_nth params i) by lia.
    cbn [bind ret]. rewrite IH by lia. unfold ret. f_equal. lra.
Qed.

Lemma square_sum_nonneg (params x : Vector) (count i : nat) :
  0 <= square_sum params x count i.
Proof.
  revert i. induction count as [|count IH]; intros i; cbn; [lra |].
  pose proof (IH (S i)) as H1.
  pose proof (Rle_0_sqr (nth i x 0 - nth i params 0)) as H2.
  unfold Rsqr in H2. lra.
Qed.

Lemma radius2_distance (params x : Vector) :
  (Size x <= Size params)%nat ->
  radius2_for params x (Size x) 0 0 = ret (distance2 params x).
Proof.
  intros Hp. rewrite radius2_for_spec by (unfold Size in *; lia).
  unfold distance2, ret. f_equal. lra.
Qed.

Section CoefficientsFacts.

Variables epsilon0_ mu0_ : R.
Variables ds_params_ ms_params_ cs_params_ : Vector.
Variable freq_ : R.
Variable prob_ : Z.

Local Abbreviation dielectric_sphere := (dielectric_sphere epsilon0_ ds_params_).
Local Abbreviation magnetic_shell := (magnetic_shell mu0_ ms_params_).
Local Abbreviation muInv := (muInv mu0_ ms_params_).
Local Abbreviation charged_sphere := (charged_sphere cs_params_).
Local Abbreviation dEdtBCFunc := (dEdtBCFunc epsilon0_ mu0_ freq_ prob_).




(** X22: [dEdtBCFunc] drives the third component only.  For a point
    with at least one coordinate it returns [(0, 0, v)] whatever [dE]
    held before, with [|v| <= 2 pi |freq_|] for problem 0 and [v = 0]
    for a problem other than 0 and 1; for an empty point problems 0 and
    1 read past the end of [x]. *)
Theorem dEdtBCFunc_third_component (x : Vector) (t : R) (dE : Vector) :
  (x <> [] ->
   exists v,
     dEdtBCFunc x t dE = ret [0; 0; v] /\
     (prob_ = 0%Z -> Rabs v <= 2 * PI * Rabs freq_) /\
     (prob_ <> 0%Z -> prob_ <> 1%Z -> v = 0)) /\
  (x = [] -> prob_ = 0%Z \/ prob_ = 1%Z ->
   dEdtBCFunc x t dE = fail OutOfBounds) /\
  (prob_ <> 0%Z -> prob_ <> 1%Z -> dEdtBCFunc x t dE = ret [0; 0; 0]).
Proof.
  unfold Coefficients.dEdtBCFunc. rewrite fill_SetSize.
  change (fill (repeat 0 3) 0) with [0; 0; 0].
  split; [| split].
  - intros Hx. destruct x as [|x0 x']; [contradiction |].
    cbn [get nth_error bind ret].
    destruct prob_ as [|[p|p|]|p]; cbn [set bind ret];
      (eexists; split; [reflexivity |]);
      (split; [intros E; try discriminate E
              | intros H0 H1; try reflexivity; try (exfalso; apply H0; reflexivity);
                try (exfalso; apply H1; reflexivity)]).
    rewrite Rabs_mult.
    assert (Hc : Rabs (cos (2 * PI * freq_ * (t - x0 * sqrt (epsilon0_ * mu0_)))) <= 1).
    { apply Rabs_le. pose proof (COS_bound (2 * PI * freq_ * (t - x0 * sqrt (epsilon0_ * mu0_)))).
      lra. }
    pose proof PI_RGT_0 as Hpi.
    assert (Ha : Rabs (2 * PI * freq_) = 2 * PI * Rabs freq_).
    { rewrite Rabs_mult, (Rabs_right (2 * PI)) by lra. reflexivity. }
    rewrite Ha. pose proof (Rabs_pos freq_) as Hf.
    assert (0 <= 2 * PI * Rabs freq_) by nra.
    nra.
  - intros -> [-> | ->]; reflexivity.
  - intros H0 H1. destruct prob_ as [|[p|p|]|p]; try reflexivity.
    + exfalso; apply H0; reflexivity.
    + exfalso; apply H1; reflexivity.
Qed.

End CoefficientsFacts.



Lemma dEdtBCFunc_third_component_witness :
  exists v,
    dEdtBCFunc 1 1 3 0 [5; 6; 7] 2 [9] = ret [0; 0; v] /\
    (0%Z = 0%Z -> Rabs v <= 2 * PI * Rabs 3) /\
    (0%Z <> 0%Z -> 0%Z <> 1%Z -> v = 0).
Proof.
  apply (dEdtBCFunc_third_component 1 1 3 0 [5; 6; 7] 2 [9]). discriminate.
Defined.

End CoefficientsFacts.

(** ** Properties of binary64 rounding *)

Module Binary64Facts.
Import Numeric NumericFacts Binary64.

Local Open Scope Q_scope.

Lemma pow2_pos (k : Z) : 0 < 2 ^ k.
Proof. apply Qpower_0_lt. reflexivity. Qed.

Lemma pow2_mono (k m : Z) : (k <= m)%Z -> 2 ^ k <= 2 ^ m.
Proof. intros H. apply Qpower_le_compat_l; [exact H | discriminate]. Qed.

Lemma pow2_lt_inv (k m : Z) : 2 ^ k < 2 ^ m -> (k < m)%Z.
Proof. intros H. apply (Qpower_lt_compat_l_inv 2); [exact H | reflexivity]. Qed.

Lemma pow2_plus (k m : Z) : 2 ^ (k + m) == 2 ^ k * 2 ^ m.
Proof. apply Qpower_plus. discriminate. Qed.

Lemma pow2_inject (k : Z) : (0 <= k)%Z -> 2 ^ k == inject_Z (2 ^ k).
Proof. intros H. symmetry. apply (Zpower_Qpower 2 k H). Qed.

Lemma Qabs_bounds (a : Q) : a <= Qabs a /\ - a <= Qabs a.
Proof.
  split; [apply Qle_Qabs |]. rewrite <- Qabs_opp. apply Qle_Qabs.
Qed.

Lemma Qabs_le_iff (a b : Q) : Qabs a <= b <-> - b <= a /\ a <= b.
Proof. apply Qabs_Qle_condition. Qed.

(** The nearest integer is at least as close as any other integer. *)
Lemma nearest_even_spec (q : Q) (z : Z) :
  Qabs (inject_Z (nearest_even q) - q) <= Qabs (inject_Z z - q).
Proof.
  unfold nearest_even.
  pose proof (Qfloor_le q) as Hf1. pose proof (Qlt_floor q) as Hf2.
  rewrite inject_Z_plus in Hf2. change (inject_Z 1) with 1 in Hf2.
  set (f := Qfloor q) in *.
  destruct (Qabs_bounds (inject_Z z - q)) as [B1 B2].
  set (B := Qabs (inject_Z z - q)) in *.
  assert (Hz : inject_Z z <= inject_Z f \/ inject_Z f + 1 <= inject_Z z).
  { destruct (Z_le_gt_dec z f) as [H|H].
    - left. rewrite <- Zle_Qle. exact H.
    - right. change 1 with (inject_Z 1). rewrite <- inject_Z_plus, <- Zle_Qle. lia. }
  destruct (q - inject_Z f ?= 1 # 2) eqn:C.
  - apply Qeq_alt in C. apply Qabs_le_iff.
    destruct (Z.even f); [| rewrite inject_Z_plus; change (inject_Z 1) with 1];
      destruct Hz; split; Lqa.lra.
  - apply Qlt_alt in C. apply Qabs_le_iff. destruct Hz; split; Lqa.lra.
  - apply Qgt_alt in C. apply Qabs_le_iff.
    rewrite inject_Z_plus; change (inject_Z 1) with 1.
    destruct Hz; split; Lqa.lra.
Qed.

Lemma nearest_even_half (q : Q) :
  q - (1 # 2) <= inject_Z (nearest_even q) /\ inject_Z (nearest_even q) <= q + (1 # 2).
Proof.
  pose proof (nearest_even_spec q (Qfloor q)) as H1.
  pose proof (nearest_even_spec q (Qfloor q + 1)) as H2.
  pose proof (Qfloor_le q) as Hf1. pose proof (Qlt_floor q) as Hf2.
  rewrite inject_Z_plus in H2, Hf2. change (inject_Z 1) with 1 in H2, Hf2.
  rewrite (Qabs_neg (inject_Z (Qfloor q) - q)) in H1 by Lqa.lra.
  rewrite (Qabs_pos (inject_Z (Qfloor q) + 1 - q)) in H2 by Lqa.lra.
  apply Qabs_le_iff in H1. apply Qabs_le_iff in H2.
  split; Lqa.lra.
Qed.

(** [Qlog2 x] is the binary exponent of a positive [x]. *)
Lemma Qlog2_spec (x : Q) : 0 < x -> 2 ^ Qlog2 x <= x /\ x < 2 ^ (Qlog2 x + 1).
Proof.
  intros Hx. unfold Qlog2.
  destruct x as [n d]. cbn [Qnum Qden].
  assert (Hn : (0 < n)%Z) by (unfold Qlt in Hx; simpl in Hx; lia).
  destruct (Z.log2_spec n Hn) as [Hn1 Hn2].
  destruct (Z.log2_spec (Zpos d) ltac:(lia)) as [Hd1 Hd2].
  pose proof (Z.log2_nonneg n) as Hln. pose proof (Z.log2_nonneg (Zpos d)) as Hld.
  set (ln := Z.log2 n) in *. set (ld := Z.log2 (Zpos d)) in *.
  assert (Hup : n # d < 2 ^ (ln - ld + 1)).
  { replace (ln - ld + 1)%Z with ((ln + 1) + - ld)%Z by lia.
    rewrite pow2_plus, Qpower_opp, !pow2_inject by lia.
    replace (Z.succ ln) with (ln + 1)%Z in Hn2 by lia.
    assert (0 < 2 ^ ld)%Z by lia.
    destruct (2 ^ ld)%Z as [|T|T] eqn:ET; try lia.
    unfold Qlt, Qinv, Qmult, inject_Z. cbn. nia. }
  assert (Hlo : 2 ^ (ln - ld - 1) < n # d).
  { replace (ln - ld - 1)%Z with (ln + - (ld + 1))%Z by lia.
    rewrite pow2_plus, Qpower_opp, !pow2_inject by lia.
    replace (Z.succ ld) with (ld + 1)%Z in Hd2 by lia.
    assert (0 < 2 ^ (ld + 1))%Z by lia.
    destruct (2 ^ (ld + 1))%Z as [|T|T] eqn:ET; try lia.
    unfold Qlt, Qinv, Qmult, inject_Z. cbn. nia. }
  destruct (Qle_bool (2 ^ (ln - ld)) (n # d)) eqn:C.
  - apply Qle_bool_iff in C. split; assumption.
  - assert (C' : n # d < 2 ^ (ln - ld)).
    { apply Qnot_le_lt. intros H. apply Qle_bool_iff in H. congruence. }
    replace (ln - ld - 1 + 1)%Z with (ln - ld)%Z by lia.
    split; [apply Qlt_le_weak; exact Hlo | exact C'].
Qed.

Lemma ulp_exponent_spec (x : Q) :
  0 < x ->
  (-1074 <= ulp_exponent x)%Z /\
  x < 2 ^ (ulp_exponent x + 53) /\
  ((-1074 < ulp_exponent x)%Z -> 2 ^ (ulp_exponent x + 52) <= x).
Proof.
  intros Hx. destruct (Qlog2_spec x Hx) as [Hlo Hhi]. unfold ulp_exponent.
  split; [lia |]. split.
  - eapply Qlt_le_trans; [exact Hhi |]. apply pow2_mono. lia.
  - intros He. replace (Z.max (Qlog2 x - 52) (-1074) + 52)%Z with (Qlog2 x) by lia.
    exact Hlo.
Qed.

(** A positive number at least [2^-1022] is in the normal range: its
    unit in the last place is at most [2^-52] times the number. *)
Lemma ulp_normal (x : Q) :
  2 ^ (-1022) <= x -> 2 ^ ulp_exponent x <= 2 ^ (-52) * x.
Proof.
  intros Hn.
  assert (Hx : 0 < x) by (eapply Qlt_le_trans; [apply (pow2_pos (-1022)) | exact Hn]).
  destruct (Qlog2_spec x Hx) as [Hlo Hhi].
  assert (Hl : (-1022 < Qlog2 x + 1)%Z).
  { apply pow2_lt_inv. eapply Qle_lt_trans; eassumption. }
  unfold ulp_exponent. rewrite Z.max_l by lia.
  replace (Qlog2 x - 52)%Z with (-52 + Qlog2 x)%Z by lia.
  rewrite pow2_plus. apply Qmult_le_l; [apply pow2_pos | exact Hlo].
Qed.

Lemma round_pos_eq (x : Q) :
  round_pos x == inject_Z (nearest_even (x / 2 ^ ulp_exponent x)) * 2 ^ ulp_exponent x.
Proof. unfold round_pos. apply Qred_correct. Qed.

(** [round_pos x] is a multiple of the unit in the last place of [x]
    that is at least as close to [x] as any other multiple. *)
Lemma round_pos_nearest_multiple (x : Q) (z : Z) :
  0 < x ->
  Qabs (round_pos x - x) <= Qabs (inject_Z z * 2 ^ ulp_exponent x - x).
Proof.
  intros Hx. rewrite round_pos_eq.
  set (u := 2 ^ ulp_exponent x).
  assert (Hu : 0 < u) by apply pow2_pos.
  assert (Hu0 : ~ u == 0) by (intros E; rewrite E in Hu; discriminate Hu).
  pose proof (nearest_even_spec (x / u) z) as H.
  set (m := nearest_even (x / u)) in *.
  assert (E1 : inject_Z m * u - x == (inject_Z m - x / u) * u) by (field; exact Hu0).
  assert (E2 : inject_Z z * u - x == (inject_Z z - x / u) * u) by (field; exact Hu0).
  rewrite E1, E2, !Qabs_Qmult, (Qabs_pos u) by (apply Qlt_le_weak; exact Hu).
  apply Qmult_le_compat_r; [exact H | apply Qlt_le_weak; exact Hu].
Qed.

Lemma round_pos_half_ulp (x : Q) :
  0 < x ->
  x - (1 # 2) * 2 ^ ulp_exponent x <= round_pos x /\
  round_pos x <= x + (1 # 2) * 2 ^ ulp_exponent x.
Proof.
  intros Hx. rewrite round_pos_eq.
  set (u := 2 ^ ulp_exponent x).
  assert (Hu : 0 < u) by apply pow2_pos.
  assert (Hu0 : ~ u == 0) by (intros E; rewrite E in Hu; discriminate Hu).
  destruct (nearest_even_half (x / u)) as [H1 H2].
  set (m := nearest_even (x / u)) in *.
  assert (E : x == (x / u) * u) by (field; exact Hu0).
  split.
  - apply Qle_trans with ((x / u - (1 # 2)) * u).
    + rewrite E at 1. apply Qle_lteq. right. ring.
    + apply Qmult_le_compat_r; [exact H1 | apply Qlt_le_weak; exact Hu].
  - apply Qle_trans with ((x / u + (1 # 2)) * u).
    + apply Qmult_le_compat_r; [exact H2 | apply Qlt_le_weak; exact Hu].
    + rewrite E at 2. apply Qle_lteq. right. ring.
Qed.

(** Relative error of rounding in the normal range: one unit roundoff,
    [2^-53]. *)
Lemma round_pos_relative (x : Q) :
  2 ^ (-1022) <= x ->
  (1 - 2 ^ (-53)) * x <= round_pos x /\ round_pos x <= (1 + 2 ^ (-53)) * x.
Proof.
  intros Hn.
  assert (Hx : 0 < x) by (eapply Qlt_le_trans; [apply (pow2_pos (-1022)) | exact Hn]).
  destruct (round_pos_half_ulp x Hx) as [H1 H2].
  pose proof (ulp_normal x Hn) as Hu.
  set (u := 2 ^ ulp_exponent x) in *.
  change (2 ^ (-53)) with ((1 # 2) * 2 ^ (-52)).
  set (c := 2 ^ (-52)) in *.
  split; Lqa.lra.
Qed.

(** Whatever the range, the error is a unit roundoff or half the least
    subnormal. *)
Lemma round_pos_absolute (x : Q) :
  0 < x ->
  x - (2 ^ (-53) * x + 2 ^ (-1075)) <= round_pos x /\
  round_pos x <= x + (2 ^ (-53) * x + 2 ^ (-1075)).
Proof.
  intros Hx. destruct (Qlt_le_dec x (2 ^ (-1022))) as [Hs|Hn].
  - destruct (round_pos_half_ulp x Hx) as [H1 H2].
    destruct (Qlog2_spec x Hx) as [Hlo Hhi].
    assert (Hl : (Qlog2 x < -1022)%Z).
    { apply pow2_lt_inv. eapply Qle_lt_trans; eassumption. }
    assert (Ee : ulp_exponent x = (-1074)%Z) by (unfold ulp_exponent; lia).
    rewrite Ee in H1, H2.
    change ((1 # 2) * 2 ^ (-1074)) with (2 ^ (-1075)) in H1, H2.
    assert (0 <= 2 ^ (-53) * x).
    { apply Qmult_le_0_compat; [apply Qlt_le_weak, pow2_pos | apply Qlt_le_weak, Hx]. }
    split; Lqa.lra.
  - destruct (round_pos_relative x Hn) as [H1 H2].
    pose proof (pow2_pos (-1075)).
    set (c := 2 ^ (-53)) in *. set (t := 2 ^ (-1075)) in *.
    split; Lqa.lra.
Qed.

(** [round_pos x] is a nearest double: no double is closer to [x]. *)
Lemma round_pos_nearest (x f : Q) :
  0 < x -> representable f -> Qabs (round_pos x - x) <= Qabs (f - x).
Proof.
  intros Hx (m & c & Hm & Hc & Ef & _).
  destruct (ulp_exponent_spec x Hx) as (He & Hhi & Hlo).
  set (e := ulp_exponent x) in *.
  destruct (Z_le_gt_dec e c) as [Hec|Hec].
  - assert (E : f == inject_Z (m * 2 ^ (c - e)) * 2 ^ e).
    { rewrite Ef, inject_Z_mult, <- pow2_inject by lia.
      rewrite <- Qmult_assoc, <- pow2_plus.
      replace (c - e + e)%Z with c by lia. reflexivity. }
    rewrite E. apply round_pos_nearest_multiple. exact Hx.
  - assert (Hbin : 2 ^ (e + 52) <= x) by (apply Hlo; lia).
    assert (Hf : f <= 2 ^ (e + 52)).
    { rewrite Ef. apply Qle_trans with (inject_Z (2 ^ 53) * 2 ^ c).
      - apply Qmult_le_compat_r; [| apply Qlt_le_weak, pow2_pos].
        rewrite <- Zle_Qle. lia.
      - rewrite <- pow2_inject, <- pow2_plus by lia. apply pow2_mono. lia. }
    pose proof (round_pos_nearest_multiple x (2 ^ 52) Hx) as H.
    fold e in H. rewrite <- pow2_inject, <- pow2_plus in H by lia.
    replace (52 + e)%Z with (e + 52)%Z in H by lia.
    eapply Qle_trans; [exact H |].
    rewrite (Qabs_neg (2 ^ (e + 52) - x)) by Lqa.lra.
    rewrite (Qabs_neg (f - x)) by Lqa.lra. Lqa.lra.
Qed.

Lemma round_pos_le (x f : Q) :
  0 < x -> representable f -> x <= f -> round_pos x <= f.
Proof.
  intros Hx Hf Hle. pose proof (round_pos_nearest x f Hx Hf) as H.
  rewrite (Qabs_pos (f - x)) in H by Lqa.lra.
  apply Qabs_le_iff in H. Lqa.lra.
Qed.

Lemma round_pos_ge (x f : Q) :
  0 < x -> representable f -> f <= x -> f <= round_pos x.
Proof.
  intros Hx Hf Hle. pose proof (round_pos_nearest x f Hx Hf) as H.
  rewrite (Qabs_neg (f - x)) in H by Lqa.lra.
  apply Qabs_le_iff in H. Lqa.lra.
Qed.

(** Rounding leaves a double unchanged. *)
Lemma round_pos_representable (f : Q) :
  0 < f -> representable f -> round_pos f == f.
Proof.
  intros Hx Hf. apply Qle_antisym.
  - apply round_pos_le; [exact Hx | exact Hf | apply Qle_refl].
  - apply round_pos_ge; [exact Hx | exact Hf | apply Qle_refl].
Qed.

(** A rounded value below [2^1024] is a double. *)
Lemma round_pos_is_representable (x : Q) :
  0 < x -> round_pos x < 2 ^ 1024 -> representable (round_pos x).
Proof.
  intros Hx Hmax.
  destruct (ulp_exponent_spec x Hx) as (He & Hhi & _).
  destruct (round_pos_half_ulp x Hx) as [Hr1 _].
  pose proof (round_pos_eq x) as E.
  set (e := ulp_exponent x) in *. set (u := 2 ^ e) in *.
  assert (Hu : 0 < u) by apply pow2_pos.
  assert (Hu0 : ~ u == 0) by (intros E0; rewrite E0 in Hu; discriminate Hu).
  destruct (nearest_even_half (x / u)) as [H1 H2].
  set (m := nearest_even (x / u)) in *.
  assert (Hq0 : 0 < x / u).
  { apply Qlt_shift_div_l; [exact Hu |]. rewrite Qmult_0_l. exact Hx. }
  assert (Hq1 : x / u < inject_Z (2 ^ 53)).
  { apply Qlt_shift_div_r; [exact Hu |]. unfold u.
    rewrite <- pow2_inject, <- pow2_plus by lia.
    replace (53 + e)%Z with (e + 53)%Z by lia. exact Hhi. }
  assert (Hm0 : (-1 < m)%Z).
  { rewrite Zlt_Qlt. change (inject_Z (-1)) with (-1).
    set (M := inject_Z m) in *. set (q := x / u) in *. clearbody M q. Lqa.lra. }
  assert (Hm1 : (m < 2 ^ 53 + 1)%Z).
  { rewrite Zlt_Qlt, inject_Z_plus. change (inject_Z 1) with 1.
    set (M := inject_Z m) in *. set (q := x / u) in *.
    set (T := inject_Z (2 ^ 53)) in *. clearbody M q T. Lqa.lra. }
  exists m, e. split; [lia |]. split; [exact He |]. split; [exact E |].
  rewrite Qabs_pos; [exact Hmax |].
  rewrite E. apply Qmult_le_0_compat; [| apply Qlt_le_weak; exact Hu].
  change 0 with (inject_Z 0). rewrite <- Zle_Qle. lia.
Qed.

Lemma representable_lt_max (f : Q) : representable f -> f < 2 ^ 1024.
Proof.
  intros (m & c & _ & _ & _ & H). eapply Qle_lt_trans; [apply Qle_Qabs | exact H].
Qed.

Lemma RN_pos (x : Q) :
  0 < x -> round_pos x < 2 ^ 1024 -> RN x = Finite (round_pos x).
Proof.
  intros Hx Hr. unfold RN.
  assert (C : (x ?= 0) = Gt) by (apply Qgt_alt; exact Hx).
  rewrite C. cbv zeta.
  destruct (Qle_bool (2 ^ 1024) (round_pos x)) eqn:E; [| reflexivity].
  apply Qle_bool_iff in E. exfalso. exact (Qlt_not_le _ _ Hr E).
Qed.

Lemma RN_pos_le (x f : Q) :
  0 < x -> representable f -> x <= f -> RN x = Finite (round_pos x).
Proof.
  intros Hx Hf Hle. apply RN_pos; [exact Hx |].
  eapply Qle_lt_trans; [apply (round_pos_le x f); assumption |].
  apply representable_lt_max. exact Hf.
Qed.

Lemma fdiv_pos (a b f : Q) :
  0 < a -> 0 < b -> representable f -> a / b <= f ->
  fdiv (Finite a) (Finite b) = Finite (round_pos (a / b)).
Proof.
  intros Ha Hb Hf Hle. unfold fdiv.
  destruct (Qeq_bool b 0) eqn:E.
  - apply Qeq_bool_eq in E. rewrite E in Hb. discriminate Hb.
  - apply (RN_pos_le _ f); [| exact Hf | exact Hle].
    apply Qlt_shift_div_l; [exact Hb |]. rewrite Qmult_0_l. exact Ha.
Qed.

Lemma representable_pow2 (k : Z) :
  (-1074 <= k < 1024)%Z -> representable (2 ^ k).
Proof.
  intros Hk. exists 1%Z, k. split; [vm_compute; discriminate |].
  split; [lia |]. split; [ring |].
  rewrite Qabs_pos by apply Qlt_le_weak, pow2_pos.
  apply Qpower_lt_compat_l; [lia | reflexivity].
Qed.

Lemma representable_0 : representable 0.
Proof.
  exists 0%Z, 0%Z. split; [vm_compute; discriminate |].
  split; [lia |]. split; reflexivity.
Qed.

Lemma representable_int (z : Z) :
  (Z.abs z <= 2 ^ 53)%Z -> representable (inject_Z z).
Proof.
  intros Hz. exists z, 0%Z. split; [exact Hz |]. split; [lia |]. split; [ring |].
  apply Qle_lt_trans with (inject_Z (2 ^ 53)); [| reflexivity].
  apply Qabs_le_iff. split.
  - rewrite <- inject_Z_opp, <- Zle_Qle. lia.
  - rewrite <- Zle_Qle. lia.
Qed.

(** *** The reference logarithm *)

Lemma half_gap_above_bounds (j : Z) :
  0 <= half_gap_above j /\ half_gap_above j <= 2 ^ (-44).
Proof.
  unfold half_gap_above.
  destruct ((j =? 0)%Z || (1024 <=? Z.abs j)%Z) eqn:E.
  - split; [apply Qle_refl | apply Qlt_le_weak, pow2_pos].
  - apply orb_false_iff in E. destruct E as [E0 E1].
    apply Z.eqb_neq in E0. apply Z.leb_gt in E1.
    assert (Hl : forall a, (0 < a < 1024)%Z -> (Z.log2 a <= 9)%Z).
    { intros a Ha. assert (Z.log2 a < 10)%Z; [| lia].
      apply Z.log2_lt_pow2; [lia |]. change (2 ^ 10)%Z with 1024%Z. lia. }
    destruct (0 <? j)%Z eqn:Ep.
    + apply Z.ltb_lt in Ep.
      split; [apply Qlt_le_weak, pow2_pos | apply pow2_mono].
      pose proof (Hl j ltac:(lia)). lia.
    + apply Z.ltb_ge in Ep.
      pose proof (Hl (- j)%Z ltac:(lia)).
      destruct (- j =? 2 ^ Z.log2 (- j))%Z;
        (split; [apply Qlt_le_weak, pow2_pos | apply pow2_mono; lia]).
Qed.

(** The reference logarithm is accurate. *)
Lemma ceil_log10_rn_accurate : accurate ceil_log10_rn.
Proof.
  intros x _ Hx. unfold ceil_log10_rn.
  destruct (ceil_log10_spec x Hx) as [Hlo Hhi].
  set (k := ceil_log10 x) in *.
  destruct (half_gap_above_bounds (k - 1)) as [Hh0 Hh1].
  set (h := half_gap_above (k - 1)) in *.
  pose proof (pow10_pos (k - 1)) as P1. pose proof (pow10_pos k) as P0.
  pose proof (pow10_pos (k - 1 - 1)) as P2.
  assert (M : 10 ^ (k - 1 - 1) <= 10 ^ (k - 1)) by (apply pow10_mono; lia).
  set (A := 10 ^ (k - 1)) in *. set (B := 10 ^ k) in *.
  set (C := 10 ^ (k - 1 - 1)) in *.
  unfold libm_tolerance, ln10_below in *.
  change (2 ^ (-44)) with (1 # 17592186044416) in Hh1.
  destruct (Qle_bool x (A * (1 + (2302585092994 # 1000000000000) * h))) eqn:E.
  - apply Qle_bool_iff in E. fold C. fold A. clearbody A B C h. split; [Lqa.lra |].
    eapply Qle_trans; [exact E |].
    apply Qmult_le_l; [exact P1 |]. Lqa.lra.
  - fold A. fold B. clearbody A B C h. split; Lqa.lra.
Qed.
End Binary64Facts.

(** ** Properties of the step quantizer in binary64 arithmetic *)

Module RoundedFacts.
Import Numeric NumericFacts Binary64 Binary64Facts Rounded.
Import Quantizer(exponent_bounds, bind, smallest_geq, spec_candidates).
Import QuantizerFacts.

Local Open Scope Q_scope.

(** The powers the source computes with [pow] are exact where they are
    integers below [2^31], and truncate to zero below one. *)
Lemma to_int_pow10_rn (a : Z) :
  (-6 <= a <= 9)%Z -> to_int (pow 10 a) = Some (10 ^ a)%Z.
Proof.
  intros H. enum_int a (-6)%Z 16%nat ltac:(vm_compute; reflexivity).
Qed.

Lemma pow5_exact (i : Z) :
  (1 <= i <= 5)%Z -> pow 5 i = Finite (Qpower 5 i).
Proof.
  intros H. enum_int i 1%Z 5%nat ltac:(vm_compute; reflexivity).
Qed.

Lemma to_int_pow5 (i : Z) :
  (1 <= i <= 5)%Z -> to_int (pow 5 i) = Some (5 ^ i)%Z.
Proof.
  intros H. enum_int i 1%Z 5%nat ltac:(vm_compute; reflexivity).
Qed.

Lemma representable_2_40 : representable (2 ^ 40).
Proof. apply representable_pow2. lia. Qed.

(** Below one the power of ten truncates to the [int] zero, rounded or
    not. *)
Lemma to_int_pow10_neg_rn (k : Z) : (k < 0)%Z -> to_int (pow 10 k) = Some 0%Z.
Proof.
  intros Hk. unfold pow.
  assert (Hpos : 0 < Qpower 10 k) by apply pow10_pos.
  assert (Hle : Qpower 10 k <= 2 ^ (-3)).
  { apply Qle_trans with (Qpower 10 (-1)); [apply pow10_mono; lia | qcmp]. }
  assert (R3 : representable (2 ^ (-3))) by (apply representable_pow2; lia).
  rewrite (RN_pos_le _ _ Hpos R3 Hle).
  pose proof (round_pos_le _ _ Hpos R3 Hle) as H1.
  pose proof (round_pos_ge _ 0 Hpos representable_0 (Qlt_le_weak _ _ Hpos)) as H0.
  set (r := round_pos (Qpower 10 k)) in *. clearbody r.
  unfold to_int.
  assert (E : Qtrunc r = 0%Z).
  { unfold Qtrunc. destruct r as [p q].
    change (2 ^ (-3)) with (1 # 8) in H1.
    unfold Qle in H0, H1. simpl in H0, H1. cbn [Qnum Qden].
    apply Z.quot_small. lia. }
  rewrite E. reflexivity.
Qed.

(** Rounding in the normal range below one. *)
Lemma round_pos_small (x : Q) :
  2 ^ (-1022) <= x -> x <= 1 ->
  RN x = Finite (round_pos x) /\
  representable (round_pos x) /\
  (1 - (1 # 9007199254740992)) * x <= round_pos x /\
  round_pos x <= (1 + (1 # 9007199254740992)) * x.
Proof.
  intros Hlo Hhi.
  assert (Hx : 0 < x) by (eapply Qlt_le_trans; [apply (pow2_pos (-1022)) | exact Hlo]).
  assert (R1 : representable 1) by (apply (representable_pow2 0); lia).
  pose proof (round_pos_le x 1 Hx R1 Hhi) as H1.
  split; [apply (RN_pos_le x 1); assumption |].
  split.
  - apply round_pos_is_representable; [exact Hx |].
    eapply Qle_lt_trans; [exact H1 | reflexivity].
  - apply (round_pos_relative x Hlo).
Qed.

Section Libm.

Variable cl : Q -> Z.
Hypothesis cl_accurate : accurate cl.

Lemma dceil_log10_pos_rn (q : Q) :
  0 < q -> dceil_log10 cl (Finite q) = of_int (cl q).
Proof.
  intros Hq. unfold dceil_log10. destruct (Qlt_le_dec 0 q) as [_|Hle].
  - reflexivity.
  - exfalso. exact (Qlt_not_le _ _ Hq Hle).
Qed.

(** Rounding a quotient that lies between [10^-6] and [2^40]. *)
Lemma round_pos_mid (x : Q) :
  1 # 1000000 <= x -> x <= 2 ^ 40 ->
  RN x = Finite (round_pos x) /\
  (1 - (1 # 9007199254740992)) * x <= round_pos x /\
  round_pos x <= (1 + (1 # 9007199254740992)) * x.
Proof.
  intros Hlo Hhi.
  assert (Hx : 0 < x) by (eapply Qlt_le_trans; [| exact Hlo]; reflexivity).
  split.
  - apply (RN_pos_le x (2 ^ 40)); [exact Hx | apply representable_2_40 | exact Hhi].
  - apply (round_pos_relative x).
    eapply Qle_trans; [| exact Hlo]. qcmp.
Qed.

Lemma round_pos_mid_representable (x : Q) :
  1 # 1000000 <= x -> x <= 2 ^ 40 -> representable (round_pos x).
Proof.
  intros Hlo Hhi.
  assert (Hx : 0 < x) by (eapply Qlt_le_trans; [| exact Hlo]; reflexivity).
  apply round_pos_is_representable; [exact Hx |].
  eapply Qle_lt_trans;
    [apply (round_pos_le x (2 ^ 40)); [exact Hx | apply representable_2_40 | exact Hhi] |].
  reflexivity.
Qed.

Lemma snap_body_in_range_rn (d : Q) (i amax n : Z) :
  In (i, amax) exponent_bounds ->
  1 # 100000 <= d / Qpower 5 i ->
  d / Qpower 5 i <= Qpower 10 amax * (1 - (5 # 10000000000000)) ->
  snap_body cl (Finite d) i n = Some (Z.min n (candidate cl d i)).
Proof.
  intros Hin Hlo Hhi.
  assert (Hi : (1 <= i <= 5)%Z /\ (5 <= amax <= 8)%Z).
  { unfold exponent_bounds in Hin. simpl in Hin.
    repeat (destruct Hin as [Hin|Hin]; [inversion Hin; lia |]). contradiction. }
  destruct Hi as [Hi Hamax].
  set (x := d / Qpower 5 i) in *.
  assert (Hx : 0 < x) by (eapply Qlt_le_trans; [| exact Hlo]; reflexivity).
  assert (Hd : 0 < d).
  { assert (E : d == x * Qpower 5 i).
    { unfold x. field. intros E. pose proof (pow5_pos i) as P. rewrite E in P. discriminate P. }
    rewrite E. apply Qmult_lt_0_compat; [exact Hx | apply pow5_pos]. }
  assert (Hx40 : x <= 2 ^ 40).
  { eapply Qle_trans; [exact Hhi |].
    apply Qle_trans with (10 ^ 8 * 1).
    - apply Qle_trans with (Qpower 10 amax * 1).
      + apply Qmult_le_l; [apply pow10_pos | qcmp].
      + apply Qmult_le_compat_r; [apply pow10_mono; lia | discriminate].
    - qcmp. }
  destruct (round_pos_mid x) as (ERN & Hr1 & Hr2);
    [eapply Qle_trans; [| exact Hlo]; qcmp | exact Hx40 |].
  assert (Rr : representable (round_pos x)).
  { apply round_pos_mid_representable; [| exact Hx40].
    eapply Qle_trans; [| exact Hlo]. qcmp. }
  unfold snap_body, candidate. rewrite (pow5_exact i Hi).
  assert (Ediv : fdiv (Finite d) (Finite (Qpower 5 i)) = Finite (round_pos x)).
  { apply (fdiv_pos d (Qpower 5 i) (2 ^ 40));
      [exact Hd | apply pow5_pos | apply representable_2_40 | exact Hx40]. }
  rewrite Ediv. fold x.
  set (r := round_pos x) in *.
  assert (Hr : 0 < r) by (clearbody r x; Lqa.lra).
  rewrite (dceil_log10_pos_rn r Hr).
  destruct (cl_accurate r Rr Hr) as [Ha1 Ha2].
  set (a := cl r) in *.
  assert (Ha : (-5 <= a <= amax)%Z).
  { split.
    - assert (10 ^ (-6) < 10 ^ a); [| assert (-6 < a)%Z by (apply pow10_lt_inv; assumption); lia].
      pose proof (pow10_pos a) as Pa.
      change (10 ^ (-6)) with (1 # 1000000).
      unfold libm_tolerance in Ha2. clearbody r x a. set (A := 10 ^ a) in *. clearbody A.
      Lqa.lra.
    - assert (10 ^ (a - 1) < 10 ^ amax); [| assert (a - 1 < amax)%Z by (apply pow10_lt_inv; assumption); lia].
      pose proof (pow10_pos (a - 1)) as Pa. pose proof (pow10_pos amax) as Pm.
      unfold libm_tolerance in Ha1. clearbody r x a.
      set (A := 10 ^ (a - 1)) in *. set (M := 10 ^ amax) in *. clearbody A M.
      Lqa.lra. }
  clearbody a. clear Ha1 Ha2.
  rewrite to_int_of_int by (unfold INT_MIN, INT_MAX; lia).
  cbn [bind]. rewrite <- (pow5_exact i Hi), (to_int_pow5 i Hi). cbn [bind].
  rewrite to_int_pow10_rn by lia. cbn [bind].
  unfold exponent_bounds in Hin. simpl in Hin.
  repeat (destruct Hin as [Hin|Hin];
          [ inversion Hin; subst i amax; clear Hin Hlo Hhi Hx Hx40 Hr1 Hr2 Ediv ERN Hr;
            clearbody r; clear x;
            enum_int a (-5)%Z 14%nat ltac:(first [reflexivity | exfalso; lia]) |]).
  contradiction.
Qed.


(** The rounded ratio, inside the range. *)
Lemma in_range_bounds (q : Q) :
  in_range q -> 1 # 10 < q /\ q < 250000000.
Proof.
  unfold in_range, tolerance. intros [H1 H2].
  assert (H1' : (1 + (1 # 1000000000000)) * (1 # 10) <= q) by exact H1.
  split; Lqa.lra.
Qed.

Lemma round_ratio (q : Q) :
  in_range q ->
  RN q = Finite (round_pos q) /\
  (1 - (1 # 9007199254740992)) * q <= round_pos q /\
  round_pos q <= (1 + (1 # 9007199254740992)) * q.
Proof.
  intros Hr. destruct (in_range_bounds q Hr) as [H1 H2].
  apply round_pos_mid.
  - Lqa.lra.
  - apply Qle_trans with 250000000; [Lqa.lra | qcmp].
Qed.

Lemma round_ratio_representable (q : Q) :
  in_range q -> representable (round_pos q).
Proof.
  intros Hr. destruct (in_range_bounds q Hr) as [H1 H2].
  apply round_pos_mid_representable.
  - Lqa.lra.
  - apply Qle_trans with 250000000; [Lqa.lra | qcmp].
Qed.

Ltac pow5_literals :=
  repeat match goal with
         | |- context [Qpower 5 ?k] =>
             let v := eval vm_compute in (Qpower 5 k) in
             change (Qpower 5 k) with v
         | H : context [Qpower 5 ?k] |- _ =>
             let v := eval vm_compute in (Qpower 5 k) in
             change (Qpower 5 k) with v in H
         end.

Ltac pow10_literals :=
  repeat match goal with
         | |- context [Qpower 10 ?k] =>
             let v := eval vm_compute in (Qpower 10 k) in
             change (Qpower 10 k) with v
         end.

Lemma in_range_quotient (q : Q) (i amax : Z) :
  in_range q -> In (i, amax) exponent_bounds ->
  1 # 100000 <= round_pos q / Qpower 5 i /\
  round_pos q / Qpower 5 i <= Qpower 10 amax * (1 - (5 # 10000000000000)).
Proof.
  intros Hr Hin. destruct (round_ratio q Hr) as (_ & Hd1 & Hd2).
  unfold in_range, tolerance in Hr. destruct Hr as [H1 H2].
  assert (H1' : (1 + (1 # 1000000000000)) * (1 # 10) <= q) by exact H1.
  set (d := round_pos q) in *. clearbody d.
  unfold exponent_bounds in Hin. simpl in Hin.
  repeat (destruct Hin as [Hin|Hin];
          [ inversion Hin; subst i amax; clear Hin; split;
            [ apply Qle_shift_div_l; [reflexivity |]; pow5_literals; Lqa.lra
            | apply Qle_shift_div_r; [reflexivity |]; pow5_literals; pow10_literals;
              Lqa.lra ] |]).
  contradiction.
Qed.

Lemma cl_ratio_range (q : Q) :
  in_range q -> (0 <= cl (round_pos q) <= 9)%Z.
Proof.
  intros Hr. destruct (round_ratio q Hr) as (_ & Hd1 & Hd2).
  destruct (in_range_bounds q Hr) as [H1 H2].
  pose proof (round_ratio_representable q Hr) as Rd.
  unfold in_range, tolerance in Hr. destruct Hr as [H1' H2'].
  assert (H1'' : (1 + (1 # 1000000000000)) * (1 # 10) <= q) by exact H1'.
  set (d := round_pos q) in *.
  assert (Hd : 0 < d) by (clearbody d; Lqa.lra).
  destruct (cl_accurate d Rd Hd) as [Ha1 Ha2].
  set (k := cl d) in *. unfold libm_tolerance in *.
  pose proof (pow10_pos k) as P0. pose proof (pow10_pos (k - 1)) as P1.
  split.
  - assert (10 ^ (-1) < 10 ^ k); [| assert (-1 < k)%Z by (apply pow10_lt_inv; assumption); lia].
    change (10 ^ (-1)) with (1 # 10).
    clearbody d k. set (A := 10 ^ k) in *. clearbody A. Lqa.lra.
  - assert (10 ^ (k - 1) < 10 ^ 9); [| assert (k - 1 < 9)%Z by (apply pow10_lt_inv; assumption); lia].
    change (10 ^ 9) with 1000000000.
    clearbody d k. set (A := 10 ^ (k - 1)) in *. clearbody A. Lqa.lra.
Qed.

(** Inside the range the source returns the least of its six rounded
    candidates and writes the rounded quotient [tmax / nsteps] to [dt]. *)
Lemma SnapTimeStep_in_range_rn (tmax dtmax : Q) :
  0 < tmax -> 0 < dtmax -> in_range (tmax / dtmax) ->
  SnapTimeStep cl tmax dtmax =
  Some (nsteps_of cl (round_pos (tmax / dtmax)),
        fdiv (Finite tmax) (of_int (nsteps_of cl (round_pos (tmax / dtmax))))).
Proof.
  intros Ht Hdt Hr. unfold SnapTimeStep.
  destruct (round_ratio _ Hr) as (ERN & Hd1 & Hd2).
  destruct (in_range_bounds _ Hr) as [H1 H2].
  assert (Ediv : fdiv (Finite tmax) (Finite dtmax) = Finite (round_pos (tmax / dtmax))).
  { apply (fdiv_pos tmax dtmax (2 ^ 40)); [exact Ht | exact Hdt | apply representable_2_40 |].
    apply Qle_trans with 250000000; [Lqa.lra | qcmp]. }
  rewrite Ediv.
  pose proof (cl_ratio_range _ Hr) as Hk.
  pose proof (fun i amax => in_range_quotient _ i amax Hr) as Hq.
  set (d := round_pos (tmax / dtmax)) in *.
  assert (Hd : 0 < d) by (clearbody d; Lqa.lra).
  rewrite (dceil_log10_pos_rn d Hd).
  rewrite to_int_of_int by (unfold INT_MIN, INT_MAX; lia).
  cbn [bind]. rewrite to_int_pow10_rn by lia. cbn [bind snap_for].
  change (1 + 1)%Z with 2%Z. change (2 + 1)%Z with 3%Z.
  change (3 + 1)%Z with 4%Z. change (4 + 1)%Z with 5%Z.
  assert (Hb : forall i amax n, In (i, amax) exponent_bounds ->
                 snap_body cl (Finite d) i n = Some (Z.min n (candidate cl d i))).
  { intros i amax n Hin. destruct (Hq i amax Hin) as [Hlo Hhi].
    exact (snap_body_in_range_rn d i amax n Hin Hlo Hhi). }
  rewrite (Hb 1%Z 8%Z) by (simpl; tauto). cbn [bind].
  rewrite (Hb 2%Z 7%Z) by (simpl; tauto). cbn [bind].
  rewrite (Hb 3%Z 7%Z) by (simpl; tauto). cbn [bind].
  rewrite (Hb 4%Z 6%Z) by (simpl; tauto). cbn [bind].
  rewrite (Hb 5%Z 5%Z) by (simpl; tauto). cbn [bind].
  reflexivity.
Qed.


(** The facts about one loop candidate: the rounded quotient, its
    rounding error and the accuracy of the logarithm. *)
Lemma candidate_facts (q : Q) (i amax : Z) :
  in_range q -> In (i, amax) exponent_bounds ->
  let d := round_pos q in
  let x := d / Qpower 5 i in
  let r := round_pos x in
  d == x * Qpower 5 i /\
  (1 - (1 # 9007199254740992)) * x <= r /\
  r <= (1 + (1 # 9007199254740992)) * x /\
  Qpower 10 (cl r - 1) * (1 - libm_tolerance) < r /\
  r <= Qpower 10 (cl r) * (1 + libm_tolerance).
Proof.
  intros Hr Hin d x r.
  destruct (in_range_quotient q i amax Hr Hin) as [Hlo Hhi]. fold d x in Hlo, Hhi.
  assert (Hamax : (amax <= 8)%Z).
  { unfold exponent_bounds in Hin. simpl in Hin.
    repeat (destruct Hin as [Hin|Hin]; [inversion Hin; lia |]). contradiction. }
  assert (Hx40 : x <= 2 ^ 40).
  { eapply Qle_trans; [exact Hhi |].
    apply Qle_trans with (10 ^ 8 * 1).
    - apply Qle_trans with (Qpower 10 amax * 1).
      + apply Qmult_le_l; [apply pow10_pos | qcmp].
      + apply Qmult_le_compat_r; [apply pow10_mono; lia | discriminate].
    - qcmp. }
  destruct (round_pos_mid x) as (_ & Hr1 & Hr2);
    [eapply Qle_trans; [| exact Hlo]; qcmp | exact Hx40 |].
  fold r in Hr1, Hr2.
  assert (Rr : representable r).
  { apply round_pos_mid_representable; [| exact Hx40].
    eapply Qle_trans; [| exact Hlo]. qcmp. }
  assert (Hrpos : 0 < r) by (clearbody r x; Lqa.lra).
  split.
  - unfold x. field. intros E. pose proof (pow5_pos i) as P. rewrite E in P. discriminate P.
  - split; [exact Hr1 |]. split; [exact Hr2 |]. exact (cl_accurate r Rr Hrpos).
Qed.

Lemma index_bound (i : Z) :
  (1 <= i <= 5)%Z -> exists amax, In (i, amax) exponent_bounds.
Proof.
  intros Hi. unfold exponent_bounds.
  enum_int i 1%Z 5%nat ltac:(eexists; simpl; tauto).
Qed.

(** Every candidate is at least the raw ratio, up to the rounding of
    the two quotients and of the logarithm. *)
Lemma candidate_ge_rn (q : Q) (i : Z) :
  in_range q -> (1 <= i <= 5)%Z ->
  (1 - (45 # 100000000000000)) * q <= inject_Z (candidate cl (round_pos q) i).
Proof.
  intros Hr Hi. destruct (index_bound i Hi) as (amax & Hin).
  destruct (candidate_facts q i amax Hr Hin) as (Ed & Hr1 & Hr2 & _ & Ha).
  destruct (round_ratio q Hr) as (_ & Hd1 & _).
  destruct (in_range_bounds q Hr) as [Hq _].
  unfold candidate.
  set (d := round_pos q) in *. set (x := d / Qpower 5 i) in *.
  set (r := round_pos x) in *. set (a := cl r) in *.
  pose proof (pow10_le_max a) as Hm.
  rewrite inject_Z_mult, <- (pow5_inject i) by lia.
  set (M := inject_Z (Z.max 1 (10 ^ a))) in *. set (A := Qpower 10 a) in *.
  unfold libm_tolerance in Ha.
  clearbody M A r x d. clear a.
  enum_int i 1%Z 5%nat ltac:(pow5_literals; Lqa.lra).
Qed.

Lemma candidate0_ge_rn (q : Q) :
  in_range q ->
  (1 - (45 # 100000000000000)) * q <= inject_Z (candidate0 cl (round_pos q)).
Proof.
  intros Hr. pose proof (cl_ratio_range q Hr) as Hk.
  destruct (round_ratio q Hr) as (_ & Hd1 & _).
  destruct (in_range_bounds q Hr) as [Hq _].
  pose proof (round_ratio_representable q Hr) as Rd.
  unfold candidate0. set (d := round_pos q) in *.
  assert (Hd : 0 < d) by (clearbody d; Lqa.lra).
  destruct (cl_accurate d Rd Hd) as [_ Ha].
  rewrite <- pow10_inject by lia.
  set (A := 10 ^ cl d) in *. unfold libm_tolerance in Ha.
  clearbody A d. Lqa.lra.
Qed.

(** A candidate is below every number of its own family that exceeds
    the raw ratio by the tolerance. *)
Lemma candidate_least_rn (q : Q) (i a : Z) :
  in_range q -> (1 <= i <= 5)%Z -> (0 <= a)%Z ->
  (1 + tolerance) * q <= inject_Z (5 ^ i * 10 ^ a) ->
  (candidate cl (round_pos q) i <= 5 ^ i * 10 ^ a)%Z.
Proof.
  intros Hr Hi Ha Hle. destruct (index_bound i Hi) as (amax & Hin).
  destruct (candidate_facts q i amax Hr Hin) as (Ed & _ & Hr2 & Ha1 & _).
  destruct (round_ratio q Hr) as (_ & _ & Hd2).
  destruct (in_range_bounds q Hr) as [Hq _].
  unfold candidate.
  set (d := round_pos q) in *. set (x := d / Qpower 5 i) in *.
  set (r := round_pos x) in *. set (ai := cl r) in *.
  assert (H5 : (0 < 5 ^ i)%Z) by (apply Z.pow_pos_nonneg; lia).
  assert (H10 : (0 < 10 ^ a)%Z) by (apply Z.pow_pos_nonneg; lia).
  apply Z.mul_le_mono_nonneg_l; [lia |].
  assert (Hai : (ai <= a)%Z).
  { assert (10 ^ (ai - 1) < 10 ^ a);
      [| assert (ai - 1 < a)%Z by (apply pow10_lt_inv; assumption); lia].
    rewrite inject_Z_mult, <- (pow5_inject i), <- pow10_inject in Hle by lia.
    pose proof (pow10_pos a) as Pa. pose proof (pow10_pos (ai - 1)) as P1.
    set (A1 := 10 ^ (ai - 1)) in *. set (A := 10 ^ a) in *.
    unfold libm_tolerance in Ha1. unfold tolerance in Hle.
    clearbody A1 A r x d. clear ai.
    enum_int i 1%Z 5%nat ltac:(pow5_literals; Lqa.lra). }
  destruct (Z_lt_le_dec ai 0) as [Hneg|Hnn].
  - rewrite (Z.pow_neg_r 10 ai Hneg). lia.
  - assert (10 ^ ai <= 10 ^ a)%Z by (apply Z.pow_le_mono_r; lia). lia.
Qed.

Lemma candidate0_least_rn (q : Q) (a : Z) :
  in_range q -> (0 <= a)%Z ->
  (1 + tolerance) * q <= inject_Z (10 ^ a) ->
  (candidate0 cl (round_pos q) <= 10 ^ a)%Z.
Proof.
  intros Hr Ha Hle.
  destruct (round_ratio q Hr) as (_ & Hd1 & Hd2).
  destruct (in_range_bounds q Hr) as [Hq _].
  pose proof (round_ratio_representable q Hr) as Rd.
  unfold candidate0. set (d := round_pos q) in *.
  assert (Hd : 0 < d) by (clearbody d; Lqa.lra).
  destruct (cl_accurate d Rd Hd) as [Ha1 _].
  apply Z.pow_le_mono_r; [lia |].
  assert (10 ^ (cl d - 1) < 10 ^ a);
    [| assert (cl d - 1 < a)%Z by (apply pow10_lt_inv; assumption); lia].
  rewrite <- pow10_inject in Hle by lia.
  pose proof (pow10_pos a) as Pa. pose proof (pow10_pos (cl d - 1)) as P1.
  set (A1 := 10 ^ (cl d - 1)) in *. set (A := 10 ^ a) in *.
  unfold libm_tolerance in Ha1. unfold tolerance in Hle.
  clearbody A1 A d. Lqa.lra.
Qed.

Lemma nsteps_of_cases_rn (d : Q) :
  let n := nsteps_of cl d in
  (n = candidate0 cl d \/ n = candidate cl d 1 \/ n = candidate cl d 2 \/
   n = candidate cl d 3 \/ n = candidate cl d 4 \/ n = candidate cl d 5) /\
  (n <= candidate0 cl d /\ n <= candidate cl d 1 /\ n <= candidate cl d 2 /\
   n <= candidate cl d 3 /\ n <= candidate cl d 4 /\ n <= candidate cl d 5)%Z.
Proof.
  unfold nsteps_of. cbn [map fold_left]. lia.
Qed.

Lemma nsteps_of_ge_rn (q : Q) :
  in_range q ->
  (1 - (45 # 100000000000000)) * q <= inject_Z (nsteps_of cl (round_pos q)).
Proof.
  intros Hr.
  destruct (nsteps_of_cases_rn (round_pos q)) as [Hc _]. cbv zeta in Hc.
  destruct Hc as [E|[E|[E|[E|[E|E]]]]]; rewrite E;
    first [ apply candidate0_ge_rn; exact Hr | apply candidate_ge_rn; [exact Hr | lia] ].
Qed.

Lemma nsteps_of_pos_rn (q : Q) :
  in_range q -> (1 <= nsteps_of cl (round_pos q))%Z.
Proof.
  intros Hr. pose proof (nsteps_of_ge_rn q Hr) as Hge.
  destruct (in_range_bounds q Hr) as [Hq _].
  assert (H0 : inject_Z 0 < inject_Z (nsteps_of cl (round_pos q))).
  { set (n := inject_Z _) in *. clearbody n. change (inject_Z 0) with 0. Lqa.lra. }
  rewrite <- Zlt_Qlt in H0. lia.
Qed.

Lemma nsteps_of_least_rn (q : Q) (z : Z) :
  in_range q -> Rounding.round_number z -> (1 + tolerance) * q <= inject_Z z ->
  (nsteps_of cl (round_pos q) <= z)%Z.
Proof.
  intros Hr (i & a & Hi & Ha & ->) Hle.
  destruct (nsteps_of_cases_rn (round_pos q)) as [_ (H0 & H1 & H2 & H3 & H4 & H5)].
  cbv zeta in *.
  assert (Hcases : (i = 0 \/ i = 1 \/ i = 2 \/ i = 3 \/ i = 4 \/ i = 5)%Z) by lia.
  destruct Hcases as [-> | [-> | [-> | [-> | [-> | ->]]]]].
  - rewrite Z.pow_0_r, Z.mul_1_l in *.
    pose proof (candidate0_least_rn q a Hr Ha Hle). lia.
  - pose proof (candidate_least_rn q 1 a Hr ltac:(lia) Ha Hle). lia.
  - pose proof (candidate_least_rn q 2 a Hr ltac:(lia) Ha Hle). lia.
  - pose proof (candidate_least_rn q 3 a Hr ltac:(lia) Ha Hle). lia.
  - pose proof (candidate_least_rn q 4 a Hr ltac:(lia) Ha Hle). lia.
  - pose proof (candidate_least_rn q 5 a Hr ltac:(lia) Ha Hle). lia.
Qed.

Lemma candidate_round_rn (d : Q) (i : Z) :
  (1 <= i <= 5)%Z -> Rounding.round_number (candidate cl d i).
Proof.
  intros Hi. unfold candidate.
  set (a := cl (round_pos (d / Qpower 5 i))).
  destruct (Z_lt_le_dec a 0) as [Hneg|Hnn].
  - exists i, 0%Z. rewrite (Z.pow_neg_r 10 a Hneg).
    split; [lia |]. split; [lia |]. reflexivity.
  - exists i, a. assert (0 < 10 ^ a)%Z by (apply Z.pow_pos_nonneg; lia).
    rewrite Z.max_r by lia. split; [lia |]. split; [lia | reflexivity].
Qed.

Lemma nsteps_of_round_rn (q : Q) :
  in_range q -> Rounding.round_number (nsteps_of cl (round_pos q)).
Proof.
  intros Hr. destruct (nsteps_of_cases_rn (round_pos q)) as [Hc _]. cbv zeta in Hc.
  destruct Hc as [E|[E|[E|[E|[E|E]]]]]; rewrite E;
    try (apply candidate_round_rn; lia).
  pose proof (cl_ratio_range q Hr) as Hk.
  exists 0%Z, (cl (round_pos q)). unfold candidate0.
  split; [lia |]. split; [lia |]. rewrite Z.pow_0_r. lia.
Qed.


(** The returned step count is the exact answer for a ratio within the
    tolerance of the raw one. *)
Lemma nsteps_of_perturbed (q : Q) :
  in_range q ->
  exists r,
    (1 - tolerance) * q <= r /\ r <= (1 + tolerance) * q /\
    Quantizer.in_range r /\
    Quantizer.nsteps_of r = nsteps_of cl (round_pos q).
Proof.
  intros Hr.
  pose proof (nsteps_of_ge_rn q Hr) as Hge.
  pose proof (nsteps_of_round_rn q Hr) as Hround.
  pose proof (fun z => nsteps_of_least_rn q z Hr) as Hleast.
  destruct (in_range_bounds q Hr) as [Hq1 Hq2].
  destruct Hr as [Hr1 Hr2]. unfold tolerance in *.
  assert (Hr1' : (1 + (1 # 1000000000000)) * (1 # 10) <= q) by exact Hr1.
  set (n := nsteps_of cl (round_pos q)) in *. clearbody n.
  destruct (Qlt_le_dec (inject_Z n) ((1 + (1 # 1000000000000)) * q)) as [Hlt|Hle].
  - exists (inject_Z n).
    assert (Hin : Quantizer.in_range (inject_Z n)).
    { unfold Quantizer.in_range. set (N := inject_Z n) in *. clearbody N. split; Lqa.lra. }
    split; [set (N := inject_Z n) in *; clearbody N; Lqa.lra |].
    split; [apply Qlt_le_weak; exact Hlt |]. split; [exact Hin |].
    apply Z.le_antisymm.
    + apply QuantizerMore.nsteps_of_least; [exact Hin | exact Hround | apply Qle_refl].
    + rewrite Zle_Qle. apply QuantizerFacts.nsteps_of_ge. exact Hin.
  - set (r := (1 + (1 # 1000000000000)) * q) in *.
    assert (Hin : Quantizer.in_range r).
    { unfold Quantizer.in_range, r. split; Lqa.lra. }
    exists r. split; [unfold r; Lqa.lra |]. split; [apply Qle_refl |].
    split; [exact Hin |].
    apply Z.le_antisymm.
    + apply QuantizerMore.nsteps_of_least; [exact Hin | exact Hround | exact Hle].
    + apply Hleast.
      * apply QuantizerMore.nsteps_of_round. exact Hin.
      * apply QuantizerFacts.nsteps_of_ge. exact Hin.
Qed.

(** The step size written to [dt]: the rounded quotient. *)
Lemma dt_rounded (tmax : Q) (n : Z) :
  0 < tmax -> representable tmax -> (1 <= n)%Z ->
  fdiv (Finite tmax) (of_int n) = Finite (round_pos (tmax / inject_Z n)).
Proof.
  intros Ht Hrep Hn. unfold of_int.
  assert (Hn0 : 0 < inject_Z n) by (change 0 with (inject_Z 0); rewrite <- Zlt_Qlt; lia).
  apply (fdiv_pos tmax (inject_Z n) tmax); [exact Ht | exact Hn0 | exact Hrep |].
  apply Qle_shift_div_r; [exact Hn0 |].
  rewrite <- (Qmult_1_r tmax) at 1.
  apply Qmult_le_l; [exact Ht |].
  change 1 with (inject_Z 1). rewrite <- Zle_Qle. exact Hn.
Qed.

Lemma step_size_scaled (tmax dtmax c : Q) (n : Z) :
  0 < tmax -> 0 < dtmax -> (1 <= n)%Z ->
  c * (tmax / dtmax) <= inject_Z n ->
  c * (tmax / inject_Z n) <= dtmax.
Proof.
  intros Ht Hdt Hn Hle.
  assert (Hn0 : 0 < inject_Z n) by (change 0 with (inject_Z 0); rewrite <- Zlt_Qlt; lia).
  assert (Hdt0 : ~ dtmax == 0) by (intros E; rewrite E in Hdt; discriminate Hdt).
  assert (Hnn : ~ inject_Z n == 0) by (intros E; rewrite E in Hn0; discriminate Hn0).
  setoid_replace (c * (tmax / inject_Z n)) with ((c * tmax) / inject_Z n) by (field; exact Hnn).
  apply Qle_shift_div_r; [exact Hn0 |].
  apply Qle_trans with (dtmax * (c * (tmax / dtmax))).
  - setoid_replace (dtmax * (c * (tmax / dtmax))) with (c * tmax) by (field; exact Hdt0).
    apply Qle_refl.
  - apply Qmult_le_l; assumption.
Qed.


(** *** The claims about the quantizer, with binary64 rounding *)

(** C1 (amended): for every positive duration [tmax] and positive
    [dtmax] whose exact ratio [rawSteps = tmax / dtmax] lies between
    [(1 + 1e-12) / 10] and [250000000 * (1 - 1e-12)], and a C library
    whose logarithm is accurate, the step count returned by
    [SnapTimeStep] equals the smallest element that is at least [r] of
    the candidate set of [r], made of [10^ceil(log10(r))] and of
    [5^i * max(1, 10^ceil(log10(r / 5^i)))] for [i = 1..5], for some
    [r] within a relative [1e-12] of [rawSteps].  The quotient and the
    logarithm are rounded, so the count can be the candidate just below
    [rawSteps]. *)
Theorem SnapTimeStep_near_smallest_candidate (tmax dtmax : Q) :
  0 < tmax -> 0 < dtmax ->
  (1 + tolerance) / 10 <= tmax / dtmax ->
  tmax / dtmax <= 250000000 * (1 - tolerance) ->
  exists n dt r c,
    SnapTimeStep cl tmax dtmax = Some (n, dt) /\
    (1 - tolerance) * (tmax / dtmax) <= r /\
    r <= (1 + tolerance) * (tmax / dtmax) /\
    smallest_geq r (spec_candidates r) c /\
    c == inject_Z n.
Proof.
  intros Ht Hdt Hlo Hhi.
  assert (Hr : in_range (tmax / dtmax)) by (split; assumption).
  destruct (nsteps_of_perturbed _ Hr) as (r & Hr1 & Hr2 & Hin & En).
  destruct (nsteps_of_smallest r Hin) as (c & Hc & Ec). rewrite En in Ec.
  exists (nsteps_of cl (round_pos (tmax / dtmax))),
         (fdiv (Finite tmax) (of_int (nsteps_of cl (round_pos (tmax / dtmax))))), r, c.
  split; [apply SnapTimeStep_in_range_rn; assumption |].
  split; [exact Hr1 |]. split; [exact Hr2 |]. split; [exact Hc | exact Ec].
Qed.

(** C2 (amended): for every pair of positive doubles [tmax] and
    [dtmax] whose exact ratio lies between [(1 + 1e-12) / 10] and
    [250000000 * (1 - 1e-12)], and a C library whose logarithm is
    accurate, the step size that [SnapTimeStep] writes through [dt] is
    the finite double nearest to [tmax / stepCount], and it exceeds
    [dtmax] by a relative [1e-12] at most. *)
Theorem SnapTimeStep_step_size_bound (tmax dtmax : Q) :
  representable tmax -> representable dtmax ->
  0 < tmax -> 0 < dtmax ->
  (1 + tolerance) / 10 <= tmax / dtmax ->
  tmax / dtmax <= 250000000 * (1 - tolerance) ->
  exists n dt,
    SnapTimeStep cl tmax dtmax = Some (n, Finite dt) /\
    fdiv (Finite tmax) (of_int n) = Finite dt /\
    dt <= (1 + tolerance) * dtmax.
Proof.
  intros Rt Rdt Ht Hdt Hlo Hhi.
  assert (Hr : in_range (tmax / dtmax)) by (split; assumption).
  pose proof (nsteps_of_pos_rn _ Hr) as Hn.
  pose proof (nsteps_of_ge_rn _ Hr) as Hge.
  set (n := nsteps_of cl (round_pos (tmax / dtmax))) in *.
  pose proof (dt_rounded tmax n Ht Rt Hn) as Edt.
  exists n, (round_pos (tmax / inject_Z n)).
  split; [rewrite <- Edt; apply SnapTimeStep_in_range_rn; assumption |].
  split; [exact Edt |].
  pose proof (step_size_scaled tmax dtmax _ n Ht Hdt Hn Hge) as Hx.
  assert (Hn0 : 0 < inject_Z n) by (change 0 with (inject_Z 0); rewrite <- Zlt_Qlt; lia).
  assert (Hxpos : 0 < tmax / inject_Z n).
  { apply Qlt_shift_div_l; [exact Hn0 |]. rewrite Qmult_0_l. exact Ht. }
  pose proof (round_pos_nearest _ dtmax Hxpos Rdt) as Hnear.
  set (x := tmax / inject_Z n) in *. set (dt := round_pos x) in *.
  unfold tolerance. clearbody dt x.
  destruct (Qlt_le_dec x dtmax) as [Hc|Hc].
  - rewrite (Qabs_pos (dtmax - x)) in Hnear by Lqa.lra.
    apply Qabs_le_iff in Hnear. Lqa.lra.
  - rewrite (Qabs_neg (dtmax - x)) in Hnear by Lqa.lra.
    apply Qabs_le_iff in Hnear. Lqa.lra.
Qed.

(** C3 (amended): for every positive double [tmax] and positive
    [dtmax] whose exact ratio lies between [(1 + 1e-12) / 10] and
    [250000000 * (1 - 1e-12)], and a C library whose logarithm is
    accurate, the step size is the quotient [tmax / stepCount] rounded
    to the nearest double, the step count is at least
    [(1 - 1e-12) * tmax / dtmax], and the product
    [stepCount * stepSize] differs from [tmax] by the rounding error of
    that one quotient at most: [2^-53 * tmax], plus [2^-1075] per step
    where the step size is subnormal.  The product can be below
    [tmax]. *)
Theorem SnapTimeStep_product_rounded (tmax dtmax : Q) :
  representable tmax ->
  0 < tmax -> 0 < dtmax ->
  (1 + tolerance) / 10 <= tmax / dtmax ->
  tmax / dtmax <= 250000000 * (1 - tolerance) ->
  exists n dt,
    SnapTimeStep cl tmax dtmax = Some (n, Finite dt) /\
    fdiv (Finite tmax) (of_int n) = Finite dt /\
    (1 - tolerance) * (tmax / dtmax) <= inject_Z n /\
    Qabs (inject_Z n * dt - tmax) <= 2 ^ (-53) * tmax + inject_Z n * 2 ^ (-1075).
Proof.
  intros Rt Ht Hdt Hlo Hhi.
  assert (Hr : in_range (tmax / dtmax)) by (split; assumption).
  pose proof (nsteps_of_pos_rn _ Hr) as Hn.
  pose proof (nsteps_of_ge_rn _ Hr) as Hge.
  destruct (in_range_bounds _ Hr) as [Hq _].
  set (n := nsteps_of cl (round_pos (tmax / dtmax))) in *.
  pose proof (dt_rounded tmax n Ht Rt Hn) as Edt.
  exists n, (round_pos (tmax / inject_Z n)).
  split; [rewrite <- Edt; apply SnapTimeStep_in_range_rn; assumption |].
  split; [exact Edt |].
  split.
  { unfold tolerance. set (N := inject_Z n) in *. set (q := tmax / dtmax) in *.
    clearbody N q. Lqa.lra. }
  assert (Hn0 : 0 < inject_Z n) by (change 0 with (inject_Z 0); rewrite <- Zlt_Qlt; lia).
  assert (Hnn : ~ inject_Z n == 0) by (intros E; rewrite E in Hn0; discriminate Hn0).
  assert (Hxpos : 0 < tmax / inject_Z n).
  { apply Qlt_shift_div_l; [exact Hn0 |]. rewrite Qmult_0_l. exact Ht. }
  destruct (round_pos_absolute _ Hxpos) as [H1 H2].
  set (N := inject_Z n) in *. set (x := tmax / N) in *. set (dt := round_pos x) in *.
  assert (Ex : tmax == N * x) by (unfold x; field; exact Hnn).
  assert (E : N * dt - tmax == N * (dt - x)) by (rewrite Ex; ring).
  assert (E' : 2 ^ (-53) * tmax + N * 2 ^ (-1075) == N * (2 ^ (-53) * x + 2 ^ (-1075)))
    by (rewrite Ex; ring).
  rewrite E, E', Qabs_Qmult, (Qabs_pos N) by (apply Qlt_le_weak; exact Hn0).
  apply Qmult_le_l; [exact Hn0 |].
  apply Qabs_le_iff.
  set (b := 2 ^ (-53) * x + 2 ^ (-1075)) in *. clearbody b dt x. split; Lqa.lra.
Qed.

(** X1: inside the range the returned step count is a number of the
    form [5^i * 10^a] ([0 <= i <= 5], [0 <= a]), it is at least
    [(1 - 1e-12)] times the ratio [tmax / dtmax], and no number of that
    form that is at least [(1 + 1e-12)] times the ratio is smaller. *)
Theorem SnapTimeStep_near_least_round_number (tmax dtmax : Q) :
  0 < tmax -> 0 < dtmax ->
  (1 + tolerance) / 10 <= tmax / dtmax ->
  tmax / dtmax <= 250000000 * (1 - tolerance) ->
  exists n dt,
    SnapTimeStep cl tmax dtmax = Some (n, dt) /\
    Rounding.round_number n /\
    (1 - tolerance) * (tmax / dtmax) <= inject_Z n /\
    forall z, Rounding.round_number z ->
              (1 + tolerance) * (tmax / dtmax) <= inject_Z z -> (n <= z)%Z.
Proof.
  intros Ht Hdt Hlo Hhi.
  assert (Hr : in_range (tmax / dtmax)) by (split; assumption).
  pose proof (nsteps_of_ge_rn _ Hr) as Hge.
  destruct (in_range_bounds _ Hr) as [Hq _].
  eexists; eexists. split; [apply SnapTimeStep_in_range_rn; assumption |].
  split; [apply nsteps_of_round_rn; exact Hr |].
  split.
  - unfold tolerance. set (N := inject_Z _) in *. set (q := tmax / dtmax) in *.
    clearbody N q. Lqa.lra.
  - intros z Hz Hle. apply nsteps_of_least_rn; assumption.
Qed.

(** X2: inside the range the step count is less than ten times the
    ratio [tmax / dtmax] (five times for a ratio above one), up to the
    relative tolerance; for a [dtmax] of at least [2^-1000] the step
    size is therefore more than a tenth of [dtmax], up to the
    tolerance. *)
Theorem SnapTimeStep_count_upper_bound (tmax dtmax : Q) :
  representable tmax ->
  0 < tmax -> 0 < dtmax ->
  (1 + tolerance) / 10 <= tmax / dtmax ->
  tmax / dtmax <= 250000000 * (1 - tolerance) ->
  exists n dt,
    SnapTimeStep cl tmax dtmax = Some (n, Finite dt) /\
    inject_Z n < 10 * ((1 + tolerance) * (tmax / dtmax)) /\
    (1 + 2 * tolerance <= tmax / dtmax ->
     inject_Z n < 5 * ((1 + tolerance) * (tmax / dtmax))) /\
    (2 ^ (-1000) <= dtmax -> (1 - 2 * tolerance) * dtmax < 10 * dt).
Proof.
  intros Rt Ht Hdt Hlo Hhi.
  assert (Hr : in_range (tmax / dtmax)) by (split; assumption).
  pose proof (nsteps_of_pos_rn _ Hr) as Hn.
  destruct (in_range_bounds _ Hr) as [Hq _].
  destruct (nsteps_of_perturbed _ Hr) as (r & Hr1 & Hr2 & Hin & En).
  set (n := nsteps_of cl (round_pos (tmax / dtmax))) in *.
  pose proof (dt_rounded tmax n Ht Rt Hn) as Edt.
  pose proof (QuantizerMore.nsteps_of_lt_10 r Hin) as H10. rewrite En in H10.
  assert (G10 : inject_Z n < 10 * ((1 + tolerance) * (tmax / dtmax))).
  { unfold tolerance in *. set (N := inject_Z n) in *. set (q := tmax / dtmax) in *.
    clearbody N q. Lqa.lra. }
  exists n, (round_pos (tmax / inject_Z n)).
  split; [rewrite <- Edt; apply SnapTimeStep_in_range_rn; assumption |].
  split; [exact G10 |]. split.
  - intros H1.
    assert (Hr' : 1 < r).
    { unfold tolerance in *. set (q := tmax / dtmax) in *. clearbody q. Lqa.lra. }
    pose proof (QuantizerMore.nsteps_of_lt_5 r Hin Hr') as H5. rewrite En in H5.
    unfold tolerance in *. set (N := inject_Z n) in *. set (q := tmax / dtmax) in *.
    clearbody N q. Lqa.lra.
  - intros Hnormal.
    assert (Hn0 : 0 < inject_Z n) by (change 0 with (inject_Z 0); rewrite <- Zlt_Qlt; lia).
    assert (G10' : inject_Z n < (10 * (1 + tolerance)) * (tmax / dtmax)).
    { eapply Qlt_le_trans; [exact G10 |]. apply Qle_lteq. right. ring. }
    pose proof (QuantizerMore.step_size_above tmax dtmax _ n Hdt Hn G10') as Hx.
    assert (Hx' : dtmax < 10 * ((1 + tolerance) * (tmax / inject_Z n))).
    { eapply Qlt_le_trans; [exact Hx |]. apply Qle_lteq. right. ring. }
    assert (Hxn : 2 ^ (-1022) <= tmax / inject_Z n).
    { assert (T : 2 ^ (-1000) <= 20 * (tmax / inject_Z n)).
      { unfold tolerance in Hx'. set (x := tmax / inject_Z n) in *.
        set (P := 2 ^ (-1000)) in *. clearbody x P. Lqa.lra. }
      assert (Q20 : 20 * 2 ^ (-1022) <= 2 ^ (-1000)) by qcmp.
      set (x := tmax / inject_Z n) in *. set (P := 2 ^ (-1000)) in *.
      set (P' := 2 ^ (-1022)) in *. clearbody x P P'. Lqa.lra. }
    destruct (round_pos_relative _ Hxn) as [Hrel _].
    change (2 ^ (-53)) with (1 # 9007199254740992) in Hrel.
    unfold tolerance in *.
    set (x := tmax / inject_Z n) in *. set (dt := round_pos x) in *.
    clearbody dt x. Lqa.lra.
Qed.

Lemma snap_body_small_rn (d : Q) (i n : Z) :
  (1 <= i <= 5)%Z ->
  Qpower 10 (-305) <= d / Qpower 5 i -> d / Qpower 5 i <= 1 # 11 ->
  snap_body cl (Finite d) i n = Some (Z.min n (5 ^ i)).
Proof.
  intros Hi Hlo Hhi.
  set (x := d / Qpower 5 i) in *.
  assert (Hx : 0 < x) by (eapply Qlt_le_trans; [apply pow10_pos | exact Hlo]).
  assert (Hd : 0 < d).
  { assert (E : d == x * Qpower 5 i).
    { unfold x. field. intros E. pose proof (pow5_pos i) as P. rewrite E in P. discriminate P. }
    rewrite E. apply Qmult_lt_0_compat; [exact Hx | apply pow5_pos]. }
  assert (Hn : 2 ^ (-1022) <= x) by (eapply Qle_trans; [| exact Hlo]; qcmp).
  assert (Hx1 : x <= 1) by (eapply Qle_trans; [exact Hhi |]; discriminate).
  destruct (round_pos_small x Hn Hx1) as (ERN & Rr & Hr1 & Hr2).
  unfold snap_body. rewrite (pow5_exact i Hi).
  assert (Ediv : fdiv (Finite d) (Finite (Qpower 5 i)) = Finite (round_pos x)).
  { apply (fdiv_pos d (Qpower 5 i) 1);
      [exact Hd | apply pow5_pos | apply (representable_pow2 0); lia | exact Hx1]. }
  rewrite Ediv.
  set (r := round_pos x) in *.
  assert (Hr : 0 < r) by (clearbody r x; Lqa.lra).
  rewrite (dceil_log10_pos_rn r Hr).
  destruct (cl_accurate r Rr Hr) as [Ha1 Ha2].
  set (a := cl r) in *.
  assert (Ha : (-400 <= a <= -1)%Z).
  { split.
    - assert (10 ^ (-306) < 10 ^ a); [| assert (-306 < a)%Z by (apply pow10_lt_inv; assumption); lia].
      pose proof (pow10_pos a) as Pa.
      assert (T : 10 * 10 ^ (-306) <= 10 ^ (-305)) by qcmp.
      unfold libm_tolerance in Ha2. clearbody r a.
      set (A := 10 ^ a) in *. set (L := 10 ^ (-305)) in *. set (L' := 10 ^ (-306)) in *.
      clearbody A L L' x. Lqa.lra.
    - assert (10 ^ (a - 1) < 10 ^ (-1)); [| assert (a - 1 < -1)%Z by (apply pow10_lt_inv; assumption); lia].
      pose proof (pow10_pos (a - 1)) as Pa.
      change (10 ^ (-1)) with (1 # 10).
      unfold libm_tolerance in Ha1. clearbody r a.
      set (A := 10 ^ (a - 1)) in *. clearbody A x. Lqa.lra. }
  clearbody a. clear Ha1 Ha2.
  rewrite to_int_of_int by (unfold INT_MIN, INT_MAX; lia).
  cbn [bind]. rewrite <- (pow5_exact i Hi), (to_int_pow5 i Hi). cbn [bind].
  rewrite to_int_pow10_neg_rn by lia. cbn [bind].
  enum_int i 1%Z 5%nat ltac:(reflexivity).
Qed.

(** X24: the zero step count under rounding.  For every positive
    [tmax] and [dtmax] whose exact ratio is at most [(1 - 1e-12) / 10]
    (and at least [10^-300]), and every accurate logarithm,
    [SnapTimeStep] returns the step count [0] and writes [tmax / 0],
    plus infinity, to [dt]. *)
Theorem SnapTimeStep_zero_below_tenth_rounded (tmax dtmax : Q) :
  0 < tmax -> 0 < dtmax ->
  Qpower 10 (-300) <= tmax / dtmax -> tmax / dtmax <= (1 - tolerance) / 10 ->
  SnapTimeStep cl tmax dtmax = Some (0%Z, Inf false).
Proof.
  intros Ht Hdt Hlo Hhi. unfold SnapTimeStep.
  set (q := tmax / dtmax) in *.
  assert (Hhi' : q <= (1 - (1 # 1000000000000)) * (1 # 10)) by exact Hhi.
  assert (Hn : 2 ^ (-1022) <= q) by (eapply Qle_trans; [| exact Hlo]; qcmp).
  assert (Hq1 : q <= 1) by Lqa.lra.
  destruct (round_pos_small q Hn Hq1) as (ERN & Rd & Hd1 & Hd2).
  assert (Ediv : fdiv (Finite tmax) (Finite dtmax) = Finite (round_pos q)).
  { apply (fdiv_pos tmax dtmax 1);
      [exact Ht | exact Hdt | apply (representable_pow2 0); lia | exact Hq1]. }
  rewrite Ediv.
  assert (Hq : 0 < q) by (eapply Qlt_le_trans; [apply pow10_pos | exact Hlo]).
  set (d := round_pos q) in *.
  assert (Hd : 0 < d) by (clearbody d; Lqa.lra).
  rewrite (dceil_log10_pos_rn d Hd).
  destruct (cl_accurate d Rd Hd) as [Ha1 Ha2].
  set (k := cl d) in *.
  assert (Hk : (-400 <= k <= -1)%Z).
  { split.
    - assert (10 ^ (-301) < 10 ^ k); [| assert (-301 < k)%Z by (apply pow10_lt_inv; assumption); lia].
      pose proof (pow10_pos k) as Pa.
      assert (T : 10 * 10 ^ (-301) <= 10 ^ (-300)) by qcmp.
      unfold libm_tolerance in Ha2. clearbody d k.
      set (A := 10 ^ k) in *. set (L := 10 ^ (-300)) in *. set (L' := 10 ^ (-301)) in *.
      clearbody A L L' q. Lqa.lra.
    - assert (10 ^ (k - 1) < 10 ^ (-1)); [| assert (k - 1 < -1)%Z by (apply pow10_lt_inv; assumption); lia].
      pose proof (pow10_pos (k - 1)) as Pa.
      change (10 ^ (-1)) with (1 # 10).
      unfold libm_tolerance in Ha1. clearbody d k.
      set (A := 10 ^ (k - 1)) in *. clearbody A q. Lqa.lra. }
  rewrite to_int_of_int by (unfold INT_MIN, INT_MAX; lia).
  cbn [bind]. rewrite to_int_pow10_neg_rn by lia. cbn [bind snap_for].
  change (1 + 1)%Z with 2%Z. change (2 + 1)%Z with 3%Z.
  change (3 + 1)%Z with 4%Z. change (4 + 1)%Z with 5%Z.
  assert (Hb : forall i n, (1 <= i <= 5)%Z ->
                 snap_body cl (Finite d) i n = Some (Z.min n (5 ^ i))).
  { intros i n Hi. apply snap_body_small_rn; [exact Hi | |].
    - apply Qle_shift_div_l; [apply pow5_pos |].
      apply Qle_trans with (Qpower 10 (-305) * Qpower 5 5).
      + apply Qmult_le_l; [apply pow10_pos |].
        apply Qpower_le_compat_l; [lia | discriminate].
      + assert (T : Qpower 10 (-305) * Qpower 5 5 <= (1 # 2) * Qpower 10 (-300)) by qcmp.
        set (L := Qpower 10 (-305) * Qpower 5 5) in *. set (L' := Qpower 10 (-300)) in *.
        clearbody L L' d q. Lqa.lra.
    - apply Qle_shift_div_r; [apply pow5_pos |].
      apply Qle_trans with ((1 # 11) * Qpower 5 1).
      + change ((1 # 11) * Qpower 5 1) with (5 # 11). clearbody d q. Lqa.lra.
      + apply Qmult_le_l; [reflexivity |].
        apply Qpower_le_compat_l; [lia | discriminate]. }
  rewrite (Hb 1%Z) by lia. cbn [bind].
  rewrite (Hb 2%Z) by lia. cbn [bind].
  rewrite (Hb 3%Z) by lia. cbn [bind].
  rewrite (Hb 4%Z) by lia. cbn [bind].
  rewrite (Hb 5%Z) by lia. cbn [bind].
  set (N := Z.min _ _). assert (EN : N = 0%Z) by reflexivity.
  clearbody N. subst N.
  f_equal. f_equal. unfold fdiv, of_int.
  change (Qeq_bool (inject_Z 0) 0) with true. cbv iota.
  destruct (Qeq_bool tmax 0) eqn:E.
  - apply Qeq_bool_eq in E. rewrite E in Ht. discriminate Ht.
  - unfold Qneg_bool. destruct (Z.ltb_spec (Qnum tmax) 0) as [Hneg|_]; [| reflexivity].
    unfold Qlt in Ht. simpl in Ht. lia.
Qed.

End Libm.

Lemma representable_just_above_ten :
  representable (5629499534213121 # 562949953421312).
Proof.
  exists 5629499534213121%Z, (-49)%Z.
  split; [vm_compute; discriminate |]. split; [lia |].
  split; reflexivity.
Qed.

Lemma representable_small_int (z : Z) :
  (0 <= z <= 250000001)%Z -> representable (inject_Z z).
Proof. intros H. apply representable_int. change (2 ^ 53)%Z with 9007199254740992%Z. lia. Qed.

(** C1, as stated, fails.  For [tmax = 1] and [dtmax = 50] the source
    returns the step count [0]; for [tmax = 250000001] and [dtmax = 1]
    an [int] product overflows.  Between these, for
    [tmax = 10 + 2^-49] (the double next above ten) and [dtmax = 1],
    [log10] rounds to [1.0] and the source returns [10], below the
    ratio; for [tmax] the double nearest to [0.1], which is above
    [1/10], [log10] rounds to [-1.0] and the source returns [0]. *)
Lemma SnapTimeStep_smallest_candidate_fails_rn :
  ~ (forall tmax dtmax : Q,
       representable tmax -> representable dtmax -> 0 < tmax -> 0 < dtmax ->
       exists n dt c,
         SnapTimeStep ceil_log10_rn tmax dtmax = Some (n, dt) /\
         smallest_geq (tmax / dtmax) (spec_candidates (tmax / dtmax)) c /\
         c == inject_Z n) /\
  ~ (forall tmax dtmax : Q,
       representable tmax -> representable dtmax -> 0 < tmax -> 0 < dtmax ->
       1 # 10 < tmax / dtmax -> tmax / dtmax <= 250000000 ->
       exists n dt c,
         SnapTimeStep ceil_log10_rn tmax dtmax = Some (n, dt) /\
         smallest_geq (tmax / dtmax) (spec_candidates (tmax / dtmax)) c /\
         c == inject_Z n) /\
  SnapTimeStep ceil_log10_rn 1 50 = Some (0%Z, Inf false) /\
  SnapTimeStep ceil_log10_rn (5629499534213121 # 562949953421312) 1
  = Some (10%Z, Finite (4503599627370497 # 4503599627370496)) /\
  1 # 10 < 3602879701896397 # 36028797018963968 /\
  SnapTimeStep ceil_log10_rn (3602879701896397 # 36028797018963968) 1
  = Some (0%Z, Inf false) /\
  SnapTimeStep ceil_log10_rn 250000001 1 = None.
Proof.
  split; [| split; [| vm_compute; repeat split]].
  - intros H.
    destruct (H 1 50 (representable_small_int 1 ltac:(lia))
                (representable_small_int 50 ltac:(lia)) eq_refl eq_refl)
      as (n & dt & c & E & (_ & Hge & _) & Ec).
    vm_compute in E. inversion E; subst n dt.
    rewrite Ec in Hge. vm_compute in Hge. apply Hge. reflexivity.
  - intros H.
    destruct (H (5629499534213121 # 562949953421312) 1
                representable_just_above_ten
                (representable_small_int 1 ltac:(lia)) eq_refl eq_refl eq_refl
                ltac:(apply Qle_bool_iff; reflexivity))
      as (n & dt & c & E & (_ & Hge & _) & Ec).
    vm_compute in E. inversion E; subst n dt.
    rewrite Ec in Hge. vm_compute in Hge. apply Hge. reflexivity.
Qed.


Lemma SnapTimeStep_near_smallest_candidate_witness :
  exists n dt r c,
    SnapTimeStep ceil_log10_rn (5629499534213121 # 562949953421312) 1 = Some (n, dt) /\
    (1 - tolerance) * ((5629499534213121 # 562949953421312) / 1) <= r /\
    r <= (1 + tolerance) * ((5629499534213121 # 562949953421312) / 1) /\
    smallest_geq r (spec_candidates r) c /\
    c == inject_Z n.
Proof.
  apply (SnapTimeStep_near_smallest_candidate ceil_log10_rn ceil_log10_rn_accurate
           (5629499534213121 # 562949953421312) 1);
    [ reflexivity | reflexivity
    | apply Qle_bool_iff; reflexivity | apply Qle_bool_iff; reflexivity ].
Defined.

(** C2, as stated, fails.  For [tmax = 1] and [dtmax = 50] the step
    count is [0] and the value written to [dt] is plus infinity; for
    [tmax = 10 + 2^-49] and [dtmax = 1] the step count is [10] and the
    step size the double [1 + 2^-52], above [dtmax]; for [tmax] the
    double nearest to [0.1] and [dtmax = 1] the step count is [0] and
    the step size plus infinity. *)
Lemma SnapTimeStep_step_size_fails_rn :
  ~ (forall tmax dtmax : Q,
       representable tmax -> representable dtmax -> 0 < tmax -> 0 < dtmax ->
       exists n dt,
         SnapTimeStep ceil_log10_rn tmax dtmax = Some (n, dt) /\
         dle dt (Finite dtmax)) /\
  ~ (forall tmax dtmax : Q,
       representable tmax -> representable dtmax -> 0 < tmax -> 0 < dtmax ->
       1 # 10 < tmax / dtmax -> tmax / dtmax <= 250000000 ->
       exists n dt,
         SnapTimeStep ceil_log10_rn tmax dtmax = Some (n, dt) /\
         dle dt (Finite dtmax)) /\
  SnapTimeStep ceil_log10_rn 1 50 = Some (0%Z, Inf false) /\
  SnapTimeStep ceil_log10_rn (5629499534213121 # 562949953421312) 1
  = Some (10%Z, Finite (4503599627370497 # 4503599627370496)) /\
  1 < 4503599627370497 # 4503599627370496 /\
  1 # 10 < 3602879701896397 # 36028797018963968 /\
  SnapTimeStep ceil_log10_rn (3602879701896397 # 36028797018963968) 1
  = Some (0%Z, Inf false) /\
  SnapTimeStep ceil_log10_rn 250000001 1 = None.
Proof.
  split; [| split; [| vm_compute; repeat split]].
  - intros H.
    destruct (H 1 50 (representable_small_int 1 ltac:(lia))
                (representable_small_int 50 ltac:(lia)) eq_refl eq_refl)
      as (n & dt & E & Hle).
    vm_compute in E. inversion E; subst n dt. exact Hle.
  - intros H.
    destruct (H (5629499534213121 # 562949953421312) 1
                representable_just_above_ten
                (representable_small_int 1 ltac:(lia)) eq_refl eq_refl eq_refl
                ltac:(apply Qle_bool_iff; reflexivity))
      as (n & dt & E & Hle).
    vm_compute in E. inversion E; subst n dt.
    cbn [dle] in Hle. vm_compute in Hle. apply Hle. reflexivity.
Qed.

Lemma SnapTimeStep_step_size_bound_witness :
  exists n dt,
    SnapTimeStep ceil_log10_rn (5629499534213121 # 562949953421312) 1
    = Some (n, Finite dt) /\
    fdiv (Finite (5629499534213121 # 562949953421312)) (of_int n) = Finite dt /\
    dt <= (1 + tolerance) * 1.
Proof.
  apply (SnapTimeStep_step_size_bound ceil_log10_rn ceil_log10_rn_accurate
           (5629499534213121 # 562949953421312) 1);
    [ apply representable_just_above_ten
    | apply (representable_small_int 1); lia
    | reflexivity | reflexivity
    | apply Qle_bool_iff; reflexivity | apply Qle_bool_iff; reflexivity ].
Defined.

(** C3, as stated, fails.  For [tmax = 1] and [dtmax = 50] the step
    count is [0], the step size plus infinity and their product NaN.
    For [tmax = 3] and [dtmax = 1] the step count is [5] and the step
    size the double below [3/5]: the product is less than the duration.
    For [tmax = 10 + 2^-49] and [dtmax = 1] the step count [10] is
    below the ratio: it is not rounded up. *)
Lemma SnapTimeStep_product_fails_rn :
  ~ (forall tmax dtmax : Q,
       representable tmax -> representable dtmax -> 0 < tmax -> 0 < dtmax ->
       exists n dt,
         SnapTimeStep ceil_log10_rn tmax dtmax = Some (n, dt) /\
         dle (Finite tmax) (dmul (of_int n) dt)) /\
  ~ (forall tmax dtmax : Q,
       representable tmax -> representable dtmax -> 0 < tmax -> 0 < dtmax ->
       1 # 10 < tmax / dtmax -> tmax / dtmax <= 250000000 ->
       exists n dt,
         SnapTimeStep ceil_log10_rn tmax dtmax = Some (n, dt) /\
         dle (Finite tmax) (dmul (of_int n) dt)) /\
  ~ (forall tmax dtmax : Q,
       representable tmax -> representable dtmax -> 0 < tmax -> 0 < dtmax ->
       1 # 10 < tmax / dtmax -> tmax / dtmax <= 250000000 ->
       exists n dt,
         SnapTimeStep ceil_log10_rn tmax dtmax = Some (n, dt) /\
         tmax / dtmax <= inject_Z n) /\
  SnapTimeStep ceil_log10_rn 1 50 = Some (0%Z, Inf false) /\
  dmul (of_int 0) (Inf false) = NaN /\
  SnapTimeStep ceil_log10_rn 3 1
  = Some (5%Z, Finite (5404319552844595 # 9007199254740992)) /\
  5 * (5404319552844595 # 9007199254740992) < 3 /\
  SnapTimeStep ceil_log10_rn (5629499534213121 # 562949953421312) 1
  = Some (10%Z, Finite (4503599627370497 # 4503599627370496)) /\
  SnapTimeStep ceil_log10_rn 250000001 1 = None.
Proof.
  split; [| split; [| split; [| vm_compute; repeat split]]].
  - intros H.
    destruct (H 1 50 (representable_small_int 1 ltac:(lia))
                (representable_small_int 50 ltac:(lia)) eq_refl eq_refl)
      as (n & dt & E & Hle).
    vm_compute in E. inversion E; subst n dt. exact Hle.
  - intros H.
    destruct (H 3 1 (representable_small_int 3 ltac:(lia))
                (representable_small_int 1 ltac:(lia)) eq_refl eq_refl eq_refl
                ltac:(apply Qle_bool_iff; reflexivity))
      as (n & dt & E & Hle).
    vm_compute in E. inversion E; subst n dt.
    cbn [dmul of_int dle] in Hle. vm_compute in Hle. apply Hle. reflexivity.
  - intros H.
    destruct (H (5629499534213121 # 562949953421312) 1
                representable_just_above_ten
                (representable_small_int 1 ltac:(lia)) eq_refl eq_refl eq_refl
                ltac:(apply Qle_bool_iff; reflexivity))
      as (n & dt & E & Hle).
    vm_compute in E. inversion E; subst n dt.
    vm_compute in Hle. apply Hle. reflexivity.
Qed.

Lemma SnapTimeStep_product_rounded_witness :
  exists n dt,
    SnapTimeStep ceil_log10_rn 3 1 = Some (n, Finite dt) /\
    fdiv (Finite 3) (of_int n) = Finite dt /\
    (1 - tolerance) * (3 / 1) <= inject_Z n /\
    Qabs (inject_Z n * dt - 3) <= 2 ^ (-53) * 3 + inject_Z n * 2 ^ (-1075).
Proof.
  apply (SnapTimeStep_product_rounded ceil_log10_rn ceil_log10_rn_accurate 3 1);
    [ apply (representable_small_int 3); lia
    | reflexivity | reflexivity
    | apply Qle_bool_iff; reflexivity | apply Qle_bool_iff; reflexivity ].
Defined.

Lemma SnapTimeStep_near_least_round_number_witness :
  exists n dt,
    SnapTimeStep ceil_log10_rn 130 1 = Some (n, dt) /\
    Rounding.round_number n /\
    (1 - tolerance) * (130 / 1) <= inject_Z n /\
    forall z, Rounding.round_number z ->
              (1 + tolerance) * (130 / 1) <= inject_Z z -> (n <= z)%Z.
Proof.
  apply (SnapTimeStep_near_least_round_number ceil_log10_rn ceil_log10_rn_accurate 130 1);
    [ reflexivity | reflexivity
    | apply Qle_bool_iff; reflexivity | apply Qle_bool_iff; reflexivity ].
Defined.

Lemma SnapTimeStep_count_upper_bound_witness :
  exists n dt,
    SnapTimeStep ceil_log10_rn 11 2 = Some (n, Finite dt) /\
    inject_Z n < 10 * ((1 + tolerance) * (11 / 2)) /\
    (1 + 2 * tolerance <= 11 / 2 ->
     inject_Z n < 5 * ((1 + tolerance) * (11 / 2))) /\
    (2 ^ (-1000) <= 2 -> (1 - 2 * tolerance) * 2 < 10 * dt).
Proof.
  apply (SnapTimeStep_count_upper_bound ceil_log10_rn ceil_log10_rn_accurate 11 2);
    [ apply (representable_small_int 11); lia
    | reflexivity | reflexivity
    | apply Qle_bool_iff; reflexivity | apply Qle_bool_iff; reflexivity ].
Defined.

Lemma SnapTimeStep_zero_below_tenth_rounded_witness :
  SnapTimeStep ceil_log10_rn 3 40 = Some (0%Z, Inf false).
Proof.
  apply (SnapTimeStep_zero_below_tenth_rounded ceil_log10_rn ceil_log10_rn_accurate 3 40);
    [ reflexivity | reflexivity
    | apply Qle_bool_iff; reflexivity | apply Qle_bool_iff; reflexivity ].
Defined.

End RoundedFacts.

(** ** The quantizer followed by the time loop, in binary64 arithmetic *)

Module RoundedDriverFacts.
Import Numeric NumericFacts Binary64 Binary64Facts Rounded RoundedFacts Driver.
Import QuantizerFacts.

Local Open Scope Q_scope.

Section TimeLoopRounded.

Variable cl : Q -> Z.
Hypothesis cl_accurate : accurate cl.
Variable World : Type.
Variable Step : double -> World -> World.
Variables (max_its myid : Z) (visit visualization : bool).

Local Abbreviation drive := (drive World Step max_its myid visit visualization).
Local Abbreviation evolve :=
  (Rounded.evolve cl World Step max_its myid visit visualization).

Lemma nsteps_of_int_rn (q : Q) :
  in_range q -> (nsteps_of cl (round_pos q) <= 1000000000)%Z.
Proof.
  intros Hr. pose proof (cl_ratio_range cl cl_accurate q Hr) as Hk.
  destruct (nsteps_of_cases_rn cl (round_pos q)) as [_ (H0 & _)]. cbv zeta in H0.
  unfold candidate0 in H0.
  assert (10 ^ cl (round_pos q) <= 10 ^ 9)%Z by (apply Z.pow_le_mono_r; lia).
  change (10 ^ 9)%Z with 1000000000%Z in *. lia.
Qed.

(** X9: [SnapTimeStep] followed by the time loop.  Inside the range
    of the quantizer the driver ends with exit status [0]; when the step
    count is within the cap the steps taken cover the requested duration
    up to the rounding of the step size, and when the cap applies (and
    the duration is not in the subnormal range) they cover less. *)
Theorem evolve_duration_rounded (tmax dtmax : Q) (st0 : state World) :
  representable tmax ->
  0 < tmax -> 0 < dtmax ->
  (1 + tolerance) / 10 <= tmax / dtmax ->
  tmax / dtmax <= 250000000 * (1 - tolerance) ->
  exists n dt r,
    SnapTimeStep cl tmax dtmax = Some (n, Finite dt) /\
    evolve tmax dtmax st0 = Some r /\
    fst r = 0%Z /\
    let calls :=
      inject_Z (Z.of_nat (step_calls (trace (snd r)) - step_calls (trace st0))) in
    ((n <= max_its)%Z ->
     Qabs (calls * dt - tmax) <= 2 ^ (-53) * tmax + inject_Z n * 2 ^ (-1075)) /\
    ((max_its < n)%Z -> 2 ^ (-900) <= tmax -> calls * dt < tmax).
Proof.
  intros Rt Ht Hdt Hlo Hhi.
  assert (Hr : in_range (tmax / dtmax)) by (split; assumption).
  pose proof (nsteps_of_pos_rn cl cl_accurate _ Hr) as Hn.
  pose proof (nsteps_of_int_rn _ Hr) as Hn9.
  pose proof (SnapTimeStep_in_range_rn cl cl_accurate tmax dtmax Ht Hdt Hr) as ES.
  set (n := nsteps_of cl (round_pos (tmax / dtmax))) in *.
  rewrite (dt_rounded tmax n Ht Rt Hn) in ES.
  assert (Hn0 : 0 < inject_Z n) by (change 0 with (inject_Z 0); rewrite <- Zlt_Qlt; lia).
  assert (Hnn : ~ inject_Z n == 0) by (intros E; rewrite E in Hn0; discriminate Hn0).
  assert (Hxpos : 0 < tmax / inject_Z n).
  { apply Qlt_shift_div_l; [exact Hn0 |]. rewrite Qmult_0_l. exact Ht. }
  destruct (round_pos_absolute _ Hxpos) as [H1 H2].
  exists n, (round_pos (tmax / inject_Z n)),
         (drive n (Finite (round_pos (tmax / inject_Z n))) st0).
  split; [exact ES |].
  split; [unfold Rounded.evolve; rewrite ES; reflexivity |].
  split.
  { destruct (DriverMore.drive_effect World Step max_its myid visit visualization
                n (Finite (round_pos (tmax / inject_Z n))) st0) as (st & Er & _).
    rewrite Er. reflexivity. }
  cbv zeta. rewrite DriverMore.drive_calls.
  replace (Z.to_nat (Z.min n max_its) + step_calls (trace st0)
           - step_calls (trace st0))%nat with (Z.to_nat (Z.min n max_its)) by lia.
  set (N := inject_Z n) in *. set (x := tmax / N) in *. set (dt := round_pos x) in *.
  assert (Ex : tmax == N * x) by (unfold x; field; exact Hnn).
  split.
  - intros Hle. rewrite Z.min_l by lia. rewrite Z2Nat.id by lia. fold N.
    assert (E : N * dt - tmax == N * (dt - x)) by (rewrite Ex; ring).
    assert (E' : 2 ^ (-53) * tmax + N * 2 ^ (-1075) == N * (2 ^ (-53) * x + 2 ^ (-1075)))
      by (rewrite Ex; ring).
    rewrite E, E', Qabs_Qmult, (Qabs_pos N) by (apply Qlt_le_weak; exact Hn0).
    apply Qmult_le_l; [exact Hn0 |].
    apply Qabs_le_iff.
    set (b := 2 ^ (-53) * x + 2 ^ (-1075)) in *. clearbody b dt x. split; Lqa.lra.
  - intros Hcap Hnormal. rewrite Z.min_r by lia.
    set (M := inject_Z (Z.of_nat (Z.to_nat max_its))).
    assert (HM0 : 0 <= M).
    { unfold M. change 0 with (inject_Z 0). rewrite <- Zle_Qle. lia. }
    assert (HMN : M <= N - 1).
    { unfold M, N, Qminus. change 1 with (inject_Z 1).
      rewrite <- inject_Z_opp, <- inject_Z_plus, <- Zle_Qle. lia. }
    assert (HN9 : N <= 1000000000).
    { unfold N. change 1000000000 with (inject_Z 1000000000). rewrite <- Zle_Qle. exact Hn9. }
    assert (HN1 : 1 <= N).
    { unfold N. change 1 with (inject_Z 1). rewrite <- Zle_Qle. exact Hn. }
    (* the rounding error of one step, times the step count, is below one step *)
    assert (Hx : 2 ^ (-900) <= 1000000000 * x).
    { eapply Qle_trans; [exact Hnormal |]. rewrite Ex.
      apply Qmult_le_compat_r; [exact HN9 | apply Qlt_le_weak; exact Hxpos]. }
    assert (Hb : 1000000000 * (2 ^ (-53) * x + 2 ^ (-1075)) < x).
    { assert (T : 1000000000 * (1000000000 * 2 ^ (-1075)) <= (1 # 2) * 2 ^ (-900)) by qcmp.
      change (2 ^ (-53)) with (1 # 9007199254740992).
      set (t := 2 ^ (-1075)) in *. set (P := 2 ^ (-900)) in *.
      clearbody t P dt x. Lqa.lra. }
    set (b := 2 ^ (-53) * x + 2 ^ (-1075)) in *.
    assert (Hb0 : 0 <= b).
    { unfold b. apply Qlt_le_weak.
      assert (0 < 2 ^ (-53) * x) by (apply Qmult_lt_0_compat; [apply pow2_pos | exact Hxpos]).
      pose proof (pow2_pos (-1075)).
      set (u := 2 ^ (-53) * x) in *. set (t := 2 ^ (-1075)) in *. clearbody u t. Lqa.lra. }
    apply Qle_lt_trans with (M * (x + b)).
    { rewrite !(Qmult_comm M). apply Qmult_le_compat_r; [| exact HM0].
      clearbody dt b x. Lqa.lra. }
    apply Qle_lt_trans with ((N - 1) * (x + b)).
    { apply Qmult_le_compat_r; [exact HMN |]. clearbody b x. Lqa.lra. }
    assert (HNb : N * b <= 1000000000 * b).
    { apply Qmult_le_compat_r; [exact HN9 | exact Hb0]. }
    rewrite Ex.
    setoid_replace ((N - 1) * (x + b)) with (N * x + N * b - x - b) by ring.
    set (Nx := N * x) in *. set (Nb := N * b) in *.
    clearbody Nx Nb b x. Lqa.lra.
Qed.

End TimeLoopRounded.

Lemma evolve_duration_rounded_witness :
  let st0 := {| world := 0%nat; trace := [] |} in
  exists n dt r,
    SnapTimeStep ceil_log10_rn 40 (4025 # 1000000) = Some (n, Finite dt) /\
    Rounded.evolve ceil_log10_rn nat (fun _ => S) 100 0 true true
      40 (4025 # 1000000) st0 = Some r /\
    fst r = 0%Z /\
    let calls :=
      inject_Z (Z.of_nat (step_calls (trace (snd r)) - step_calls (trace st0))) in
    ((n <= 100)%Z ->
     Qabs (calls * dt - 40) <= 2 ^ (-53) * 40 + inject_Z n * 2 ^ (-1075)) /\
    ((100 < n)%Z -> 2 ^ (-900) <= 40 -> calls * dt < 40).
Proof.
  apply (evolve_duration_rounded ceil_log10_rn ceil_log10_rn_accurate
           nat (fun _ => S) 100 0 true true 40 (4025 # 1000000)
           {| world := 0%nat; trace := [] |});
    [ apply (representable_small_int 40); lia
    | reflexivity | reflexivity
    | apply Qle_bool_iff; reflexivity | apply Qle_bool_iff; reflexivity ].
Defined.

End RoundedDriverFacts.
